(** * Configuration export (config-request.c): a shallow embedding

    The export engine flattens a tree of settings (schema + values +
    change mask) into a stream of key/value entries handed to a callback.
    This file embeds the formatter ([config_export_type] and its helpers),
    the tree walker ([settings_export]) and the export context entry points
    ([config_export_parser], [config_export_all_parsers]) and proves the
    properties stated about them. *)

From Stdlib Require Import ZArith String Ascii List Lia DecimalString.
From Stdlib Require Import DecimalN DecimalPos.
From stdpp Require Import base option list gmap strings.

Set Warnings "-register-all".

Local Open Scope string_scope.
Local Open Scope Z_scope.

(** ** Text output primitives (printf conversions used by the source) *)

(** ["%u"], ["%lu"]: unsigned decimal. *)
Definition dec (n : Z) : string :=
  NilZero.string_of_uint (N.to_uint (Z.to_N n)).

Definition octal_digit (d : Z) : ascii :=
  ascii_of_nat (48 + Z.to_nat d).

Fixpoint octal_go (fuel : nat) (n : Z) (acc : string) : string :=
  match fuel with
  | O => acc
  | S fuel' =>
      let acc' := String (octal_digit (n mod 8)) acc in
      if n / 8 =? 0 then acc' else octal_go fuel' (n / 8) acc'
  end.

(** ["%o"]: unsigned octal. [Z.log2 n + 1] digits always suffice. *)
Definition oct (n : Z) : string :=
  octal_go (S (Z.to_nat (Z.log2 n))) n "".

(** Modelled from the spec: the string buffer of lib/str.h is not among
    the sources; a buffer is the text appended so far, and
    [str_append_c] appends one character. *)
Definition str_append_c (str : string) (c : ascii) : string :=
  str +:+ String c "".

(** ** Formatting of sizes and durations *)

Definition suffixes : list ascii :=
  ["B"; "k"; "M"; "G"; "T"]%char.

(** The [for] loop of [config_export_size]; [rest] is [suffixes[i..]]. *)
Fixpoint size_loop (rest : list ascii) (suffix : ascii) (size : Z)
  : Z * ascii :=
  match rest with
  | [] => (size, suffix)
  | s :: rest' =>
      if size mod 1024 =? 0 then size_loop rest' s (size / 1024)
      else (size, suffix)
  end.

Definition config_export_size (str : string) (size : Z) : string :=
  if size =? 0 then str_append_c str "0"
  else
    let '(size', suffix) := size_loop (tail suffixes) "B"%char size in
    str +:+ dec size' +:+ " " +:+ String suffix "".

Definition config_export_time (str : string) (stamp : Z) : string :=
  if stamp =? 0 then str_append_c str "0"
  else
    let '(stamp, suffix) :=
      if stamp mod 60 =? 0 then
        let stamp := stamp / 60 in
        if stamp mod 60 =? 0 then
          let stamp := stamp / 60 in
          if stamp mod 24 =? 0 then
            let stamp := stamp / 24 in
            if stamp mod 7 =? 0 then (stamp / 7, "weeks")
            else (stamp, "days")
          else (stamp, "hours")
        else (stamp, "mins")
      else (stamp, "secs") in
    str +:+ dec stamp +:+ " " +:+ suffix.

Definition config_export_time_msecs (str : string) (stamp_msecs : Z)
  : string :=
  if stamp_msecs mod 1000 =? 0
  then config_export_time str (stamp_msecs / 1000)
  else str +:+ dec stamp_msecs +:+ " ms".

(** ** Fatal conditions

    [i_assert] and [i_unreached] abort the process; reading through a
    pointer that does not address a field of the expected type is undefined
    behaviour in C.  All three are outcomes of the model. *)

Inductive fatal :=
| AssertFailed (what : string)
| Unreached
| InvalidRead.

Inductive result (A : Type) :=
| Ok (a : A)
| Fatal (f : fatal).
Arguments Ok {A} a.
Arguments Fatal {A} f.

Global Instance result_ret : MRet result := fun A a => Ok a.
Global Instance result_bind : MBind result := fun A B k r =>
  match r with
  | Ok a => k a
  | Fatal f => Fatal f
  end.

Definition i_assert (what : string) (b : bool) : result unit :=
  if b then Ok tt else Fatal (AssertFailed what).

(** ** Data model *)

(** Modelled from the spec: [enum setting_type] is declared in
    settings-parser.h, which is not among the sources; these are the type
    tags of the specification's data model, under the names the source
    switches on. *)
Inductive setting_type :=
| SET_BOOL | SET_UINT | SET_UINT_OCT | SET_TIME | SET_TIME_MSECS
| SET_SIZE | SET_IN_PORT | SET_STR | SET_STR_VARS | SET_ENUM
| SET_DEFLIST | SET_DEFLIST_UNIQUE | SET_STRLIST | SET_ALIAS.

Global Instance setting_type_eq_dec : EqDecision setting_type.
Proof. solve_decision. Defined.

Definition SETTING_TYPE_IS_DEFLIST (t : setting_type) : bool :=
  match t with
  | SET_DEFLIST | SET_DEFLIST_UNIQUE => true
  | _ => false
  end.

(** The contents of one field of a settings struct.  A struct is addressed
    by byte offset ([CONST_PTR_OFFSET]), so it is a finite map from the
    offsets of its fields to their contents. *)
Inductive setting_value :=
| VBool (b : bool)                            (* bool *)
| VSize (n : Z)                               (* uoff_t *)
| VUint (n : Z)                               (* unsigned int *)
| VPort (n : Z)                               (* in_port_t *)
| VStr (s : option string)                    (* const char *, None = NULL *)
| VArray (a : option (list (gmap nat setting_value)))
                              (* ARRAY_TYPE(void_array), None = not created *)
| VStrlist (a : option (list string)).        (* ARRAY_TYPE(const_string) *)

Abbreviation settings := (gmap nat setting_value).

(** A field of the change struct: the byte the walker reads through
    [(const char * )change_value], and for list fields the array of the
    children's change structs. *)
Inductive change_value :=
| Change (byte : Z) (array : option (list (gmap nat change_value))).

Abbreviation changes := (gmap nat change_value).

Definition change_byte (c : change_value) : Z :=
  match c with Change b _ => b end.
Definition change_array (c : change_value) : option (list changes) :=
  match c with Change _ a => a end.

(** Modelled from the spec: [struct setting_parser_info] and
    [struct setting_define] are declared in settings-parser.h, which is not
    among the sources; SchemaRoot and SettingDefinition of the
    specification, restricted to the members the exporter reads. *)
Inductive setting_parser_info :=
| mk_info (defines : list setting_define)
          (defaults : option settings)
          (type_offset1 : nat)
with setting_define :=
| mk_define (type : setting_type) (key : string) (offset : nat)
            (list_info : option setting_parser_info) (flags : Z).

Definition defines (i : setting_parser_info) :=
  match i with mk_info d _ _ => d end.
Definition defaults (i : setting_parser_info) :=
  match i with mk_info _ d _ => d end.
Definition type_offset1 (i : setting_parser_info) :=
  match i with mk_info _ _ t => t end.

Definition type (d : setting_define) :=
  match d with mk_define t _ _ _ _ => t end.
Definition key (d : setting_define) :=
  match d with mk_define _ k _ _ _ => k end.
Definition offset (d : setting_define) :=
  match d with mk_define _ _ o _ _ => o end.
Definition list_info (d : setting_define) :=
  match d with mk_define _ _ _ l _ => l end.
Definition flags (d : setting_define) :=
  match d with mk_define _ _ _ _ f => f end.

(** Modelled from the spec: [enum config_dump_scope] and
    [enum config_key_type] are declared in config-request.h, which is not
    among the sources. *)
Inductive config_dump_scope :=
| CONFIG_DUMP_SCOPE_ALL_WITH_HIDDEN
| CONFIG_DUMP_SCOPE_ALL_WITHOUT_HIDDEN
| CONFIG_DUMP_SCOPE_SET
| CONFIG_DUMP_SCOPE_CHANGED.

Inductive config_key_type :=
| CONFIG_KEY_NORMAL
| CONFIG_KEY_LIST
| CONFIG_KEY_UNIQUE_KEY
| CONFIG_KEY_KEY_LIST.

(** One call of the [config_request_callback_t]: key, value, type. *)
Definition config_entry : Type := string * string * config_key_type.

Global Instance config_key_type_eq_dec : EqDecision config_key_type.
Proof. solve_decision. Defined.

(** [struct setting_parser_context] as far as [settings_parser_get_set]
    and [settings_parser_get_changes] expose it. *)
Record setting_parser_context := mk_parser {
  parser_set : settings;
  parser_changes : changes;
}.

Record config_module_parser := mk_module_parser {
  root : setting_parser_info;
  parser : setting_parser_context;
  delayed_error : option string;
}.

(** [struct config_export_context].  The callback and its opaque context
    are modelled by the list of calls the callback has received, oldest
    first.  The members [value] and [flags] are [ctx_value] and
    [ctx_flags] here.  [assigned] is ghost state, not a member of the C
    struct: the section indices the walker has handed to
    [setting_export_section_name] when it descends into a child
    (line 368), oldest first. *)
Record config_export_context := mk_ctx {
  ctx_value : string;
  prefix : string;
  keys : gset string;
  scope : config_dump_scope;
  context : list config_entry;
  ctx_flags : Z;
  module_parsers : option (list config_module_parser);
  dup_module_parsers : option (list config_module_parser);
  section_idx : Z;
  assigned : list Z;
}.

Definition set_value (ctx : config_export_context) (v : string) :=
  mk_ctx v (prefix ctx) (keys ctx) (scope ctx) (context ctx) (ctx_flags ctx)
         (module_parsers ctx) (dup_module_parsers ctx) (section_idx ctx)
         (assigned ctx).
Definition set_prefix (ctx : config_export_context) (p : string) :=
  mk_ctx (ctx_value ctx) p (keys ctx) (scope ctx) (context ctx)
         (ctx_flags ctx) (module_parsers ctx) (dup_module_parsers ctx)
         (section_idx ctx) (assigned ctx).
Definition set_keys (ctx : config_export_context) (k : gset string) :=
  mk_ctx (ctx_value ctx) (prefix ctx) k (scope ctx) (context ctx)
         (ctx_flags ctx) (module_parsers ctx) (dup_module_parsers ctx)
         (section_idx ctx) (assigned ctx).
Definition set_section_idx (ctx : config_export_context) (i : Z) :=
  mk_ctx (ctx_value ctx) (prefix ctx) (keys ctx) (scope ctx) (context ctx)
         (ctx_flags ctx) (module_parsers ctx) (dup_module_parsers ctx) i
         (assigned ctx).

(** Ghost: record that section index [i] has been handed out. *)
Definition note_assigned (ctx : config_export_context) (i : Z) :=
  mk_ctx (ctx_value ctx) (prefix ctx) (keys ctx) (scope ctx) (context ctx)
         (ctx_flags ctx) (module_parsers ctx) (dup_module_parsers ctx)
         (section_idx ctx) (assigned ctx ++ [i]).

(** [ctx->callback(key, value, type, ctx->context)] *)
Definition callback (ctx : config_export_context) (k v : string)
    (t : config_key_type) :=
  mk_ctx (ctx_value ctx) (prefix ctx) (keys ctx) (scope ctx)
         (context ctx ++ [(k, v, t)]) (ctx_flags ctx)
         (module_parsers ctx) (dup_module_parsers ctx) (section_idx ctx)
         (assigned ctx).

(** ** External constants and helpers

    The separator, the tag of an unexpanded variable string, the flag bits
    and the escaping of section names are declared in settings-parser.h
    and config-request.h, which are not among the sources: they are
    parameters of the development. *)
Class Externals := {
  SETTINGS_SEPARATOR : ascii;
  SETTING_STRVAR_UNEXPANDED : string;
  SET_FLAG_HIDDEN : Z;
  CONFIG_DUMP_FLAG_HIDE_LIST_DEFAULTS : Z;
  CONFIG_DUMP_FLAG_DEDUPLICATE_KEYS : Z;
  settings_section_escape : string → string;
}.

(** ** C string primitives

    A C string is the text before its terminating NUL. *)

(** [s[i]] for [i <= strlen(s)]: the terminating NUL is read at
    [i = strlen(s)]. *)
Definition char_at (s : string) (i : nat) : ascii :=
  match String.get i s with
  | Some c => c
  | None => zero
  end.

(** [strncmp(a, b, n) == 0] *)
Fixpoint strncmp_eq (a b : string) (n : nat) : bool :=
  match n with
  | O => true
  | S n' =>
      match a, b with
      | EmptyString, EmptyString => true
      | String x a', String y b' =>
          if Ascii.eqb x y then strncmp_eq a' b' n' else false
      | _, _ => false
      end
  end.

(** Modelled from the spec: [null_strcmp] of lib/strfuncs.h is not among
    the sources; [null_strcmp(a, b) != 0] is the specification's "differs
    from", an absent string being equal to an absent one only. *)
Definition null_strcmp_ne (a b : option string) : bool :=
  negb (bool_decide (a = b)).

(** [str + 1] on a non-empty C string. *)
Definition str_tail (s : string) : string :=
  match s with
  | EmptyString => EmptyString
  | String _ s' => s'
  end.

(** ** Typed reads through [const void *] *)

Definition as_bool (v : setting_value) : result bool :=
  match v with VBool b => Ok b | _ => Fatal InvalidRead end.
Definition as_size (v : setting_value) : result Z :=
  match v with VSize n => Ok n | _ => Fatal InvalidRead end.
Definition as_uint (v : setting_value) : result Z :=
  match v with VUint n => Ok n | _ => Fatal InvalidRead end.
Definition as_port (v : setting_value) : result Z :=
  match v with VPort n => Ok n | _ => Fatal InvalidRead end.
Definition as_str (v : setting_value) : result (option string) :=
  match v with VStr s => Ok s | _ => Fatal InvalidRead end.
Definition as_array (v : setting_value) : result (option (list settings)) :=
  match v with VArray a => Ok a | _ => Fatal InvalidRead end.
Definition as_strlist (v : setting_value) : result (option (list string)) :=
  match v with VStrlist a => Ok a | _ => Fatal InvalidRead end.

(** [dump_default || dval == NULL || *val != *dval], with C's
    short-circuit evaluation: the default is read only when needed. *)
Definition dump_or_differs {A} (rd : setting_value → result A)
    (eqb : A → A → bool) (dump_default : bool)
    (default_value : option setting_value) (val : A) : result bool :=
  if dump_default then Ok true
  else match default_value with
       | None => Ok true
       | Some dv => dval ← rd dv; Ok (negb (eqb val dval))
       end.

(** [const char *dval = _dval == NULL ? NULL : *_dval] *)
Definition deref_str_default (default_value : option setting_value)
  : result (option string) :=
  match default_value with
  | None => Ok None
  | Some dv => as_str dv
  end.

Section formatter.
Context `{ext : Externals}.

(** [config_export_type]: returns the function's return value, the string
    buffer and [*dump_r]. *)
Definition config_export_type (str : string) (value : setting_value)
    (default_value : option setting_value) (type : setting_type)
    (dump_default : bool) (dump : bool) : result (bool * string * bool) :=
  match type with
  | SET_BOOL =>
      val ← as_bool value;
      d ← dump_or_differs as_bool Bool.eqb dump_default default_value val;
      Ok (true, if d : bool then str +:+ (if val : bool then "yes" else "no")
                else str, dump)
  | SET_SIZE =>
      val ← as_size value;
      d ← dump_or_differs as_size Z.eqb dump_default default_value val;
      Ok (true, if d : bool then config_export_size str val else str, dump)
  | SET_UINT | SET_UINT_OCT | SET_TIME | SET_TIME_MSECS =>
      val ← as_uint value;
      d ← dump_or_differs as_uint Z.eqb dump_default default_value val;
      Ok (true,
          if d : bool then
            match type with
            | SET_UINT_OCT => str +:+ "0" +:+ oct val
            | SET_TIME => config_export_time str val
            | SET_TIME_MSECS => config_export_time_msecs str val
            | _ => str +:+ dec val
            end
          else str, dump)
  | SET_IN_PORT =>
      val ← as_port value;
      d ← dump_or_differs as_port Z.eqb dump_default default_value val;
      Ok (true, if d : bool then str +:+ dec val else str, dump)
  | SET_STR_VARS =>
      val ← as_str value;
      dval ← deref_str_default default_value;
      _ ← i_assert "*val == NULL || **val == SETTING_STRVAR_UNEXPANDED[0]"
            (match val with
             | None => true
             | Some s =>
                 Ascii.eqb (char_at s 0) (char_at SETTING_STRVAR_UNEXPANDED 0)
             end);
      let sval := str_tail <$> val in
      match sval with
      | Some s =>
          if dump_default || null_strcmp_ne sval dval
          then Ok (true, str +:+ s, true)
          else Ok (true, str, dump)
      | None => Ok (true, str, dump)
      end
  | SET_STR =>
      val ← as_str value;
      dval ← deref_str_default default_value;
      match val with
      | Some s =>
          if dump_default || null_strcmp_ne val dval
          then Ok (true, str +:+ s, true)
          else Ok (true, str, dump)
      | None => Ok (true, str, dump)
      end
  | SET_ENUM =>
      val ← as_str value;
      match val with
      | None => Fatal InvalidRead          (* strlen(NULL) *)
      | Some s =>
          let len := String.length s in
          if dump_default then Ok (true, str +:+ s, dump)
          else
            dval ← deref_str_default default_value;
            match dval with
            | None => Fatal (AssertFailed "dval != NULL")
            | Some d =>
                if negb (strncmp_eq s d len)
                   || (negb (Ascii.eqb (char_at s len) ":")
                       && negb (Ascii.eqb (char_at s len) zero))
                then Ok (true, str +:+ s, dump)
                else Ok (true, str, dump)
            end
      end
  | _ => Ok (false, str, dump)
  end.

End formatter.

(** ** The tree walker *)


(** Arithmetic on [unsigned int] wraps. *)
Definition uint (z : Z) : Z := z mod 2 ^ 32.

(** [CONST_PTR_OFFSET(set, offset)], dereferenced: the struct must have a
    field at the offset. *)
Definition field {V} (s : gmap nat V) (offset : nat) : result V :=
  match s !! offset with
  | Some v => Ok v
  | None => Fatal InvalidRead
  end.

(** Modelled from the spec: [str_truncate(str, len)] of lib/str.h keeps
    the first [len] characters of the buffer. *)
Definition str_truncate (str : string) (len : nat) : string :=
  substring 0 len str.

Definition flag_set (flags bit : Z) : bool :=
  negb (Z.land flags bit =? 0).

(** Modelled from the spec: the hash table of lib/hash.h is not among
    the sources; [ctx->keys] maps a key to itself, so it is the set of the
    keys already emitted, [hash_table_lookup(ctx->keys, key) != NULL]
    is membership and [hash_table_insert] adds the key. *)
Definition hash_table_lookup (keys : gset string) (k : string) : bool :=
  bool_decide (k ∈ keys).

Definition hash_table_insert (keys : gset string) (k : string)
  : gset string := {[k]} ∪ keys.

Section walker.
Context `{ext : Externals}.

Definition setting_export_section_name (str : string)
    (def : setting_define) (set : settings) (idx : Z) : result string :=
  if negb (bool_decide (type def = SET_DEFLIST_UNIQUE)) then
    (* not unique, use the index *)
    Ok (str +:+ dec idx)
  else
    match list_info def with
    | None => Fatal InvalidRead
    | Some li =>
        let name_offset1 := type_offset1 li in
        _ ← i_assert "name_offset1 != 0" (negb (name_offset1 =? 0)%nat);
        v ← field set (name_offset1 - 1)%nat;
        name ← as_str v;
        match name with
        | None | Some EmptyString =>
            (* no name, this one isn't unique. use the index. *)
            Ok (str +:+ dec idx)
        | Some n => Ok (str +:+ settings_section_escape n)
        end
    end.

(** Lines 232-250: the forced-default flag chosen by the dump scope. *)
Definition scope_dump_default (scope : config_dump_scope)
    (def : setting_define) (change_value : change_value) : bool :=
  match scope with
  | CONFIG_DUMP_SCOPE_ALL_WITH_HIDDEN => true
  | CONFIG_DUMP_SCOPE_ALL_WITHOUT_HIDDEN =>
      if Z.land (flags def) SET_FLAG_HIDDEN =? 0 then
        (* not hidden - dump it *)
        true
      else
        (* hidden - dump default only if it's explicitly set *)
        negb (change_byte change_value =? 0)
  | CONFIG_DUMP_SCOPE_SET => negb (change_byte change_value =? 0)
  | CONFIG_DUMP_SCOPE_CHANGED => false
  end.

(** Lines 251-264: inside a unique list with HIDE_LIST_DEFAULTS, returns
    the default to compare with and the forced-default flag. *)
Definition hide_list_defaults (ctx : config_export_context)
    (info : setting_parser_info) (parent_unique_deflist : bool)
    (def : setting_define) (value : setting_value)
    (default_value : option setting_value) (change_value : change_value)
    (dump_default : bool) : option setting_value * bool :=
  if negb parent_unique_deflist
     || (Z.land (ctx_flags ctx) CONFIG_DUMP_FLAG_HIDE_LIST_DEFAULTS =? 0)
  then (default_value, dump_default)
  else if (change_byte change_value =? 0)
          && negb (offset def + 1 =? type_offset1 info)%nat
  then
    (* if value hasn't changed, it's the default. even if info->defaults
       has a different value. *)
    (Some value, dump_default)
  else
    (* value is set explicitly, but we don't know the default here.
       assume it's not the default. *)
    (default_value, true).

(** The section names of a list's children, joined by spaces
    (lines 294-299). *)
Fixpoint section_names (str : string) (def : setting_define)
    (children : list settings) (section_idx : Z) (i : Z) : result string :=
  match children with
  | [] => Ok str
  | child :: rest =>
      let str := if 0 <? i then str_append_c str " " else str in
      str ← setting_export_section_name str def child
              (uint (section_idx + i));
      section_names str def rest section_idx (i + 1)
  end.

(** The (subkey, value) pairs of a string list (lines 325-333). *)
Fixpoint strlist_pairs (ctx : config_export_context)
    (def : setting_define) (strings : list string)
  : config_export_context :=
  match strings with
  | k :: v :: rest =>
      let str := prefix ctx +:+ key def
                 +:+ String SETTINGS_SEPARATOR "" +:+ k in
      strlist_pairs (callback ctx str v CONFIG_KEY_NORMAL) def rest
  | _ => ctx
  end.

(** The [switch (def->type)] of [settings_export] (lines 266-339):
    returns the context, [dump], and the children with their change
    structs ([count] is the length of the children). *)
Definition export_value (ctx : config_export_context)
    (def : setting_define) (value : setting_value)
    (default_value : option setting_value) (change_value : change_value)
    (dump_default : bool)
  : result (config_export_context * bool
            * list settings * list changes) :=
  let ctx := set_value ctx (str_truncate (ctx_value ctx) 0) in
  match type def return result _ with
  | SET_BOOL | SET_SIZE | SET_UINT | SET_UINT_OCT | SET_TIME
  | SET_TIME_MSECS | SET_IN_PORT | SET_STR_VARS | SET_STR | SET_ENUM =>
      '(ret, str, dump) ← config_export_type (ctx_value ctx) value
                            default_value (type def) dump_default false;
      if ret : bool then Ok (set_value ctx str, dump, [], [])
      else Fatal Unreached
  | SET_DEFLIST | SET_DEFLIST_UNIQUE =>
      val ← as_array value;
      match val with
      | None => Ok (ctx, false, [], [])
      | Some children =>
          str ← section_names (ctx_value ctx) def children
                  (section_idx ctx) 0;
          match change_array change_value with
          | None => Fatal InvalidRead
          | Some change_children =>
              _ ← i_assert "count == count2"
                    (length children =? length change_children)%nat;
              Ok (set_value ctx str, false, children, change_children)
          end
      end
  | SET_STRLIST =>
      val ← as_strlist value;
      match val with
      | None => Ok (ctx, false, [], [])
      | Some strings =>
          let k := prefix ctx +:+ key def in
          if hash_table_lookup (keys ctx) k then
            (* already added all of these *)
            Ok (ctx, false, [], [])
          else
            let ctx :=
              if flag_set (ctx_flags ctx) CONFIG_DUMP_FLAG_DEDUPLICATE_KEYS
              then set_keys ctx (hash_table_insert (keys ctx) k)
              else ctx in
            (* for doveconf -n to see this KEY_LIST *)
            let ctx := callback ctx k "" CONFIG_KEY_LIST in
            _ ← i_assert "count % 2 == 0"
                  (Z.of_nat (length strings) mod 2 =? 0);
            Ok (strlist_pairs ctx def strings, false, [], [])
      end
  | SET_ALIAS => Ok (ctx, false, [], [])
  end.

(** Lines 340-358: the entry for the field itself. *)
Definition export_leaf (ctx : config_export_context)
    (info : setting_parser_info) (parent_unique_deflist : bool)
    (def : setting_define) (dump : bool) : config_export_context :=
  if (0 <? String.length (ctx_value ctx))%nat || dump then
    let k := prefix ctx +:+ key def in
    if negb (hash_table_lookup (keys ctx) k) then
      let t :=
        if (offset def + 1 =? type_offset1 info)%nat
           && parent_unique_deflist
        then CONFIG_KEY_UNIQUE_KEY
        else if SETTING_TYPE_IS_DEFLIST (type def) then CONFIG_KEY_LIST
        else CONFIG_KEY_NORMAL in
      let ctx := callback ctx k (ctx_value ctx) t in
      if flag_set (ctx_flags ctx) CONFIG_DUMP_FLAG_DEDUPLICATE_KEYS
      then set_keys ctx (hash_table_insert (keys ctx) k)
      else ctx
    else ctx
  else ctx.

(** Lines 364-375: the loop over the children, [recurse] being the
    recursive call into [def->list_info]. *)
Fixpoint export_children
    (recurse : settings → changes → config_export_context
               → result config_export_context)
    (def : setting_define) (prefix_len : nat) (section_start_idx : Z)
    (i : Z) (children : list settings) (change_children : list changes)
    (ctx : config_export_context) : result config_export_context :=
  match children, change_children with
  | [], _ => Ok ctx
  | _ :: _, [] => Fatal InvalidRead
  | child :: children', change :: change_children' =>
      let p := str_append_c (prefix ctx +:+ key def) SETTINGS_SEPARATOR in
      p ← setting_export_section_name p def child
            (uint (section_start_idx + i));
      let ctx := note_assigned ctx (uint (section_start_idx + i)) in
      let ctx := set_prefix ctx (str_append_c p SETTINGS_SEPARATOR) in
      ctx ← recurse child change ctx;
      let ctx := set_prefix ctx (str_truncate (prefix ctx) prefix_len) in
      export_children recurse def prefix_len section_start_idx (i + 1)
                      children' change_children' ctx
  end.

(** The body of the [for] loop over [info->defines].  The assertion of
    line 360 ([count == 0 || children != NULL]) holds by construction:
    [count] is the length of [children]. *)
Definition export_define
    (recurse : setting_parser_info → bool → settings → changes
               → config_export_context → result config_export_context)
    (info : setting_parser_info) (parent_unique_deflist : bool)
    (set : settings) (change_set : changes) (def : setting_define)
    (ctx : config_export_context) : result config_export_context :=
  value ← field set (offset def);
  default_value ← match defaults info with
                   | None => Ok None
                   | Some d => v ← field d (offset def); Ok (Some v)
                   end;
  change_value ← field change_set (offset def);
  let dump_default := scope_dump_default (scope ctx) def change_value in
  let '(default_value, dump_default) :=
    hide_list_defaults ctx info parent_unique_deflist def value
                       default_value change_value dump_default in
  '(ctx, dump, children, change_children) ←
    export_value ctx def value default_value change_value dump_default;
  let ctx := export_leaf ctx info parent_unique_deflist def dump in
  let prefix_len := String.length (prefix ctx) in
  let section_start_idx := section_idx ctx in
  let ctx :=
    set_section_idx ctx
      (uint (section_idx ctx + Z.of_nat (length children))) in
  match children with
  | [] => Ok ctx
  | _ :: _ =>
      match list_info def with
      | None => Fatal InvalidRead
      | Some li =>
          export_children
            (recurse li (bool_decide (type def = SET_DEFLIST_UNIQUE)))
            def prefix_len section_start_idx 0 children change_children ctx
      end
  end.

Fixpoint export_defines
    (recurse : setting_parser_info → bool → settings → changes
               → config_export_context → result config_export_context)
    (info : setting_parser_info) (parent_unique_deflist : bool)
    (set : settings) (change_set : changes) (defs : list setting_define)
    (ctx : config_export_context) : result config_export_context :=
  match defs with
  | [] => Ok ctx
  | def :: defs' =>
      ctx ← export_define recurse info parent_unique_deflist
              set change_set def ctx;
      export_defines recurse info parent_unique_deflist set change_set
                     defs' ctx
  end.

End walker.

Section export.
Context `{ext : Externals}.

Fixpoint settings_export (info : setting_parser_info)
    (parent_unique_deflist : bool) (set : settings) (change_set : changes)
    (ctx : config_export_context) {struct info}
  : result config_export_context :=
  export_defines settings_export info parent_unique_deflist set change_set
                 (defines info) ctx.

(** ** The export context *)

Definition config_export_init (scope : config_dump_scope) (flags : Z)
  : config_export_context :=
  {| ctx_value := ""; prefix := ""; keys := ∅; scope := scope;
     context := []; ctx_flags := flags; module_parsers := None;
     dup_module_parsers := None; section_idx := 0; assigned := [] |}.

Definition config_export_set_module_parsers (ctx : config_export_context)
    (parsers : list config_module_parser) : config_export_context :=
  mk_ctx (ctx_value ctx) (prefix ctx) (keys ctx) (scope ctx) (context ctx)
         (ctx_flags ctx) (Some parsers) (dup_module_parsers ctx)
         (section_idx ctx) (assigned ctx).

Definition config_export_get_parser_count (ctx : config_export_context)
  : result nat :=
  match module_parsers ctx with
  | None => Fatal InvalidRead
  | Some parsers => Ok (length parsers)
  end.

(** [config_export_parser]: returns the return value, [*error_r] (None
    when it is not written), the context and [*section_idx] (here
    [idx]). *)
Definition config_export_parser (ctx : config_export_context)
    (parser_idx : nat) (idx : Z)
  : result (Z * option string * config_export_context * Z) :=
  match parsers ← module_parsers ctx; parsers !! parser_idx with
  | None => Fatal InvalidRead
  | Some module_parser =>
      match delayed_error module_parser with
      | Some e => Ok (-1, Some e, ctx, idx)
      | None =>
          let ctx := set_section_idx ctx idx in
          ctx ← settings_export (root module_parser) false
                  (parser_set (parser module_parser))
                  (parser_changes (parser module_parser)) ctx;
          Ok (0, None, ctx, section_idx ctx)
      end
  end.

(** What the teardown and the error path do to the world outside the
    context. *)
Inductive effect :=
| config_module_parsers_free (parsers : list config_module_parser)
| hash_table_destroy
| pool_unref
| i_error (msg : string).

(** [config_export_free(&ctx)]: returns [*_ctx] after the call and the
    effects. *)
Definition config_export_free (_ctx : option config_export_context)
  : result (option config_export_context * list effect) :=
  match _ctx with
  | None => Fatal InvalidRead
  | Some ctx =>
      Ok (None,
          (match dup_module_parsers ctx with
           | Some dup => [config_module_parsers_free dup]
           | None => []
           end ++ [hash_table_destroy; pool_unref])%list)
  end.

(** The [for] loop of [config_export_all_parsers]; [rest] is
    [ctx->module_parsers[i..]].  Returns [ret], the context, [*section_idx]
    and the effects. *)
Fixpoint export_parsers_from (rest : list config_module_parser) (i : nat)
    (ctx : config_export_context) (idx : Z)
  : result (Z * config_export_context * Z * list effect) :=
  match rest with
  | [] => Ok (0, ctx, idx, [])
  | _ :: rest' =>
      '(r, error, ctx, idx) ← config_export_parser ctx i idx;
      if r <? 0 then Ok (-1, ctx, idx, [i_error (default "" error)])
      else export_parsers_from rest' (S i) ctx idx
  end.

(** The outcome of [config_export_all_parsers]: the return value, the
    caller's handle [*_ctx], [*section_idx], the calls the callback
    received, and the effects in order. *)
Record export_all_outcome := mk_outcome {
  ret : Z;
  handle : option config_export_context;
  section_idx_r : Z;
  entries : list config_entry;
  effects : list effect;
}.

Definition config_export_all_parsers (_ctx : option config_export_context)
    (idx : Z) : result export_all_outcome :=
  match _ctx with
  | None => Fatal InvalidRead
  | Some ctx =>
      match module_parsers ctx with
      | None => Fatal InvalidRead
      | Some parsers =>
          '(ret, ctx', idx, eff) ←
            export_parsers_from parsers 0%nat ctx idx;
          '(_, eff') ← config_export_free (Some ctx');
          Ok (mk_outcome ret None idx (context ctx') (eff ++ eff')%list)
      end
  end.

End export.

(** ** A concrete configuration for the examples

    One assignment of the external constants.  The section names used in
    the examples contain no character that needs escaping. *)
Definition sample_externals : Externals :=
  {| SETTINGS_SEPARATOR := "/";
     SETTING_STRVAR_UNEXPANDED := "0";
     SET_FLAG_HIDDEN := 4;
     CONFIG_DUMP_FLAG_HIDE_LIST_DEFAULTS := 2;
     CONFIG_DUMP_FLAG_DEDUPLICATE_KEYS := 8;
     settings_section_escape := fun s => s |}.

Module Sample.

(** A service-like section: name (offset 0, the name field), a bool
    (offset 8), a variable string (offset 16), a string list
    (offset 24). *)
Definition service_info : setting_parser_info :=
  mk_info
    [ mk_define SET_STR "name" 0 None 0;
      mk_define SET_BOOL "enabled" 8 None 0;
      mk_define SET_STR_VARS "path" 16 None 0;
      mk_define SET_STRLIST "env" 24 None 0 ]
    (Some {[ 0%nat := VStr (Some ""); 8%nat := VBool true;
             16%nat := VStr (Some ""); 24%nat := VStrlist None ]})
    1.

Definition service (name : string) (enabled : bool) (path : string)
    (env : option (list string)) : settings :=
  {[ 0%nat := VStr (Some name); 8%nat := VBool enabled;
     16%nat := VStr (Some path); 24%nat := VStrlist env ]}.

Definition service_changes (name enabled path env : Z) : changes :=
  {[ 0%nat := Change name None; 8%nat := Change enabled None;
     16%nat := Change path None; 24%nat := Change env None ]}.

Definition root_info : setting_parser_info :=
  mk_info
    [ mk_define SET_UINT "limit" 0 None 0;
      mk_define SET_DEFLIST_UNIQUE "service" 8 (Some service_info) 0 ]
    (Some {[ 0%nat := VUint 10; 8%nat := VArray None ]})
    0.

Definition root_set : settings :=
  {[ 0%nat := VUint 10;
     8%nat := VArray (Some [ service "a" true "0/x" (Some ["K"; "V"]);
                              service "" false "0" None ]) ]}.

Definition root_changes : changes :=
  {[ 0%nat := Change 0 None;
     8%nat := Change 1 (Some [ service_changes 1 0 1 1;
                               service_changes 0 1 0 0 ]) ]}.

(** A listener-like section: one port. *)
Definition listener_info : setting_parser_info :=
  mk_info [ mk_define SET_IN_PORT "port" 0 None 0 ]
          (Some {[ 0%nat := VPort 0 ]}) 0.

Definition listener (port : Z) : settings := {[ 0%nat := VPort port ]}.
Definition listener_changes (port : Z) : changes :=
  {[ 0%nat := Change port None ]}.

(** A root with a unique list of services followed by a plain list of
    listeners. *)
Definition lists_info : setting_parser_info :=
  mk_info
    [ mk_define SET_DEFLIST_UNIQUE "service" 0 (Some service_info) 0;
      mk_define SET_DEFLIST "listener" 8 (Some listener_info) 0 ]
    None 0.

Definition lists_set : settings :=
  {[ 0%nat := VArray (Some [ service "imap" true "0" None;
                             service "pop3" true "0" None ]);
     8%nat := VArray (Some [ listener 143; listener 993; listener 110 ]) ]}.

Definition lists_changes : changes :=
  {[ 0%nat := Change 1 (Some [ service_changes 1 0 0 0;
                               service_changes 1 0 0 0 ]);
     8%nat := Change 1 (Some [ listener_changes 1; listener_changes 1;
                               listener_changes 1 ]) ]}.

(** Two services of the same name: the first keeps the default of
    [enabled], the second changes it. *)
Definition twins_set : settings :=
  {[ 0%nat := VUint 10;
     8%nat := VArray (Some [ service "a" true "0" (Some ["K"; "V"]);
                             service "a" false "0" (Some ["K"; "W"]) ]) ]}.

Definition twins_changes : changes :=
  {[ 0%nat := Change 0 None;
     8%nat := Change 1 (Some [ service_changes 1 0 0 1;
                               service_changes 1 1 0 1 ]) ]}.

(** A root holding one string list whose array was never created. *)
Definition env_info : setting_parser_info :=
  mk_info [ mk_define SET_STRLIST "env" 0 None 0 ] None 0.
Definition env_unset : settings := {[ 0%nat := VStrlist None ]}.
Definition env_set : settings := {[ 0%nat := VStrlist (Some ["K"; "V"; "L"; "W"]) ]}.
Definition env_changes : changes := {[ 0%nat := Change 0 None ]}.

(** One service that sets its name only. *)
Definition lone_set : settings :=
  {[ 0%nat := VUint 10;
     8%nat := VArray (Some [ service "a" true "0/var/mail" None ]) ]}.

Definition lone_changes : changes :=
  {[ 0%nat := Change 0 None;
     8%nat := Change 1 (Some [ service_changes 1 0 0 0 ]) ]}.

(** Module parsers: the second carries a deferred error. *)
Definition env_parser : config_module_parser :=
  mk_module_parser env_info (mk_parser env_set env_changes) None.

Definition broken_parser : config_module_parser :=
  mk_module_parser lists_info (mk_parser lists_set lists_changes)
                   (Some "unknown setting").

End Sample.

(** ** The formatting rules as the specification words them *)

(** Byte sizes: the largest unit among B, k, M, G, T (powers 0..4 of
    1024) that divides the value exactly. *)
Definition divides_exactly (j : nat) (size : Z) : bool :=
  size mod 1024 ^ Z.of_nat j =? 0.

Definition largest_exact_unit (size : Z) : nat :=
  fold_left (fun best j => if divides_exactly j size then j else best)
            [1; 2; 3; 4]%nat 0%nat.

Definition spec_format_size (size : Z) : string :=
  if size =? 0 then "0"
  else
    let j := largest_exact_unit size in
    dec (size / 1024 ^ Z.of_nat j) +:+ " "
        +:+ String (nth j suffixes "B"%char) "".

(** Durations: walk the unit chain, advancing while the division is
    exact. *)
Definition unit_chain : list (Z * string) :=
  [(60, "mins"); (60, "hours"); (24, "days"); (7, "weeks")].

Fixpoint walk_chain (chain : list (Z * string)) (n : Z) (unit : string)
  : Z * string :=
  match chain with
  | [] => (n, unit)
  | (d, u) :: rest =>
      if n mod d =? 0 then walk_chain rest (n / d) u else (n, unit)
  end.

Definition spec_format_time (secs : Z) : string :=
  if secs =? 0 then "0"
  else
    let '(n, unit) := walk_chain unit_chain secs "secs" in
    dec n +:+ " " +:+ unit.

Definition spec_format_time_msecs (msecs : Z) : string :=
  if msecs mod 1000 =? 0 then spec_format_time (msecs / 1000)
  else dec msecs +:+ " ms".

(** The forced-default flag per dump scope. *)
Definition spec_forced_default (scope : config_dump_scope)
    (hidden changed : bool) : bool :=
  match scope with
  | CONFIG_DUMP_SCOPE_ALL_WITH_HIDDEN => true
  | CONFIG_DUMP_SCOPE_ALL_WITHOUT_HIDDEN => if hidden then changed else true
  | CONFIG_DUMP_SCOPE_SET => changed
  | CONFIG_DUMP_SCOPE_CHANGED => false
  end.

(** Enumerations: the chosen alternative is the text up to the separator
    ':' or the end of the string. *)
Fixpoint chosen_alternative (s : string) : string :=
  match s with
  | EmptyString => EmptyString
  | String c s' =>
      if Ascii.eqb c ":" then EmptyString
      else String c (chosen_alternative s')
  end.

(** ** Notions used to state the properties *)

(** The same context under another dump scope. *)
Definition with_scope (ctx : config_export_context)
    (sc : config_dump_scope) : config_export_context :=
  mk_ctx (ctx_value ctx) (prefix ctx) (keys ctx) sc (context ctx)
         (ctx_flags ctx) (module_parsers ctx) (dup_module_parsers ctx)
         (section_idx ctx) (assigned ctx).

(** The entries a run has handed to the callback. *)
Definition entries_of (r : result config_export_context)
  : list config_entry :=
  match r with
  | Ok c => context c
  | Fatal _ => []
  end.






Definition scope_rank (s : config_dump_scope) : nat :=
  match s with
  | CONFIG_DUMP_SCOPE_CHANGED => 0
  | CONFIG_DUMP_SCOPE_SET => 1
  | CONFIG_DUMP_SCOPE_ALL_WITHOUT_HIDDEN => 2
  | CONFIG_DUMP_SCOPE_ALL_WITH_HIDDEN => 3
  end.

(** CHANGED, SET, ALL_WITHOUT_HIDDEN, ALL_WITH_HIDDEN in this order. *)
Definition scope_le (s1 s2 : config_dump_scope) : Prop :=
  (scope_rank s1 ≤ scope_rank s2)%nat.

Definition is_scalar (t : setting_type) : bool :=
  match t with
  | SET_DEFLIST | SET_DEFLIST_UNIQUE | SET_STRLIST | SET_ALIAS => false
  | _ => true
  end.

(** The flat array of a string list holding the ordered pairs. *)
Fixpoint flatten_pairs (pairs : list (string * string)) : list string :=
  match pairs with
  | [] => []
  | (k, v) :: rest => k :: v :: flatten_pairs rest
  end.

Section notions.
Context `{ext : Externals}.

(** What a walker step leaves alone: the configuration of the context,
    the keys already recorded, the entries already emitted and the
    indices already assigned. *)
Record steady (c c' : config_export_context) : Prop := {
  steady_scope : scope c' = scope c;
  steady_flags : ctx_flags c' = ctx_flags c;
  steady_parsers : module_parsers c' = module_parsers c;
  steady_dup : dup_module_parsers c' = dup_module_parsers c;
  steady_keys : keys c ⊆ keys c';
  steady_keys_eq :
    flag_set (ctx_flags c) CONFIG_DUMP_FLAG_DEDUPLICATE_KEYS = false →
    keys c' = keys c;
  steady_context : ∃ new, context c' = (context c ++ new)%list;
  steady_assigned : ∃ new, assigned c' = (assigned c ++ new)%list;
}.

(** A recursive call that keeps the context steady and restores the
    prefix. *)
Definition tidy (c c' : config_export_context) : Prop :=
  steady c c' ∧ prefix c' = prefix c.

(** Two runs over the same input, the second under a scope at least as
    wide, with key deduplication off. *)
Record wider (c1 c2 : config_export_context) : Prop := {
  wider_prefix : prefix c2 = prefix c1;
  wider_keys : keys c2 = keys c1;
  wider_flags : ctx_flags c2 = ctx_flags c1;
  wider_idx : section_idx c2 = section_idx c1;
  wider_scope : scope_le (scope c1) (scope c2);
  wider_context : context c1 ⊆ context c2;
  wider_no_dedup :
    flag_set (ctx_flags c1) CONFIG_DUMP_FLAG_DEDUPLICATE_KEYS = false;
}.

(** The announcement of a string list under [prefix] and the entries of
    its pairs. *)
Definition strlist_entries (prefix : string) (def : setting_define)
    (pairs : list (string * string)) : list config_entry :=
  (prefix +:+ key def, "", CONFIG_KEY_LIST)
  :: map (λ p, (prefix +:+ key def +:+ String SETTINGS_SEPARATOR ""
                  +:+ p.1, p.2, CONFIG_KEY_NORMAL)) pairs.

(** Export the parsers in order until one carries a deferred error:
    returns the context, the counter and the error that stopped the
    sequence. *)
Fixpoint export_sequence (parsers : list config_module_parser)
    (ctx : config_export_context) (idx : Z)
  : result (config_export_context * Z * option string) :=
  match parsers with
  | [] => Ok (ctx, idx, None)
  | mp :: rest =>
      match delayed_error mp with
      | Some e => Ok (ctx, idx, Some e)
      | None =>
          ctx ← settings_export (root mp) false (parser_set (parser mp))
                  (parser_changes (parser mp)) (set_section_idx ctx idx);
          export_sequence rest ctx (section_idx ctx)
      end
  end.

(** The teardown of a context. *)
Definition teardown (ctx : config_export_context) : list effect :=
  (match dup_module_parsers ctx with
   | Some dup => [config_module_parsers_free dup]
   | None => []
   end ++ [hash_table_destroy; pool_unref])%list.

Definition spec_export_all (ctx : config_export_context) (idx : Z)
  : result export_all_outcome :=
  match module_parsers ctx with
  | None => Fatal InvalidRead
  | Some parsers =>
      '(c, j, e) ← export_sequence parsers ctx idx;
      Ok {| ret := match e with Some _ => -1 | None => 0 end;
            handle := None;
            section_idx_r := j;
            entries := context c;
            effects := (match e with Some m => [i_error m] | None => [] end
                        ++ teardown ctx)%list |}
  end.

Definition is_pool_unref (e : effect) : bool :=
  match e with pool_unref => true | _ => false end.

End notions.

(** ** Further notions and the parts of the exporter beside the walker *)

(** A decimal digit. *)
Definition is_digit (c : ascii) : bool :=
  (48 <=? nat_of_ascii c)%nat && (nat_of_ascii c <=? 57)%nat.

(** A text made of decimal digits only. *)
Fixpoint all_digits (s : string) : bool :=
  match s with
  | EmptyString => true
  | String c s' => is_digit c && all_digits s'
  end.

(** The units [config_export_time] prints, with their length in
    seconds. *)
Definition time_units : list (string * Z) :=
  [("secs", 1); ("mins", 60); ("hours", 3600); ("days", 86400);
   ("weeks", 604800)].

(** The units [config_export_time_msecs] prints, with their length in
    milliseconds. *)
Definition msecs_units : list (string * Z) :=
  ("ms", 1) :: map (λ um, (um.1, um.2 * 1000)) time_units.

(** The types whose value is a number or a truth value. *)
Definition is_number (t : setting_type) : bool :=
  match t with
  | SET_BOOL | SET_SIZE | SET_UINT | SET_UINT_OCT | SET_TIME
  | SET_TIME_MSECS | SET_IN_PORT => true
  | _ => false
  end.

(** The kind of the entry emitted for a field itself (lines 346-352). *)
Definition leaf_key_type (info : setting_parser_info)
    (parent_unique_deflist : bool) (def : setting_define)
  : config_key_type :=
  if (offset def + 1 =? type_offset1 info)%nat && parent_unique_deflist
  then CONFIG_KEY_UNIQUE_KEY
  else if SETTING_TYPE_IS_DEFLIST (type def) then CONFIG_KEY_LIST
  else CONFIG_KEY_NORMAL.

(** The default the walker reads for a definition (lines 229-230). *)
Definition read_default (info : setting_parser_info) (def : setting_define)
  : result (option setting_value) :=
  match defaults info with
  | None => Ok None
  | Some d => v ← field d (offset def); Ok (Some v)
  end.

(** A field a forced default always emits: a number, or a string that
    is not NULL. *)
Definition emits_when_forced (t : setting_type) (v : setting_value) : bool :=
  match t, v with
  | (SET_STR | SET_STR_VARS), VStr (Some _) => true
  | _, _ => is_number t
  end.

(** A field that holds its default, as the walker compares them: a
    variable string holds the tag character followed by the default, an
    enumeration holds the first characters of the default, a list or
    string list has no array, an alias is not looked at, and any other
    field equals its default. *)
Definition at_default `{ext : Externals} (t : setting_type)
    (v dv : setting_value) : Prop :=
  match t with
  | SET_STR_VARS =>
      v = VStr None
      ∨ ∃ d, v = VStr (Some (String (char_at SETTING_STRVAR_UNEXPANDED 0) d))
             ∧ dv = VStr (Some d)
  | SET_ENUM =>
      ∃ s rest, v = VStr (Some s) ∧ dv = VStr (Some (s +:+ rest))
  | SET_DEFLIST | SET_DEFLIST_UNIQUE => v = VArray None
  | SET_STRLIST => v = VStrlist None
  | SET_ALIAS => True
  | _ => v = dv
  end.

(** The key of an entry. *)
Definition entry_key (e : config_entry) : string := e.1.1.

(** An entry whose key extends the prefix [p]. *)
Definition under (p : string) (e : config_entry) : Prop :=
  ∃ rest, entry_key e = p +:+ rest.

(** A step that restores the prefix and emits entries under it only. *)
Definition emits_under (c c' : config_export_context) : Prop :=
  prefix c' = prefix c
  ∧ ∃ new, context c' = (context c ++ new)%list
           ∧ Forall (under (prefix c)) new.

(** A run that ends in [i_unreached]. *)
Definition is_unreached {A} (r : result A) : bool :=
  match r with
  | Fatal Unreached => true
  | _ => false
  end.

(** A schema that holds no string list, at any depth. *)
Fixpoint string_lists_free (info : setting_parser_info) : bool :=
  forallb (λ d, negb (bool_decide (type d = SET_STRLIST))
                && match list_info d with
                   | Some li => string_lists_free li
                   | None => true
                   end)
          (defines info).

(** Every entry emitted so far has its key recorded, and no key was
    emitted twice. *)
Definition recorded (c : config_export_context) : Prop :=
  NoDup (entry_key <$> context c)
  ∧ ∀ e, e ∈ context c → entry_key e ∈ keys c.

(** A step that keeps the dedup flag and every entry recorded. *)
Definition keeps_recorded (c c' : config_export_context) : Prop :=
  ctx_flags c' = ctx_flags c ∧ (recorded c → recorded c').



(** ** The module parsers of a context *)

(** [struct config_filter_parser] as far as the exporter reads it: its
    member [module_parsers], here [filter_module_parsers]. *)
Record config_filter_parser := mk_filter_parser {
  filter_module_parsers : list config_module_parser;
}.

(** Modelled from the spec: the parsed configuration with its global
    filter, the duplication of a parser, the lookup of a value by the
    name of its setting and the schema of the master service are declared
    in config-parser.h, settings-parser.h and master-service-settings.h
    and defined outside the sources: they are parameters of the
    development.  [is_master_service_setting_parser_info root] is the
    test [root == &master_service_setting_parser_info];
    [settings_parse_get_value] returns [None] for the NULL it returns
    when the parser has no setting of that name. *)
Class Collaborators := {
  config_parsed : Type;
  config_parsed_get_global_filter_parser :
    config_parsed → config_filter_parser;
  settings_parser_dup : setting_parser_context → setting_parser_context;
  is_master_service_setting_parser_info : setting_parser_info → bool;
  settings_parse_get_value :
    setting_parser_context → string → option setting_value;
}.

Section parser_session.
Context `{col : Collaborators}.

(** [config_filter_parsers_dup]: the array is copied up to its
    terminator, each parser replaced by its duplicate. *)
Definition config_filter_parsers_dup (global_filter : config_filter_parser)
  : list config_module_parser :=
  map (λ mp, {| root := root mp;
                parser := settings_parser_dup (parser mp);
                delayed_error := delayed_error mp |})
      (filter_module_parsers global_filter).

Definition config_export_dup_module_parsers (ctx : config_export_context)
    (config : config_parsed) : config_export_context :=
  let global_filter := config_parsed_get_global_filter_parser config in
  let dup := config_filter_parsers_dup global_filter in
  mk_ctx (ctx_value ctx) (prefix ctx) (keys ctx) (scope ctx) (context ctx)
         (ctx_flags ctx) (Some dup) (Some dup) (section_idx ctx)
         (assigned ctx).

(** [config_export_parser_get_info]: the root of the parser at
    [parser_idx]; at the end of the array it is the NULL root of the
    terminator. *)
Definition config_export_parser_get_info (ctx : config_export_context)
    (parser_idx : nat) : result (option setting_parser_info) :=
  match module_parsers ctx with
  | None => Fatal InvalidRead
  | Some parsers =>
      match parsers !! parser_idx with
      | Some module_parser => Ok (Some (root module_parser))
      | None =>
          if (parser_idx =? length parsers)%nat then Ok None
          else Fatal InvalidRead
      end
  end.

(** The [for] loop of [config_export_get_import_environment]; [rest] is
    [ctx->module_parsers[i..]]. *)
Fixpoint import_environment_from (rest : list config_module_parser)
  : result (option string) :=
  match rest with
  | [] => Fatal Unreached
  | module_parser :: rest' =>
      if is_master_service_setting_parser_info (root module_parser) then
        match settings_parse_get_value (parser module_parser)
                "import_environment" with
        | None => Fatal (AssertFailed "value != NULL")
        | Some value => as_str value
        end
      else import_environment_from rest'
  end.

Definition config_export_get_import_environment
    (ctx : config_export_context) : result (option string) :=
  match module_parsers ctx with
  | None => Fatal InvalidRead
  | Some parsers => import_environment_from parsers
  end.

(** The [for] loop of [config_export_get_base_dir]. *)
Fixpoint base_dir_from (rest : list config_module_parser)
  : result (option string) :=
  match rest with
  | [] => Fatal Unreached
  | module_parser :: rest' =>
      if is_master_service_setting_parser_info (root module_parser) then
        match settings_parse_get_value (parser module_parser)
                "base_dir" with
        | None => Fatal (AssertFailed "value != NULL")
        | Some value => as_str value
        end
      else base_dir_from rest'
  end.

Definition config_export_get_base_dir (ctx : config_export_context)
  : result (option string) :=
  match module_parsers ctx with
  | None => Fatal InvalidRead
  | Some parsers => base_dir_from parsers
  end.

End parser_session.

(** The release of duplicated module parsers. *)
Definition is_parsers_free (e : effect) : bool :=
  match e with
  | config_module_parsers_free _ => true
  | _ => false
  end.

(** What the lookup of the setting [name] in [module_parser] gives the
    two getters. *)
Definition master_service_setting `{col : Collaborators}
    (module_parser : config_module_parser) (name : string)
  : result (option string) :=
  match settings_parse_get_value (parser module_parser) name with
  | None => Fatal (AssertFailed "value != NULL")
  | Some value => as_str value
  end.

(** ** Well-formed input

    What the walker expects of the structs it is handed. *)

(** A field holds a value of the C type the formatter reads for its
    setting type; a variable string that is not NULL starts with the tag
    character, and an enumeration is not NULL. *)
Definition value_fits `{ext : Externals} (t : setting_type)
    (v : setting_value) : Prop :=
  match t with
  | SET_BOOL => ∃ b, v = VBool b
  | SET_SIZE => ∃ n, v = VSize n
  | SET_UINT | SET_UINT_OCT | SET_TIME | SET_TIME_MSECS => ∃ n, v = VUint n
  | SET_IN_PORT => ∃ n, v = VPort n
  | SET_STR => ∃ s, v = VStr s
  | SET_STR_VARS =>
      v = VStr None
      ∨ ∃ s, v = VStr (Some (String (char_at SETTING_STRVAR_UNEXPANDED 0) s))
  | SET_ENUM => ∃ s, v = VStr (Some s)
  | SET_DEFLIST | SET_DEFLIST_UNIQUE => ∃ a, v = VArray a
  | SET_STRLIST =>
      v = VStrlist None
      ∨ ∃ l, v = VStrlist (Some l) ∧ Z.of_nat (length l) mod 2 = 0
  | SET_ALIAS => True
  end.

(** The default of a field holds a value of the C type of the field; the
    default of an enumeration is not NULL. *)
Definition default_fits (t : setting_type) (dv : setting_value) : Prop :=
  match t with
  | SET_BOOL => ∃ b, dv = VBool b
  | SET_SIZE => ∃ n, dv = VSize n
  | SET_UINT | SET_UINT_OCT | SET_TIME | SET_TIME_MSECS => ∃ n, dv = VUint n
  | SET_IN_PORT => ∃ n, dv = VPort n
  | SET_STR | SET_STR_VARS => ∃ s, dv = VStr s
  | SET_ENUM => ∃ d, dv = VStr (Some d)
  | _ => True
  end.

(** One definition of a schema against the structs: the value, the
    default and the change field are there and fit; a list with an array
    has a change array of the same length and a schema for its sections; a
    section of a unique list has its name field; and the sections are
    well-formed, [recurse] being well-formedness for the schema of the
    sections. *)
Definition well_formed_define `{ext : Externals}
    (recurse : setting_parser_info → settings → changes → Prop)
    (info : setting_parser_info) (set : settings) (change_set : changes)
    (def : setting_define) : Prop :=
  ∃ v c,
    set !! offset def = Some v ∧ change_set !! offset def = Some c
    ∧ value_fits (type def) v
    ∧ match defaults info with
      | None => type def ≠ SET_ENUM
      | Some d => ∃ dv, d !! offset def = Some dv ∧ default_fits (type def) dv
      end
    ∧ (SETTING_TYPE_IS_DEFLIST (type def) = true →
       ∀ children, v = VArray (Some children) →
         ∃ change_children,
           change_array c = Some change_children
           ∧ length children = length change_children
           ∧ match list_info def with
             | None => children = []
             | Some li =>
                 (type def = SET_DEFLIST_UNIQUE →
                  type_offset1 li ≠ 0%nat
                  ∧ Forall (λ child, ∃ name,
                              child !! (type_offset1 li - 1)%nat
                              = Some (VStr name)) children)
                 ∧ Forall2 (recurse li) children change_children
             end).

Fixpoint well_formed_defines `{ext : Externals}
    (recurse : setting_parser_info → settings → changes → Prop)
    (info : setting_parser_info) (set : settings) (change_set : changes)
    (defs : list setting_define) : Prop :=
  match defs with
  | [] => True
  | def :: defs' =>
      well_formed_define recurse info set change_set def
      ∧ well_formed_defines recurse info set change_set defs'
  end.

(** A settings struct and its change struct are well-formed for a
    schema. *)
Fixpoint well_formed `{ext : Externals} (info : setting_parser_info)
    (set : settings) (change_set : changes) {struct info} : Prop :=
  well_formed_defines well_formed info set change_set (defines info).

(** A module parser is ready for export: it carries a deferred error, or
    its structs are well-formed for its root. *)
Definition exportable `{ext : Externals} (mp : config_module_parser)
  : Prop :=
  delayed_error mp = None →
  well_formed (root mp) (parser_set (parser mp))
              (parser_changes (parser mp)).

(** A schema in which no definition is hidden, at any depth. *)
Fixpoint nothing_hidden `{ext : Externals} (info : setting_parser_info)
  : bool :=
  forallb (λ d, (Z.land (flags d) SET_FLAG_HIDDEN =? 0)
                && match list_info d with
                   | Some li => nothing_hidden li
                   | None => true
                   end)
          (defines info).

(** The outcome of a run, seen under the scope [sc]. *)
Definition under_scope (sc : config_dump_scope)
    (r : result config_export_context) : result config_export_context :=
  c ← r; Ok (with_scope c sc).

(** ** Further configurations for the examples *)

Module Cases.

(** The root of [Sample.root_info] with its limit raised and no
    service. *)
Definition limit_def : setting_define := mk_define SET_UINT "limit" 0 None 0.

Definition limit_set (limit : Z) : settings :=
  {[ 0%nat := VUint limit; 8%nat := VArray None ]}.

Definition limit_changes (limit : Z) : changes :=
  {[ 0%nat := Change limit None; 8%nat := Change 0 None ]}.

(** The definitions of [Sample.service_info]. *)
Definition enabled_def : setting_define :=
  mk_define SET_BOOL "enabled" 8 None 0.

(** A schema with one string, and a struct in which it is NULL. *)
Definition note_def : setting_define := mk_define SET_STR "note" 0 None 0.
Definition note_info : setting_parser_info :=
  mk_info [ note_def ] (Some {[ 0%nat := VStr (Some "x") ]}) 0.
Definition note_unset : settings := {[ 0%nat := VStr None ]}.
Definition note_changes : changes := {[ 0%nat := Change 1 None ]}.

(** A schema with one field of every kind, and the struct the settings
    parser starts from: every field at its default. *)
Definition flat_info : setting_parser_info :=
  mk_info
    [ mk_define SET_BOOL "verbose" 0 None 0;
      mk_define SET_UINT "limit" 8 None 0;
      mk_define SET_SIZE "cache" 16 None 0;
      mk_define SET_TIME "idle" 24 None 0;
      mk_define SET_STR "name" 32 None 0;
      mk_define SET_STR_VARS "path" 40 None 0;
      mk_define SET_ENUM "mode" 48 None 0;
      mk_define SET_STRLIST "env" 56 None 0;
      mk_define SET_DEFLIST "listener" 64 (Some Sample.listener_info) 0;
      mk_define SET_ALIAS "max" 8 None 0 ]
    (Some {[ 0%nat := VBool false; 8%nat := VUint 10; 16%nat := VSize 1024;
             24%nat := VUint 60; 32%nat := VStr (Some "imap");
             40%nat := VStr (Some "/var/%u"); 48%nat := VStr (Some "fast:slow");
             56%nat := VStrlist None; 64%nat := VArray None ]})
    0.

Definition flat_set : settings :=
  {[ 0%nat := VBool false; 8%nat := VUint 10; 16%nat := VSize 1024;
     24%nat := VUint 60; 32%nat := VStr (Some "imap");
     40%nat := VStr (Some "0/var/%u"); 48%nat := VStr (Some "fast");
     56%nat := VStrlist None; 64%nat := VArray None ]}.

Definition flat_changes : changes :=
  {[ 0%nat := Change 0 None; 8%nat := Change 0 None;
     16%nat := Change 0 None; 24%nat := Change 0 None;
     32%nat := Change 0 None; 40%nat := Change 0 None;
     48%nat := Change 0 None; 56%nat := Change 0 None;
     64%nat := Change 0 None ]}.

(** A schema with one enumeration and no defaults. *)
Definition mode_def : setting_define := mk_define SET_ENUM "mode" 0 None 0.
Definition mode_info : setting_parser_info := mk_info [ mode_def ] None 0.
Definition mode_set : settings := {[ 0%nat := VStr (Some "fast") ]}.
Definition mode_changes : changes := {[ 0%nat := Change 0 None ]}.

(** A root with two listeners on the same port. *)
Definition listener_def : setting_define :=
  mk_define SET_DEFLIST "listener" 0 (Some Sample.listener_info) 0.
Definition listeners_info : setting_parser_info :=
  mk_info [ listener_def ] None 0.
Definition listeners_set : settings :=
  {[ 0%nat := VArray (Some [ Sample.listener 143; Sample.listener 143 ]) ]}.
Definition listeners_changes : changes :=
  {[ 0%nat := Change 1 (Some [ Sample.listener_changes 1;
                               Sample.listener_changes 1 ]) ]}.

(** A unique list of peers, two of which bear the same name. *)
Definition peer_info : setting_parser_info :=
  mk_info [ mk_define SET_STR "name" 0 None 0;
            mk_define SET_IN_PORT "port" 8 None 0 ]
          (Some {[ 0%nat := VStr (Some ""); 8%nat := VPort 0 ]}) 1.
Definition peer (name : string) (port : Z) : settings :=
  {[ 0%nat := VStr (Some name); 8%nat := VPort port ]}.
Definition peer_changes : changes :=
  {[ 0%nat := Change 1 None; 8%nat := Change 1 None ]}.
Definition peers_info : setting_parser_info :=
  mk_info [ mk_define SET_DEFLIST_UNIQUE "peer" 0 (Some peer_info) 0 ]
          None 0.
Definition peers_set : settings :=
  {[ 0%nat := VArray (Some [ peer "a" 1; peer "a" 2 ]) ]}.
Definition peers_changes : changes :=
  {[ 0%nat := Change 1 (Some [ peer_changes; peer_changes ]) ]}.

(** The same root with an array that holds no listener. *)
Definition no_listeners_set : settings := {[ 0%nat := VArray (Some []) ]}.
Definition no_listeners_changes : changes :=
  {[ 0%nat := Change 0 (Some []) ]}.

(** A string list with a key that lacks its value. *)
Definition env_def : setting_define := mk_define SET_STRLIST "env" 0 None 0.
Definition env_odd : settings := {[ 0%nat := VStrlist (Some ["K"]) ]}.

(** The schema of the master service, as far as the two getters read
    it, and a parser for it. *)
Definition master_info : setting_parser_info :=
  mk_info [ mk_define SET_STR "base_dir" 0 None 0;
            mk_define SET_STR "import_environment" 8 None 0 ] None 0.

Definition master_parser : config_module_parser :=
  mk_module_parser master_info
    (mk_parser {[ 0%nat := VStr (Some "/run/dovecot");
                  8%nat := VStr (Some "TZ") ]}
               {[ 0%nat := Change 0 None; 8%nat := Change 0 None ]})
    None.

(** The same with another base directory. *)
Definition other_master_parser : config_module_parser :=
  mk_module_parser master_info
    (mk_parser {[ 0%nat := VStr (Some "/tmp");
                  8%nat := VStr None ]}
               {[ 0%nat := Change 1 None; 8%nat := Change 0 None ]})
    None.

End Cases.

(** One assignment of the collaborators: a parsed configuration is the
    list of the module parsers of its global filter, a duplicate equals
    its original, the schema of the master service is the one whose first
    setting is [base_dir], and its two settings are found at their
    offsets. *)
Definition sample_collaborators : Collaborators :=
  {| config_parsed := list config_module_parser;
     config_parsed_get_global_filter_parser := mk_filter_parser;
     settings_parser_dup := λ p, p;
     is_master_service_setting_parser_info := λ info,
       match defines info with
       | d :: _ => String.eqb (key d) "base_dir"
       | [] => false
       end;
     settings_parse_get_value := λ p name,
       if String.eqb name "base_dir" then parser_set p !! 0%nat
       else if String.eqb name "import_environment" then parser_set p !! 8%nat
       else None |}.

(** * Properties *)

Local Ltac Zify.zify_post_hook ::= Z.to_euclidean_division_equations.

Lemma string_app_cons (x : ascii) (a b : string) :
  String x a +:+ b = String x (a +:+ b).
Proof. reflexivity. Qed.

Lemma string_app_nil_l (a : string) : "" +:+ a = a.
Proof. reflexivity. Qed.

Lemma string_app_assoc (a b c : string) : (a +:+ b) +:+ c = a +:+ b +:+ c.
Proof.
  induction a as [|x a IH]; [reflexivity|].
  rewrite !string_app_cons. f_equal. exact IH.
Qed.

Lemma string_app_nil_r (a : string) : a +:+ "" = a.
Proof.
  induction a as [|x a IH]; [reflexivity|].
  rewrite string_app_cons. f_equal. exact IH.
Qed.

(** ** Sizes and durations *)

Lemma largest_exact_unit_divides (size : Z) :
  divides_exactly (largest_exact_unit size) size = true.
Proof.
  unfold largest_exact_unit. cbn [fold_left].
  destruct (divides_exactly 4 size) eqn:H4; [exact H4|].
  destruct (divides_exactly 3 size) eqn:H3; [exact H3|].
  destruct (divides_exactly 2 size) eqn:H2; [exact H2|].
  destruct (divides_exactly 1 size) eqn:H1; [exact H1|].
  unfold divides_exactly. change (1024 ^ Z.of_nat 0) with 1.
  rewrite Z.mod_1_r. reflexivity.
Qed.

Lemma largest_exact_unit_max (size : Z) (j : nat) :
  (j < 5)%nat → divides_exactly j size = true →
  (j ≤ largest_exact_unit size)%nat.
Proof.
  intros Hj Hd. unfold largest_exact_unit; cbn [fold_left].
  destruct (divides_exactly 4 size) eqn:H4; [lia|].
  destruct (divides_exactly 3 size) eqn:H3;
    [destruct (decide (j = 4%nat)) as [->|]; [congruence|lia]|].
  destruct (divides_exactly 2 size) eqn:H2;
    [do 5 (destruct j as [|j]; [try lia; congruence|]); lia|].
  destruct (divides_exactly 1 size) eqn:H1;
    do 5 (destruct j as [|j]; [try lia; congruence|]); lia.
Qed.

Lemma size_loop_spec (size : Z) :
  size_loop (tail suffixes) "B"%char size =
  (size / 1024 ^ Z.of_nat (largest_exact_unit size),
   nth (largest_exact_unit size) suffixes "B"%char).
Proof.
  unfold largest_exact_unit, divides_exactly.
  cbn [fold_left suffixes tail size_loop].
  change (1024 ^ Z.of_nat 1) with 1024.
  change (1024 ^ Z.of_nat 2) with 1048576.
  change (1024 ^ Z.of_nat 3) with 1073741824.
  change (1024 ^ Z.of_nat 4) with 1099511627776.
  destruct (Z.eqb_spec (size mod 1024) 0) as [H1|H1].
  2:{ destruct (Z.eqb_spec (size mod 1099511627776) 0); [exfalso; lia|].
      destruct (Z.eqb_spec (size mod 1073741824) 0); [exfalso; lia|].
      destruct (Z.eqb_spec (size mod 1048576) 0); [exfalso; lia|].
      cbn [nth]. change (1024 ^ Z.of_nat 0) with 1. f_equal. lia. }
  destruct (Z.eqb_spec (size / 1024 mod 1024) 0) as [H2|H2].
  2:{ destruct (Z.eqb_spec (size mod 1099511627776) 0); [exfalso; lia|].
      destruct (Z.eqb_spec (size mod 1073741824) 0); [exfalso; lia|].
      destruct (Z.eqb_spec (size mod 1048576) 0); [exfalso; lia|].
      reflexivity. }
  destruct (Z.eqb_spec (size / 1024 / 1024 mod 1024) 0) as [H3|H3].
  2:{ destruct (Z.eqb_spec (size mod 1099511627776) 0); [exfalso; lia|].
      destruct (Z.eqb_spec (size mod 1073741824) 0); [exfalso; lia|].
      destruct (Z.eqb_spec (size mod 1048576) 0); [|exfalso; lia].
      cbn [nth]. change (1024 ^ Z.of_nat 2) with 1048576. f_equal. lia. }
  destruct (Z.eqb_spec (size / 1024 / 1024 / 1024 mod 1024) 0) as [H4|H4].
  2:{ destruct (Z.eqb_spec (size mod 1099511627776) 0); [exfalso; lia|].
      destruct (Z.eqb_spec (size mod 1073741824) 0); [|exfalso; lia].
      cbn [nth]. change (1024 ^ Z.of_nat 3) with 1073741824. f_equal. lia. }
  destruct (Z.eqb_spec (size mod 1099511627776) 0); [|exfalso; lia].
  cbn [nth]. change (1024 ^ Z.of_nat 4) with 1099511627776. f_equal. lia.
Qed.

(** C7: a zero size is rendered "0"; any other size is divided by 1024
    while the division is exact, which selects the largest unit among
    B, k, M, G, T dividing it exactly, and is rendered "<int> <unit>";
    1024 gives "1 k", 1536 gives "1536 B", 1073741824 gives "1 G". *)
Theorem config_export_size_largest_unit (str : string) (size : Z) :
  config_export_size str size = str +:+ spec_format_size size
  ∧ divides_exactly (largest_exact_unit size) size = true
  ∧ (∀ j, (j < 5)%nat → divides_exactly j size = true →
          (j ≤ largest_exact_unit size)%nat)
  ∧ config_export_size "" 0 = "0"
  ∧ config_export_size "" 1024 = "1 k"
  ∧ config_export_size "" 1536 = "1536 B"
  ∧ config_export_size "" 1073741824 = "1 G".
Proof.
  split; [|split; [apply largest_exact_unit_divides|
           split; [apply largest_exact_unit_max|repeat split; reflexivity]]].
  unfold config_export_size, spec_format_size, str_append_c.
  destruct (Z.eqb_spec size 0) as [->|Hnz]; [reflexivity|].
  rewrite size_loop_spec. reflexivity.
Qed.

Lemma config_export_time_spec (str : string) (stamp : Z) :
  config_export_time str stamp = str +:+ spec_format_time stamp.
Proof.
  unfold config_export_time, spec_format_time, str_append_c.
  destruct (stamp =? 0); [reflexivity|].
  cbn [unit_chain walk_chain].
  destruct (stamp mod 60 =? 0); [|reflexivity].
  destruct (stamp / 60 mod 60 =? 0); [|reflexivity].
  destruct (stamp / 60 / 60 mod 24 =? 0); [|reflexivity].
  destruct (stamp / 60 / 60 / 24 mod 7 =? 0); reflexivity.
Qed.

(** C8: a zero duration is rendered "0"; any other walks the chain
    seconds, minutes (/60), hours (/60), days (/24), weeks (/7) while the
    division is exact and is rendered "<int> <unit>"; milliseconds that are
    a multiple of 1000 are rendered as their seconds, others as "<int> ms";
    90 gives "90 secs", 120 "2 mins", 604800 "1 weeks", 90000 ms "90 secs",
    1500 ms "1500 ms". *)
Theorem config_export_time_unit_chain (str : string) (stamp : Z) :
  config_export_time str stamp = str +:+ spec_format_time stamp
  ∧ config_export_time_msecs str stamp
    = str +:+ spec_format_time_msecs stamp
  ∧ config_export_time "" 0 = "0"
  ∧ config_export_time "" 90 = "90 secs"
  ∧ config_export_time "" 120 = "2 mins"
  ∧ config_export_time "" 604800 = "1 weeks"
  ∧ config_export_time_msecs "" 90000 = "90 secs"
  ∧ config_export_time_msecs "" 1500 = "1500 ms".
Proof.
  split; [apply config_export_time_spec|].
  split; [|repeat split; reflexivity].
  unfold config_export_time_msecs, spec_format_time_msecs.
  destruct (stamp mod 1000 =? 0); [apply config_export_time_spec|reflexivity].
Qed.

(** ** The formatter *)

Section formatter_facts.
Context `{ext : Externals}.

Lemma char_at_length (s : string) : char_at s (String.length s) = zero.
Proof.
  unfold char_at. induction s as [|c s IH]; [reflexivity|]. exact IH.
Qed.

(** Without the forced-default flag an enumeration is emitted exactly
    when the current value is not a prefix of the default: the test on
    [( *val)[len]] reads the terminating NUL of the value itself. *)
Lemma enum_emitted_iff_not_prefix (str s d : string) (dump : bool) :
  config_export_type str (VStr (Some s)) (Some (VStr (Some d)))
                     SET_ENUM false dump
  = Ok (true,
        if strncmp_eq s d (String.length s) then str else str +:+ s,
        dump).
Proof.
  cbn. rewrite char_at_length.
  destruct (strncmp_eq s d (String.length s)); reflexivity.
Qed.

Lemma differs_from_self {A} (rd : setting_value → result A)
    (eqb : A → A → bool) (v : setting_value) (val : A) :
  rd v = Ok val → (∀ x, eqb x x = true) →
  dump_or_differs rd eqb false (Some v) val = Ok false.
Proof.
  intros Hrd Hrefl. unfold dump_or_differs. rewrite Hrd. cbn.
  by rewrite Hrefl.
Qed.

Lemma strncmp_eq_refl (s : string) (n : nat) : strncmp_eq s s n = true.
Proof.
  revert n. induction s as [|c s IH]; intros [|n]; cbn; try reflexivity.
  rewrite Ascii.eqb_refl. apply IH.
Qed.

(** Compared with itself, a value of any scalar type other than a
    variable-expandable string is not emitted. *)
Lemma self_default_not_emitted (str : string) (v : setting_value)
    (t : setting_type) (dump : bool) (r : bool * string * bool) :
  t ≠ SET_STR_VARS →
  config_export_type str v (Some v) t false dump = Ok r →
  r = (true, str, dump) ∨ r = (false, str, dump).
Proof.
  intros Ht Hr.
  destruct t; try congruence; destruct v as [b|n|n|n|[s|]|a|a];
    cbn in Hr; try discriminate;
    rewrite ?Bool.eqb_reflx, ?Z.eqb_refl in Hr; cbn in Hr;
    try (injection Hr as <-; auto; fail).
  - unfold null_strcmp_ne in Hr. rewrite bool_decide_eq_true_2 in Hr by done.
    cbn in Hr. injection Hr as <-; auto.
  - rewrite strncmp_eq_refl, char_at_length in Hr. cbn in Hr.
    injection Hr as <-; auto.
Qed.

(** The three cases of lines 251-264: outside a unique list, or without
    HIDE_LIST_DEFAULTS, nothing changes; inside, an unchanged field other
    than the name field is compared with itself, and any other field is
    forced. *)
Lemma hide_list_defaults_cases ctx info pu def v dv cv dd :
  hide_list_defaults ctx info pu def v dv cv dd
  = if negb pu
       || negb (flag_set (ctx_flags ctx) CONFIG_DUMP_FLAG_HIDE_LIST_DEFAULTS)
    then (dv, dd)
    else if (change_byte cv =? 0)
            && negb (offset def + 1 =? type_offset1 info)%nat
         then (Some v, dd)
         else (dv, true).
Proof.
  unfold hide_list_defaults, flag_set. by rewrite Bool.negb_involutive.
Qed.

(** C1: the forced-default flag of a definition is: true under
    ALL_WITH_HIDDEN; under ALL_WITHOUT_HIDDEN true when the hidden flag is
    clear and otherwise whether the change byte is non-zero; under SET
    whether the change byte is non-zero; false under CHANGED. *)
Theorem scope_dump_default_spec (sc : config_dump_scope)
    (def : setting_define) (c : change_value) :
  scope_dump_default sc def c
  = spec_forced_default sc (flag_set (flags def) SET_FLAG_HIDDEN)
                        (negb (change_byte c =? 0))
  ∧ scope_dump_default CONFIG_DUMP_SCOPE_ALL_WITH_HIDDEN def c = true
  ∧ scope_dump_default CONFIG_DUMP_SCOPE_ALL_WITHOUT_HIDDEN def c
    = (if Z.land (flags def) SET_FLAG_HIDDEN =? 0 then true
       else negb (change_byte c =? 0))
  ∧ scope_dump_default CONFIG_DUMP_SCOPE_SET def c
    = negb (change_byte c =? 0)
  ∧ scope_dump_default CONFIG_DUMP_SCOPE_CHANGED def c = false.
Proof.
  repeat split. destruct sc; cbn; try reflexivity.
  unfold flag_set. destruct (Z.land (flags def) SET_FLAG_HIDDEN =? 0);
    reflexivity.
Qed.

End formatter_facts.

Section formatter_examples.
Local Existing Instance sample_externals.

(** C4 (the code departs from it): with default "foobar:baz" and current
    value "foo" the chosen alternatives "foo" and "foobar" differ, yet
    nothing is emitted without the forced-default flag; the value
    "foo" against the default "foo:bar" is not emitted either. *)
Theorem enum_prefix_of_default_not_emitted :
  chosen_alternative "foo" ≠ chosen_alternative "foobar:baz"
  ∧ config_export_type "" (VStr (Some "foo"))
      (Some (VStr (Some "foobar:baz"))) SET_ENUM false false
    = Ok (true, "", false)
  ∧ config_export_type "" (VStr (Some "foo"))
      (Some (VStr (Some "foo:bar"))) SET_ENUM false false
    = Ok (true, "", false).
Proof. split; [discriminate|split; reflexivity]. Qed.

End formatter_examples.

(** ** Induction over the schema *)

Lemma setting_parser_info_Forall_ind (P : setting_parser_info → Prop) :
  (∀ info, Forall P (omap list_info (defines info)) → P info) →
  ∀ info, P info.
Proof.
  intros step. fix F 1. intros [defs dflt to1]. apply step. cbn.
  induction defs as [|d defs IHdefs]; [constructor|].
  destruct d as [t k o [li|] f]; cbn; [|exact IHdefs].
  constructor; [apply F|exact IHdefs].
Qed.

Lemma setting_parser_info_ind' (P : setting_parser_info → Prop) :
  (∀ info,
     (∀ def li, def ∈ defines info → list_info def = Some li → P li) →
     P info) →
  ∀ info, P info.
Proof.
  intros step. apply setting_parser_info_Forall_ind. intros info HF.
  apply step. intros def li Hin Hli.
  rewrite Forall_forall in HF. apply HF.
  apply list_elem_of_omap. eauto.
Qed.

(** ** Reasoning principles for the walker *)

Lemma bind_Ok {A B} (r : result A) (k : A → result B) (b : B) :
  r ≫= k = Ok b → ∃ a, r = Ok a ∧ k a = Ok b.
Proof. destruct r as [a|f]; cbn; [eauto|discriminate]. Qed.

Ltac inv_bind H :=
  let a := fresh "a" in
  let Ha := fresh "Ha" in
  apply bind_Ok in H as (a & Ha & H).

Lemma i_assert_Ok (what : string) (b : bool) (u : unit) :
  i_assert what b = Ok u → b = true.
Proof. destruct b; [reflexivity|discriminate]. Qed.

Lemma substring_0_0 (s : string) : substring 0 0 s = "".
Proof. destruct s; reflexivity. Qed.

Lemma str_truncate_app (p q : string) :
  str_truncate (p +:+ q) (String.length p) = p.
Proof.
  unfold str_truncate. induction p as [|c p IH]; cbn.
  - apply substring_0_0.
  - rewrite string_app_cons. cbn. f_equal. exact IH.
Qed.

Section frame.
Context `{ext : Externals}.

Lemma settings_export_unfold info pu set cs ctx :
  settings_export info pu set cs ctx
  = export_defines settings_export info pu set cs (defines info) ctx.
Proof. destruct info; reflexivity. Qed.

Ltac steady_fields :=
  split; cbn; try reflexivity; try done;
  try (exists []; by rewrite app_nil_r); try (by eexists).

Lemma steady_refl c : steady c c.
Proof. steady_fields. Qed.

Lemma steady_trans c1 c2 c3 : steady c1 c2 → steady c2 c3 → steady c1 c3.
Proof.
  intros [Hs1 Hf1 Hp1 Hd1 Hk1 He1 [n1 Hc1] [m1 Ha1]]
         [Hs2 Hf2 Hp2 Hd2 Hk2 He2 [n2 Hc2] [m2 Ha2]].
  split; try congruence.
  - clear -Hk1 Hk2. set_solver.
  - intros Hf. rewrite He2, He1; congruence.
  - exists (n1 ++ n2)%list. by rewrite Hc2, Hc1, app_assoc.
  - exists (m1 ++ m2)%list. by rewrite Ha2, Ha1, app_assoc.
Qed.

Lemma steady_set_value c v : steady c (set_value c v).
Proof. steady_fields. Qed.
Lemma steady_set_prefix c p : steady c (set_prefix c p).
Proof. steady_fields. Qed.
Lemma steady_set_section_idx c i : steady c (set_section_idx c i).
Proof. steady_fields. Qed.
Lemma steady_callback c k v t : steady c (callback c k v t).
Proof. steady_fields. Qed.
Lemma steady_note_assigned c i : steady c (note_assigned c i).
Proof. steady_fields. Qed.

Lemma steady_record_key c k :
  steady c (if flag_set (ctx_flags c) CONFIG_DUMP_FLAG_DEDUPLICATE_KEYS
            then set_keys c (hash_table_insert (keys c) k) else c).
Proof.
  destruct (flag_set _ _) eqn:Hf; [|apply steady_refl].
  steady_fields; [unfold hash_table_insert; set_solver|congruence].
Qed.

(** Induction on a flat list of pairs. *)
Lemma pairs_ind {A} (P : list A → Prop) :
  P [] → (∀ x, P [x]) → (∀ x y l, P l → P (x :: y :: l)) → ∀ l, P l.
Proof.
  intros H0 H1 H2 l. cut (P l ∧ ∀ x, P (x :: l)); [tauto|].
  induction l as [|y l [IH1 IH2]]; split; auto.
Qed.

Lemma steady_strlist_pairs c def strings :
  steady c (strlist_pairs c def strings)
  ∧ prefix (strlist_pairs c def strings) = prefix c
  ∧ (section_idx (strlist_pairs c def strings) = section_idx c
     ∧ assigned (strlist_pairs c def strings) = assigned c).
Proof.
  revert c. induction strings as [|x|k v rest IH] using pairs_ind;
    intros c; cbn; try (split; [apply steady_refl|done]).
  destruct (IH (callback c
    (prefix c +:+ key def +:+ String SETTINGS_SEPARATOR "" +:+ k) v
    CONFIG_KEY_NORMAL)) as (Hs & Hp & Hi).
  split; [|split; [exact Hp|exact Hi]].
  eapply steady_trans; [apply steady_callback|exact Hs].
Qed.

Lemma export_value_steady ctx def v dv cv dd ctx' dump children cc :
  export_value ctx def v dv cv dd = Ok (ctx', dump, children, cc) →
  steady ctx ctx' ∧ prefix ctx' = prefix ctx
  ∧ (section_idx ctx' = section_idx ctx ∧ assigned ctx' = assigned ctx)
  ∧ length children = length cc.
Proof.
  unfold export_value. intros Hv.
  destruct (type def);
    try (inv_bind Hv; destruct a as [[ret str] dump'];
         destruct ret; [|discriminate]; injection Hv as <- <- <- <-;
         split; [steady_fields|done]).
  - (* SET_DEFLIST *)
    inv_bind Hv. destruct a as [children'|].
    2:{ injection Hv as <- <- <- <-. split; [steady_fields|done]. }
    inv_bind Hv. destruct (change_array cv) as [cc'|]; [|discriminate].
    inv_bind Hv. apply i_assert_Ok in Ha1. apply Nat.eqb_eq in Ha1.
    injection Hv as <- <- <- <-. split; [steady_fields|done].
  - (* SET_DEFLIST_UNIQUE *)
    inv_bind Hv. destruct a as [children'|].
    2:{ injection Hv as <- <- <- <-. split; [steady_fields|done]. }
    inv_bind Hv. destruct (change_array cv) as [cc'|]; [|discriminate].
    inv_bind Hv. apply i_assert_Ok in Ha1. apply Nat.eqb_eq in Ha1.
    injection Hv as <- <- <- <-. split; [steady_fields|done].
  - (* SET_STRLIST *)
    inv_bind Hv. destruct a as [strings|].
    2:{ injection Hv as <- <- <- <-. split; [steady_fields|done]. }
    destruct (hash_table_lookup _ _).
    { injection Hv as <- <- <- <-. split; [steady_fields|done]. }
    inv_bind Hv. injection Hv as <- <- <- <-.
    match goal with |- context [strlist_pairs ?c def strings] =>
      destruct (steady_strlist_pairs c def strings)
        as (Hs & Hp & Hi & Hg);
      set (c0 := c) in *
    end.
    split; [|split; [rewrite Hp|split; [rewrite Hi, Hg|done]]].
    + eapply steady_trans; [|exact Hs]. subst c0.
      eapply steady_trans; [|apply steady_callback].
      eapply steady_trans; [apply (steady_set_value ctx)|].
      apply (steady_record_key (set_value ctx _)).
    + subst c0. cbn. by destruct (flag_set _ _).
    + subst c0. cbn. by destruct (flag_set _ _).
  - (* SET_ALIAS *)
    injection Hv as <- <- <- <-. split; [steady_fields|done].
Qed.

Lemma export_leaf_steady ctx info pu def dump :
  steady ctx (export_leaf ctx info pu def dump)
  ∧ prefix (export_leaf ctx info pu def dump) = prefix ctx
  ∧ (section_idx (export_leaf ctx info pu def dump) = section_idx ctx
     ∧ assigned (export_leaf ctx info pu def dump) = assigned ctx).
Proof.
  unfold export_leaf.
  destruct (_ || dump); [|split; [apply steady_refl|done]].
  destruct (negb _); [|split; [apply steady_refl|done]].
  match goal with |- context [callback ?c ?k ?v ?t] =>
    pose proof (steady_callback c k v t) as Hc;
    pose proof (steady_record_key (callback c k v t) k) as Hk
  end.
  split; [eapply steady_trans; [exact Hc|exact Hk]|].
  cbn. by destruct (flag_set _ _).
Qed.

Lemma setting_export_section_name_app str def set idx str' :
  setting_export_section_name str def set idx = Ok str' →
  ∃ name, str' = str +:+ name.
Proof.
  unfold setting_export_section_name. intros Hn.
  destruct (negb _); [injection Hn as <-; eauto|].
  destruct (list_info def) as [li|]; [|discriminate].
  inv_bind Hn. inv_bind Hn. inv_bind Hn.
  destruct a1 as [[|c n]|]; injection Hn as <-; eauto.
Qed.

Lemma export_children_tidy
    (recurse : settings → changes → config_export_context
               → result config_export_context)
    def prefix_len start children :
  (∀ s ch c c', recurse s ch c = Ok c' → tidy c c') →
  ∀ cc i ctx ctx',
    prefix_len = String.length (prefix ctx) →
    export_children recurse def prefix_len start i children cc ctx
    = Ok ctx' →
    tidy ctx ctx'.
Proof.
  intros Hrec. induction children as [|child children IH];
    intros cc i ctx ctx' Hlen Hc; cbn in Hc.
  - injection Hc as <-. split; [apply steady_refl|done].
  - destruct cc as [|change cc]; [discriminate|].
    inv_bind Hc. inv_bind Hc.
    apply setting_export_section_name_app in Ha as [name ->].
    apply Hrec in Ha0 as [Hs Hp]. cbn in Hp.
    unfold str_append_c in Hp. rewrite !string_app_assoc in Hp.
    apply IH in Hc as [Hs' Hp'];
      [|cbn; by rewrite Hlen, Hp, str_truncate_app].
    cbn in Hp'. rewrite Hlen, Hp, str_truncate_app in Hp'.
    split; [|exact Hp'].
    eapply steady_trans; [|eapply steady_trans; [|exact Hs']].
    + eapply steady_trans; [apply steady_note_assigned|].
      eapply steady_trans; [apply steady_set_prefix|exact Hs].
    + apply steady_set_prefix.
Qed.

Lemma export_define_tidy
    (recurse : setting_parser_info → bool → settings → changes
               → config_export_context → result config_export_context)
    info pu set cs def ctx ctx' :
  (∀ li, list_info def = Some li →
         ∀ u s ch c c', recurse li u s ch c = Ok c' → tidy c c') →
  export_define recurse info pu set cs def ctx = Ok ctx' →
  tidy ctx ctx'.
Proof.
  intros Hrec Hd. unfold export_define in Hd.
  inv_bind Hd. inv_bind Hd. inv_bind Hd.
  destruct (hide_list_defaults _ _ _ _ _ _ _ _) as [dv dd].
  inv_bind Hd. destruct a2 as [[[c1 dump] children] cc].
  apply export_value_steady in Ha2 as (Hs1 & Hp1 & _ & Hlen).
  destruct (export_leaf_steady c1 info pu def dump) as (Hs2 & Hp2 & _).
  set (c2 := export_leaf c1 info pu def dump) in *.
  assert (Hs3 : steady ctx (set_section_idx c2
                  (uint (section_idx c2 + Z.of_nat (length children))))).
  { eapply steady_trans; [exact Hs1|].
    eapply steady_trans; [exact Hs2|apply steady_set_section_idx]. }
  destruct children as [|child children].
  { injection Hd as <-. split; [exact Hs3|cbn; congruence]. }
  destruct (list_info def) as [li|] eqn:Hli; [|discriminate].
  apply export_children_tidy in Hd as [Hs4 Hp4];
    [|by eapply Hrec|reflexivity].
  split; [eapply steady_trans; [exact Hs3|exact Hs4]|].
  cbn in Hp4. congruence.
Qed.

Lemma export_defines_tidy
    (recurse : setting_parser_info → bool → settings → changes
               → config_export_context → result config_export_context)
    info pu set cs defs :
  (∀ def li, def ∈ defs → list_info def = Some li →
         ∀ u s ch c c', recurse li u s ch c = Ok c' → tidy c c') →
  ∀ ctx ctx',
    export_defines recurse info pu set cs defs ctx = Ok ctx' →
    tidy ctx ctx'.
Proof.
  induction defs as [|def defs IH]; intros Hrec ctx ctx' Hd; cbn in Hd.
  - injection Hd as <-. split; [apply steady_refl|done].
  - inv_bind Hd.
    apply export_define_tidy in Ha as [Hs1 Hp1];
      [|intros li Hli; apply (Hrec def li); [left|exact Hli]].
    apply IH in Hd as [Hs2 Hp2];
      [|intros d li Hin; apply (Hrec d li); by right].
    split; [eapply steady_trans; eauto|congruence].
Qed.

Lemma settings_export_tidy info :
  ∀ pu set cs ctx ctx',
    settings_export info pu set cs ctx = Ok ctx' → tidy ctx ctx'.
Proof.
  induction info as [info IH] using setting_parser_info_ind'.
  intros pu set cs ctx ctx' He. rewrite settings_export_unfold in He.
  eapply export_defines_tidy; [|exact He].
  intros def li Hin Hli u s ch c c'. by apply (IH def li).
Qed.

End frame.

(** ** The section counter *)












Section counter.
Context `{ext : Externals}.






End counter.

Section counter2.
Context `{ext : Externals}.





End counter2.

(** ** Wider scopes *)

Section mono.
Context `{ext : Externals}.

Lemma scope_dump_default_mono sc1 sc2 def cv :
  scope_le sc1 sc2 →
  scope_dump_default sc1 def cv = true →
  scope_dump_default sc2 def cv = true.
Proof.
  unfold scope_le. destruct sc1, sc2; cbn; intros Hle Hd;
    try lia; try done; destruct (Z.land _ _ =? 0); done.
Qed.

Lemma hide_list_defaults_mono ctx1 ctx2 info pu def v dv cv dd1 dd2 :
  ctx_flags ctx2 = ctx_flags ctx1 →
  (dd1 = true → dd2 = true) →
  ∃ dv' dd1' dd2',
    hide_list_defaults ctx1 info pu def v dv cv dd1 = (dv', dd1')
    ∧ hide_list_defaults ctx2 info pu def v dv cv dd2 = (dv', dd2')
    ∧ (dd1' = true → dd2' = true).
Proof.
  intros Hf Hd. unfold hide_list_defaults. rewrite Hf.
  destruct (negb pu || _); [eauto 6|].
  destruct (_ && _); eauto 6.
Qed.

(** The formatter emits under the forced-default flag whatever it emits
    without it. *)
Lemma config_export_type_mono str v dv t dump r s1 d1 :
  config_export_type str v dv t false dump = Ok (r, s1, d1) →
  ∃ s2 d2,
    config_export_type str v dv t true dump = Ok (r, s2, d2)
    ∧ ((s1 = str ∧ d1 = dump) ∨ (s1 = s2 ∧ d1 = d2)).
Proof.
  intros He.
  destruct t; destruct v as [b|n|n|n|[s|]|a|a]; cbn in He |- *;
    try discriminate;
    try (injection He as <- <- <-; eauto 10; fail);
    try (inv_bind He; injection He as <- <- <-; cbn;
         destruct a; eauto 10; fail).
  - (* SET_STR *)
    inv_bind He. rewrite Ha. cbn.
    destruct (null_strcmp_ne _ _); injection He as <- <- <-; eauto 10.
  - (* SET_STR, NULL *)
    inv_bind He. rewrite Ha. cbn. injection He as <- <- <-; eauto 10.
  - (* SET_STR_VARS *)
    inv_bind He. rewrite Ha. cbn. inv_bind He. rewrite Ha0. cbn.
    destruct (null_strcmp_ne _ _); injection He as <- <- <-; eauto 10.
  - (* SET_STR_VARS, NULL *)
    inv_bind He. rewrite Ha. cbn. injection He as <- <- <-; eauto 10.
  - (* SET_ENUM *)
    inv_bind He. destruct a as [d|]; [|discriminate].
    destruct (_ || _); injection He as <- <- <-; eauto 10.
Qed.

Lemma wider_set_value c1 c2 v1 v2 :
  wider c1 c2 → wider (set_value c1 v1) (set_value c2 v2).
Proof. intros []. by split. Qed.

Lemma wider_set_prefix c1 c2 p :
  wider c1 c2 → wider (set_prefix c1 p) (set_prefix c2 p).
Proof. intros []. by split. Qed.

Lemma wider_set_section_idx c1 c2 i :
  wider c1 c2 → wider (set_section_idx c1 i) (set_section_idx c2 i).
Proof. intros []. by split. Qed.

Lemma wider_note_assigned c1 c2 i j :
  wider c1 c2 → wider (note_assigned c1 i) (note_assigned c2 j).
Proof. intros []. by split. Qed.

Lemma wider_callback c1 c2 k v t :
  wider c1 c2 → wider (callback c1 k v t) (callback c2 k v t).
Proof.
  intros [Hp Hk Hf Hi Hs Hc Hd]. split; cbn; try done.
  intros e [He|He]%elem_of_app; apply elem_of_app; [left; auto|by right].
Qed.

Lemma wider_callback_r c1 c2 k v t :
  wider c1 c2 → wider c1 (callback c2 k v t).
Proof.
  intros [Hp Hk Hf Hi Hs Hc Hd]. split; cbn; try done.
  intros e He. apply elem_of_app. left; auto.
Qed.

Lemma strlist_pairs_wider c1 c2 def strings :
  wider c1 c2 →
  wider (strlist_pairs c1 def strings) (strlist_pairs c2 def strings)
  ∧ ctx_value (strlist_pairs c1 def strings) = ctx_value c1
  ∧ ctx_value (strlist_pairs c2 def strings) = ctx_value c2.
Proof.
  revert c1 c2. induction strings as [|x|k v rest IH] using pairs_ind;
    intros c1 c2 Hw; cbn; try done.
  rewrite (wider_prefix _ _ Hw).
  edestruct IH as (H1 & H2 & H3); [by apply wider_callback|].
  split; [exact H1|]. rewrite H2, H3. done.
Qed.

(** The type switch under the same forced-default flag. *)
Lemma export_value_wider_same c1 c2 def v dv cv dd c1' dump ch cc :
  wider c1 c2 →
  export_value c1 def v dv cv dd = Ok (c1', dump, ch, cc) →
  ∃ c2', export_value c2 def v dv cv dd = Ok (c2', dump, ch, cc)
         ∧ wider c1' c2' ∧ ctx_value c1' = ctx_value c2'.
Proof.
  intros Hw He. unfold export_value in *.
  unfold str_truncate in *. rewrite !substring_0_0 in *.
  pose proof (wider_set_value _ _ "" "" Hw) as Hw0.
  destruct (type def); cbn [ctx_value set_value] in *;
    try (inv_bind He; rewrite Ha; cbn; destruct a as [[ret str] dump'];
         destruct ret; [|discriminate]; injection He as <- <- <- <-;
         eexists; split; [reflexivity|];
         split; [by apply wider_set_value|reflexivity]).
  - (* SET_DEFLIST *)
    inv_bind He. rewrite Ha. cbn. destruct a as [children|].
    2:{ injection He as <- <- <- <-. eauto. }
    cbn [section_idx set_value] in *. rewrite (wider_idx _ _ Hw).
    inv_bind He. rewrite Ha0. cbn.
    destruct (change_array cv); [|discriminate].
    inv_bind He. rewrite Ha1. cbn. injection He as <- <- <- <-.
    eexists; split; [reflexivity|]. split; [by apply wider_set_value|done].
  - (* SET_DEFLIST_UNIQUE *)
    inv_bind He. rewrite Ha. cbn. destruct a as [children|].
    2:{ injection He as <- <- <- <-. eauto. }
    cbn [section_idx set_value] in *. rewrite (wider_idx _ _ Hw).
    inv_bind He. rewrite Ha0. cbn.
    destruct (change_array cv); [|discriminate].
    inv_bind He. rewrite Ha1. cbn. injection He as <- <- <- <-.
    eexists; split; [reflexivity|]. split; [by apply wider_set_value|done].
  - (* SET_STRLIST *)
    inv_bind He. rewrite Ha. cbn. destruct a as [strings|].
    2:{ injection He as <- <- <- <-. eauto. }
    cbn [prefix keys ctx_flags set_value] in *.
    rewrite (wider_prefix _ _ Hw), (wider_keys _ _ Hw),
      (wider_flags _ _ Hw), (wider_no_dedup _ _ Hw) in *.
    destruct (hash_table_lookup _ _).
    { injection He as <- <- <- <-. eauto. }
    inv_bind He. rewrite Ha0. cbn. injection He as <- <- <- <-.
    eexists; split; [reflexivity|].
    match goal with |- wider (strlist_pairs ?a _ _) (strlist_pairs ?b _ _) ∧ _
      => destruct (strlist_pairs_wider a b def strings) as (H1 & H2 & H3)
    end; [by apply wider_callback|].
    split; [exact H1|]. by rewrite H2, H3.
  - (* SET_ALIAS *)
    injection He as <- <- <- <-. eauto.
Qed.

(** The type switch when the second run forces the default and the
    first does not: the first either leaves the value buffer empty or
    agrees with the second. *)
Lemma export_value_wider c1 c2 def v dv cv dd1 dd2 c1' dump1 ch cc :
  wider c1 c2 → (dd1 = true → dd2 = true) →
  export_value c1 def v dv cv dd1 = Ok (c1', dump1, ch, cc) →
  ∃ c2' dump2,
    export_value c2 def v dv cv dd2 = Ok (c2', dump2, ch, cc)
    ∧ wider c1' c2'
    ∧ ((ctx_value c1' = "" ∧ dump1 = false)
       ∨ (ctx_value c1' = ctx_value c2' ∧ dump1 = dump2)).
Proof.
  intros Hw Hdd He.
  destruct dd1, dd2; try (specialize (Hdd eq_refl); discriminate);
    try (eapply export_value_wider_same in He as (c2' & H1 & H2 & H3);
         [|exact Hw]; eauto 10; fail).
  destruct (is_scalar (type def)) eqn:Hsc.
  2:{ assert (Heq : ∀ c, export_value c def v dv cv true
                         = export_value c def v dv cv false).
      { intros c. unfold export_value.
        destruct (type def); try discriminate; reflexivity. }
      rewrite Heq.
      eapply export_value_wider_same in He as (c2' & H1 & H2 & H3);
        [|exact Hw]. eauto 10. }
  unfold export_value in *.
  unfold str_truncate in *. rewrite !substring_0_0 in *.
  destruct (type def) eqn:Ht; try discriminate;
    cbn [ctx_value set_value] in *;
    inv_bind He; destruct a as [[ret str] dump'];
    apply config_export_type_mono in Ha as (s2 & d2 & -> & Hor);
    cbn in He |- *; (destruct ret; [|discriminate]);
    injection He as <- <- <- <-;
    (eexists _, _; split; [reflexivity|]);
    (split; [do 2 apply wider_set_value; exact Hw|]); cbn; tauto.
Qed.

Lemma export_leaf_wider c1 c2 info pu def dump1 dump2 :
  wider c1 c2 →
  (ctx_value c1 = "" ∧ dump1 = false)
  ∨ (ctx_value c1 = ctx_value c2 ∧ dump1 = dump2) →
  wider (export_leaf c1 info pu def dump1) (export_leaf c2 info pu def dump2).
Proof.
  intros Hw Hor. unfold export_leaf.
  rewrite (wider_prefix _ _ Hw), (wider_keys _ _ Hw).
  assert (Hnd : ∀ c k v t, wider c1 c → ctx_flags (callback c k v t)
                = ctx_flags c1) by (intros ???? []; done).
  destruct Hor as [[-> ->]|[-> ->]].
  - cbn [String.length Nat.ltb Nat.leb orb].
    destruct (_ || dump2); [|exact Hw].
    destruct (negb _); [|exact Hw].
    cbn [ctx_flags callback].
    rewrite (wider_flags _ _ Hw), (wider_no_dedup _ _ Hw).
    by apply wider_callback_r.
  - destruct (_ || dump2); [|exact Hw].
    destruct (negb _); [|exact Hw].
    cbn [ctx_flags callback].
    rewrite (wider_flags _ _ Hw), (wider_no_dedup _ _ Hw).
    by apply wider_callback.
Qed.

Lemma export_children_wider
    (recurse : settings → changes → config_export_context
               → result config_export_context)
    def prefix_len start children :
  (∀ s ch c1 c2 c1', wider c1 c2 → recurse s ch c1 = Ok c1' →
                     ∃ c2', recurse s ch c2 = Ok c2' ∧ wider c1' c2') →
  ∀ cc i c1 c2 c1',
    wider c1 c2 →
    export_children recurse def prefix_len start i children cc c1 = Ok c1' →
    ∃ c2',
      export_children recurse def prefix_len start i children cc c2 = Ok c2'
      ∧ wider c1' c2'.
Proof.
  intros Hrec. induction children as [|child children IH];
    intros cc i c1 c2 c1' Hw Hc; cbn in Hc |- *.
  - injection Hc as <-. eauto.
  - destruct cc as [|change cc]; [discriminate|].
    rewrite (wider_prefix _ _ Hw).
    inv_bind Hc. rewrite Ha. cbn. inv_bind Hc.
    eapply Hrec in Ha0 as (c2a & -> & Hw2);
      [|apply wider_set_prefix, wider_note_assigned, Hw].
    cbn.
    eapply (IH _ _ _ (set_prefix c2a (str_truncate (prefix c2a) prefix_len)))
      in Hc as (c2' & He2 & Hw3); [eauto|].
    rewrite (wider_prefix _ _ Hw2). by apply wider_set_prefix.
Qed.

Lemma export_define_wider
    (recurse : setting_parser_info → bool → settings → changes
               → config_export_context → result config_export_context)
    info pu set cs def c1 c2 c1' :
  (∀ li, list_info def = Some li →
     ∀ u s ch c1 c2 c1', wider c1 c2 → recurse li u s ch c1 = Ok c1' →
                         ∃ c2', recurse li u s ch c2 = Ok c2' ∧ wider c1' c2')
  → wider c1 c2 →
  export_define recurse info pu set cs def c1 = Ok c1' →
  ∃ c2', export_define recurse info pu set cs def c2 = Ok c2' ∧ wider c1' c2'.
Proof.
  intros Hrec Hw Hd. unfold export_define in *.
  inv_bind Hd. rewrite Ha. cbn. inv_bind Hd. rewrite Ha0. cbn.
  inv_bind Hd. rewrite Ha1. cbn.
  destruct (hide_list_defaults_mono c1 c2 info pu def a a0 a1
              (scope_dump_default (scope c1) def a1)
              (scope_dump_default (scope c2) def a1)
              (wider_flags _ _ Hw))
    as (dv' & dd1 & dd2 & Hh1 & Hh2 & Hdd).
  { apply scope_dump_default_mono, Hw. }
  rewrite Hh1 in Hd. rewrite Hh2.
  inv_bind Hd. destruct a2 as [[[c1v dump1] children] cc].
  eapply export_value_wider in Ha2 as (c2v & dump2 & -> & Hwv & Hor);
    [|exact Hw|exact Hdd].
  cbn. pose proof (export_leaf_wider _ _ info pu def _ _ Hwv Hor) as Hwl.
  rewrite (wider_prefix _ _ Hwl), (wider_idx _ _ Hwl).
  destruct children as [|child children].
  { injection Hd as <-. eexists; split; [reflexivity|].
    by apply wider_set_section_idx. }
  destruct (list_info def) as [li|] eqn:Hli; [|discriminate].
  eapply export_children_wider in Hd as (c2' & He & Hw');
    [exists c2'; split; [|exact Hw']; exact He
    |intros s ch; by apply (Hrec li)
    |by apply wider_set_section_idx].
Qed.

Lemma export_defines_wider
    (recurse : setting_parser_info → bool → settings → changes
               → config_export_context → result config_export_context)
    info pu set cs defs :
  (∀ def li, def ∈ defs → list_info def = Some li →
     ∀ u s ch c1 c2 c1', wider c1 c2 → recurse li u s ch c1 = Ok c1' →
                         ∃ c2', recurse li u s ch c2 = Ok c2' ∧ wider c1' c2')
  → ∀ c1 c2 c1', wider c1 c2 →
    export_defines recurse info pu set cs defs c1 = Ok c1' →
    ∃ c2', export_defines recurse info pu set cs defs c2 = Ok c2'
           ∧ wider c1' c2'.
Proof.
  induction defs as [|def defs IH]; intros Hrec c1 c2 c1' Hw Hd;
    cbn in Hd |- *.
  - injection Hd as <-. eauto.
  - inv_bind Hd.
    eapply export_define_wider in Ha as (c2a & -> & Hwa);
      [|intros li Hli; apply (Hrec def li); [left|exact Hli]|exact Hw].
    cbn. eapply IH; [|exact Hwa|exact Hd].
    intros d li Hin. apply (Hrec d li). by right.
Qed.

Lemma settings_export_wider info :
  ∀ pu set cs c1 c2 c1',
    wider c1 c2 → settings_export info pu set cs c1 = Ok c1' →
    ∃ c2', settings_export info pu set cs c2 = Ok c2' ∧ wider c1' c2'.
Proof.
  induction info as [info IH] using setting_parser_info_ind'.
  intros pu set cs c1 c2 c1' Hw He. rewrite settings_export_unfold in *.
  eapply export_defines_wider; [|exact Hw|exact He].
  intros def li Hin Hli u s ch. by apply (IH def li).
Qed.

End mono.

(** ** String lists and the export of all parsers *)

Section strlist.
Context `{ext : Externals}.

Lemma strlist_pairs_flatten def pairs :
  ∀ c, context (strlist_pairs c def (flatten_pairs pairs))
       = (context c
          ++ map (λ p, (prefix c +:+ key def
                          +:+ String SETTINGS_SEPARATOR "" +:+ p.1,
                        p.2, CONFIG_KEY_NORMAL)) pairs)%list
       ∧ keys (strlist_pairs c def (flatten_pairs pairs)) = keys c.
Proof.
  induction pairs as [|[k v] pairs IH]; intros c; cbn.
  - by rewrite app_nil_r.
  - destruct (IH (callback c (prefix c +:+ key def
        +:+ String SETTINGS_SEPARATOR "" +:+ k) v CONFIG_KEY_NORMAL))
      as [Hc Hk].
    rewrite Hc, Hk. cbn. by rewrite <- app_assoc.
Qed.

Lemma flatten_pairs_even pairs :
  Z.of_nat (length (flatten_pairs pairs)) mod 2 = 0.
Proof.
  induction pairs as [|[k v] pairs IH]; [reflexivity|].
  cbn [flatten_pairs length].
  replace (Z.of_nat (S (S (length (flatten_pairs pairs)))))
    with (Z.of_nat (length (flatten_pairs pairs)) + 1 * 2) by lia.
  by rewrite Z.mod_add.
Qed.

Lemma strlist_pairs_value def strings :
  ∀ c, ctx_value (strlist_pairs c def strings) = ctx_value c.
Proof.
  induction strings as [|x|k v rest IH] using pairs_ind;
    intros c; cbn; try done.
  by rewrite IH.
Qed.

(** What the walker does for a string-list field whose array is
    created. *)
Lemma export_define_strlist
    (recurse : setting_parser_info → bool → settings → changes
               → config_export_context → result config_export_context)
    info pu set cs def ctx ctx' pairs :
  type def = SET_STRLIST →
  set !! offset def = Some (VStrlist (Some (flatten_pairs pairs))) →
  export_define recurse info pu set cs def ctx = Ok ctx' →
  if hash_table_lookup (keys ctx) (prefix ctx +:+ key def)
  then context ctx' = context ctx ∧ keys ctx' = keys ctx
  else context ctx'
       = (context ctx ++ strlist_entries (prefix ctx) def pairs)%list
       ∧ keys ctx'
         = (if flag_set (ctx_flags ctx) CONFIG_DUMP_FLAG_DEDUPLICATE_KEYS
            then hash_table_insert (keys ctx) (prefix ctx +:+ key def)
            else keys ctx).
Proof.
  intros Ht Hset Hd. unfold export_define in Hd.
  inv_bind Hd. unfold field in Ha. rewrite Hset in Ha. injection Ha as <-.
  inv_bind Hd. inv_bind Hd.
  destruct (hide_list_defaults _ _ _ _ _ _ _ _) as [dv dd].
  inv_bind Hd. destruct a1 as [[[c1 dump] children] cc].
  unfold export_value, str_truncate in Ha1.
  rewrite Ht, substring_0_0 in Ha1. cbn in Ha1.
  destruct (hash_table_lookup (keys ctx) (prefix ctx +:+ key def)).
  - injection Ha1 as <- <- <- <-. cbn in Hd. injection Hd as <-. done.
  - rewrite flatten_pairs_even in Ha1. cbn in Ha1.
    injection Ha1 as <- <- <- <-.
    unfold export_leaf in Hd.
    match type of Hd with context [strlist_pairs ?c def _] =>
      destruct (strlist_pairs_flatten def pairs c) as [Hc Hk];
      destruct (steady_strlist_pairs c def (flatten_pairs pairs))
        as (Hs & _ & _);
      set (c0 := c) in *
    end.
    assert (Hv : ctx_value (strlist_pairs c0 def (flatten_pairs pairs))
                 = "").
    { rewrite strlist_pairs_value. subst c0. cbn.
      by destruct (flag_set _ _). }
    rewrite Hv in Hd. cbn in Hd. injection Hd as <-. cbn.
    rewrite Hc, Hk. subst c0. unfold strlist_entries.
    destruct (flag_set _ _); cbn; by rewrite <- app_assoc.
Qed.

Lemma hash_table_lookup_insert keys k :
  hash_table_lookup (hash_table_insert keys k) k = true.
Proof.
  unfold hash_table_lookup, hash_table_insert.
  apply bool_decide_eq_true. set_solver.
Qed.

Lemma hash_table_lookup_mono (k1 k2 : gset string) k :
  k1 ⊆ k2 → hash_table_lookup k1 k = true → hash_table_lookup k2 k = true.
Proof.
  unfold hash_table_lookup. rewrite !bool_decide_eq_true. set_solver.
Qed.

Lemma hash_table_lookup_empty k : hash_table_lookup ∅ k = false.
Proof. unfold hash_table_lookup. apply bool_decide_eq_false. set_solver. Qed.

(** With key deduplication on, a string list announced once is skipped
    whenever its key comes up again later in the pass. *)
Lemma strlist_announced_once
    (recurse : setting_parser_info → bool → settings → changes
               → config_export_context → result config_export_context)
    info pu set cs def ctx ctx1 pairs
    info' pu' set' cs' def' ctx2 ctx3 pairs' :
  flag_set (ctx_flags ctx) CONFIG_DUMP_FLAG_DEDUPLICATE_KEYS = true →
  type def = SET_STRLIST →
  set !! offset def = Some (VStrlist (Some (flatten_pairs pairs))) →
  export_define recurse info pu set cs def ctx = Ok ctx1 →
  keys ctx1 ⊆ keys ctx2 →
  type def' = SET_STRLIST →
  set' !! offset def' = Some (VStrlist (Some (flatten_pairs pairs'))) →
  prefix ctx2 +:+ key def' = prefix ctx +:+ key def →
  export_define recurse info' pu' set' cs' def' ctx2 = Ok ctx3 →
  context ctx3 = context ctx2.
Proof.
  intros Hf Ht Hs He1 Hsub Ht' Hs' Hk He2.
  apply (export_define_strlist _ _ _ _ _ _ _ _ _ Ht Hs) in He1.
  apply (export_define_strlist _ _ _ _ _ _ _ _ _ Ht' Hs') in He2.
  rewrite Hk in He2.
  assert (Hin : hash_table_lookup (keys ctx1) (prefix ctx +:+ key def)
                = true).
  { destruct (hash_table_lookup (keys ctx) _) eqn:Hl.
    - destruct He1 as [_ ->]. exact Hl.
    - destruct He1 as [_ ->]. rewrite Hf. apply hash_table_lookup_insert. }
  rewrite (hash_table_lookup_mono _ _ _ Hsub Hin) in He2. tauto.
Qed.

(** The entry of a field itself when no key is recorded. *)
Lemma export_leaf_no_keys ctx info pu def dump :
  keys ctx = ∅ →
  flag_set (ctx_flags ctx) CONFIG_DUMP_FLAG_DEDUPLICATE_KEYS = false →
  export_leaf ctx info pu def dump
  = if (0 <? String.length (ctx_value ctx))%nat || dump
    then callback ctx (prefix ctx +:+ key def) (ctx_value ctx)
           (if (offset def + 1 =? type_offset1 info)%nat && pu
            then CONFIG_KEY_UNIQUE_KEY
            else if SETTING_TYPE_IS_DEFLIST (type def)
                 then CONFIG_KEY_LIST else CONFIG_KEY_NORMAL)
    else ctx.
Proof.
  intros Hk Hf. unfold export_leaf.
  rewrite Hk, hash_table_lookup_empty. cbn. by rewrite Hf.
Qed.

Lemma config_export_parser_tidy ctx i idx r e ctx' idx' :
  config_export_parser ctx i idx = Ok (r, e, ctx', idx') →
  steady ctx ctx'.
Proof.
  unfold config_export_parser. intros He.
  destruct (module_parsers ctx ≫= _) as [mp|]; [|discriminate].
  destruct (delayed_error mp).
  - injection He as <- <- <- <-. apply steady_refl.
  - inv_bind He. injection He as <- <- <- <-.
    apply settings_export_tidy in Ha as [Hs _].
    eapply steady_trans; [apply steady_set_section_idx|exact Hs].
Qed.

Lemma export_parsers_from_tidy rest :
  ∀ i ctx idx r ctx' idx' eff,
    export_parsers_from rest i ctx idx = Ok (r, ctx', idx', eff) →
    steady ctx ctx'.
Proof.
  induction rest as [|mp rest IH]; intros i ctx idx r ctx' idx' eff He;
    cbn in He.
  - injection He as <- <- <- <-. apply steady_refl.
  - inv_bind He. destruct a as [[[r1 e1] c1] i1].
    apply config_export_parser_tidy in Ha.
    destruct (r1 <? 0).
    + by injection He as <- <- <- <-.
    + apply IH in He. by eapply steady_trans.
Qed.

End strlist.

Section export_all.
Context `{ext : Externals}.

Lemma export_parsers_from_sequence rest :
  ∀ i ctx idx parsers,
    module_parsers ctx = Some parsers →
    drop i parsers = rest →
    export_parsers_from rest i ctx idx
    = '(c, j, e) ← export_sequence rest ctx idx;
      Ok (match e with Some _ => -1 | None => 0 end, c, j,
          match e with Some m => [i_error m] | None => [] end).
Proof.
  induction rest as [|mp rest IH]; intros i ctx idx parsers Hp Hdrop; cbn.
  - reflexivity.
  - assert (Hl : parsers !! i = Some mp).
    { rewrite <- (Nat.add_0_r i), <- lookup_drop, Hdrop. reflexivity. }
    unfold config_export_parser. rewrite Hp. cbn. rewrite Hl.
    destruct (delayed_error mp) as [e|]; [reflexivity|]. cbn.
    destruct (settings_export _ _ _ _ _) as [c1|f] eqn:He; [|reflexivity].
    cbn. apply (IH _ _ _ parsers).
    + apply settings_export_tidy in He as [Hs _].
      rewrite (steady_parsers _ _ Hs). exact Hp.
    + erewrite drop_S in Hdrop by exact Hl. by injection Hdrop.
Qed.

Lemma export_sequence_tidy parsers :
  ∀ ctx idx c j e,
    export_sequence parsers ctx idx = Ok (c, j, e) → steady ctx c.
Proof.
  induction parsers as [|mp l IH]; intros ctx idx c j e He; cbn in He.
  - injection He as <- <- <-. apply steady_refl.
  - destruct (delayed_error mp).
    + injection He as <- <- <-. apply steady_refl.
    + inv_bind He. apply IH in He.
      apply settings_export_tidy in Ha as [Hs _].
      eapply steady_trans; [|exact He].
      eapply steady_trans; [apply steady_set_section_idx|exact Hs].
Qed.

Lemma config_export_all_parsers_spec ctx idx :
  config_export_all_parsers (Some ctx) idx = spec_export_all ctx idx.
Proof.
  unfold config_export_all_parsers, spec_export_all.
  destruct (module_parsers ctx) as [parsers|] eqn:Hp; [|reflexivity].
  rewrite (export_parsers_from_sequence parsers 0%nat ctx idx parsers Hp
             eq_refl).
  destruct (export_sequence _ _ _) as [[[c j] e]|f] eqn:He; [|reflexivity].
  cbn. unfold teardown. do 2 f_equal.
  apply export_sequence_tidy in He. by rewrite (steady_dup _ _ He).
Qed.

End export_all.

(** ** A pass over the module parsers and what it emits *)

Section pass_properties.
Context `{ext : Externals}.

Lemma parse_split parsers :
  ∀ ctx idx c j e,
    export_sequence parsers ctx idx = Ok (c, j, e) →
    match e with
    | None => Forall (λ mp, delayed_error mp = None) parsers
    | Some m =>
        ∃ good mp rest,
          parsers = (good ++ mp :: rest)%list
          ∧ Forall (λ mp, delayed_error mp = None) good
          ∧ delayed_error mp = Some m
          ∧ export_sequence good ctx idx = Ok (c, j, None)
    end.
Proof.
  induction parsers as [|mp l IH]; intros ctx idx c j e He; cbn in He.
  - injection He as <- <- <-. constructor.
  - destruct (delayed_error mp) as [m|] eqn:Hm.
    + injection He as <- <- <-. exists [], mp, l. by repeat split.
    + inv_bind He. apply IH in He. destruct e as [m|].
      * destruct He as (good & mp' & rest & -> & Hg & Hm' & Hs).
        exists (mp :: good), mp', rest. repeat split; try done.
        -- by constructor.
        -- cbn. rewrite Hm, Ha. exact Hs.
      * by constructor.
Qed.

(** ** String lists (C5) *)

(** C5, amended: for a string-list field whose array has been created:
    when its fully-prefixed key is already recorded the walker emits
    nothing for it; otherwise it records the key when DEDUPLICATE_KEYS is
    set and emits the announcement with empty value followed by one entry
    per pair under "<prefix><field><sep><subkey>", and nothing else for
    the field; so with DEDUPLICATE_KEYS set a later field producing the
    same key emits nothing. *)
Theorem strlist_field_entries
    (recurse : setting_parser_info → bool → settings → changes
               → config_export_context → result config_export_context)
    info pu set cs def ctx ctx' pairs :
  type def = SET_STRLIST →
  set !! offset def = Some (VStrlist (Some (flatten_pairs pairs))) →
  export_define recurse info pu set cs def ctx = Ok ctx' →
  (if hash_table_lookup (keys ctx) (prefix ctx +:+ key def)
   then context ctx' = context ctx ∧ keys ctx' = keys ctx
   else context ctx'
        = (context ctx ++ strlist_entries (prefix ctx) def pairs)%list
        ∧ keys ctx'
          = (if flag_set (ctx_flags ctx) CONFIG_DUMP_FLAG_DEDUPLICATE_KEYS
             then hash_table_insert (keys ctx) (prefix ctx +:+ key def)
             else keys ctx))
  ∧ (flag_set (ctx_flags ctx) CONFIG_DUMP_FLAG_DEDUPLICATE_KEYS = true →
     ∀ info' pu' set' cs' def' pairs' ctx2 ctx3,
       keys ctx' ⊆ keys ctx2 →
       type def' = SET_STRLIST →
       set' !! offset def'
       = Some (VStrlist (Some (flatten_pairs pairs'))) →
       prefix ctx2 +:+ key def' = prefix ctx +:+ key def →
       export_define recurse info' pu' set' cs' def' ctx2 = Ok ctx3 →
       context ctx3 = context ctx2).
Proof.
  intros Ht Hs He. split.
  - by eapply export_define_strlist.
  - intros Hf info' pu' set' cs' def' pairs' ctx2 ctx3 Hsub Ht' Hs' Hk He'.
    by eapply (strlist_announced_once recurse info pu set cs def ctx ctx'
                 pairs info' pu' set' cs' def' ctx2 ctx3 pairs').
Qed.

(** ** Deferred errors (C6) *)

(** C6: exporting a parser that carries a deferred error fails at once
    with the stored message and leaves the context as it is; exporting
    all parsers exports them in order up to the first that fails, returns
    -1 then and 0 otherwise, and tears the context down once either
    way. *)
Theorem deferred_error_stops_export (ctx : config_export_context)
    (idx : Z) :
  (∀ parsers i mp e,
     module_parsers ctx = Some parsers →
     parsers !! i = Some mp → delayed_error mp = Some e →
     config_export_parser ctx i idx = Ok (-1, Some e, ctx, idx))
  ∧ config_export_all_parsers (Some ctx) idx = spec_export_all ctx idx
  ∧ (∀ out,
       config_export_all_parsers (Some ctx) idx = Ok out →
       handle out = None
       ∧ length (filter is_pool_unref (effects out)) = 1%nat
       ∧ ((ret out = 0
           ∧ ∃ parsers,
               module_parsers ctx = Some parsers
               ∧ Forall (λ mp, delayed_error mp = None) parsers)
          ∨ (ret out = -1
             ∧ ∃ good mp rest e c,
                 module_parsers ctx = Some (good ++ mp :: rest)%list
                 ∧ Forall (λ mp, delayed_error mp = None) good
                 ∧ delayed_error mp = Some e
                 ∧ export_sequence good ctx idx
                   = Ok (c, section_idx_r out, None)
                 ∧ entries out = context c
                 ∧ effects out = (i_error e :: teardown ctx)%list))).
Proof.
  split; [|split].
  - intros parsers i mp e Hp Hl He. unfold config_export_parser.
    rewrite Hp. cbn. by rewrite Hl, He.
  - apply config_export_all_parsers_spec.
  - intros out. rewrite config_export_all_parsers_spec.
    unfold spec_export_all.
    destruct (module_parsers ctx) as [parsers|]; [|discriminate].
    intros Ho. inv_bind Ho.
    destruct a as [[c j] e]. injection Ho as <-. cbn.
    split; [reflexivity|]. split.
    + unfold teardown.
      destruct e, (dup_module_parsers ctx); reflexivity.
    + apply parse_split in Ha. destruct e as [m|].
      * right. split; [reflexivity|].
        destruct Ha as (good & mp & rest & -> & Hg & Hm & Hs).
        by exists good, mp, rest, m, c.
      * left. split; [reflexivity|]. by exists parsers.
Qed.

(** ** Dump scopes (C9) *)

(** C9, amended: with the DEDUPLICATE_KEYS flag clear, for a fixed
    schema, value instance, change mask and context, whenever the walker,
    or the export of a module parser, completes under a scope it
    completes under every wider scope (in the order CHANGED, SET,
    ALL_WITHOUT_HIDDEN, ALL_WITH_HIDDEN) and every entry emitted under the
    narrower scope is emitted under the wider one. *)
Theorem scope_monotone_without_dedup ctx sc1 sc2 :
  flag_set (ctx_flags ctx) CONFIG_DUMP_FLAG_DEDUPLICATE_KEYS = false →
  scope_le sc1 sc2 →
  (∀ info pu set cs c1,
     settings_export info pu set cs (with_scope ctx sc1) = Ok c1 →
     ∃ c2, settings_export info pu set cs (with_scope ctx sc2) = Ok c2
           ∧ context c1 ⊆ context c2)
  ∧ (∀ i idx r e c1 idx',
       config_export_parser (with_scope ctx sc1) i idx
       = Ok (r, e, c1, idx') →
       ∃ c2, config_export_parser (with_scope ctx sc2) i idx
             = Ok (r, e, c2, idx')
             ∧ context c1 ⊆ context c2).
Proof.
  intros Hf Hle.
  assert (Hw0 : wider (with_scope ctx sc1) (with_scope ctx sc2))
    by (by split).
  split.
  - intros info pu set cs c1 He.
    eapply settings_export_wider in He as (c2 & He2 & Hw); [|exact Hw0].
    exists c2. split; [exact He2|]. apply Hw.
  - intros i idx r e c1 idx' He. unfold config_export_parser in *.
    cbn [module_parsers with_scope] in *.
    destruct (module_parsers ctx ≫= _) as [mp|]; [|discriminate].
    destruct (delayed_error mp).
    + injection He as <- <- <- <-. eexists. split; [reflexivity|].
      apply Hw0.
    + inv_bind He. injection He as <- <- <- <-.
      eapply settings_export_wider in Ha as (c2 & -> & Hw);
        [|apply wider_set_section_idx, Hw0].
      cbn. rewrite (wider_idx _ _ Hw). eexists. split; [reflexivity|].
      apply Hw.
Qed.

(** ** Key deduplication switched off (C10) *)

(** C10: with the DEDUPLICATE_KEYS flag clear and no key recorded, no key
    is recorded by the walker or by the export of a parser, so no entry is
    suppressed: a field with content is emitted, and a created string list
    is announced with its pairs, whenever its key is produced. *)
Theorem keys_stay_empty_without_dedup (ctx : config_export_context) :
  keys ctx = ∅ →
  flag_set (ctx_flags ctx) CONFIG_DUMP_FLAG_DEDUPLICATE_KEYS = false →
  (∀ info pu set cs ctx',
     settings_export info pu set cs ctx = Ok ctx' → keys ctx' = ∅)
  ∧ (∀ info pu set cs def ctx',
       export_define settings_export info pu set cs def ctx = Ok ctx' →
       keys ctx' = ∅)
  ∧ (∀ i idx r e ctx' idx',
       config_export_parser ctx i idx = Ok (r, e, ctx', idx') →
       keys ctx' = ∅)
  ∧ (∀ info pu def dump,
       export_leaf ctx info pu def dump
       = if (0 <? String.length (ctx_value ctx))%nat || dump
         then callback ctx (prefix ctx +:+ key def) (ctx_value ctx)
                (if (offset def + 1 =? type_offset1 info)%nat && pu
                 then CONFIG_KEY_UNIQUE_KEY
                 else if SETTING_TYPE_IS_DEFLIST (type def)
                      then CONFIG_KEY_LIST else CONFIG_KEY_NORMAL)
         else ctx)
  ∧ (∀ info pu set cs def pairs ctx',
       type def = SET_STRLIST →
       set !! offset def = Some (VStrlist (Some (flatten_pairs pairs))) →
       export_define settings_export info pu set cs def ctx = Ok ctx' →
       context ctx'
       = (context ctx ++ strlist_entries (prefix ctx) def pairs)%list).
Proof.
  intros Hk Hf. repeat split.
  - intros info pu set cs ctx' He.
    apply settings_export_tidy in He as [Hs _].
    by rewrite (steady_keys_eq _ _ Hs Hf).
  - intros info pu set cs def ctx' He.
    apply export_define_tidy in He as [Hs _].
    + by rewrite (steady_keys_eq _ _ Hs Hf).
    + intros li _ u s ch c c'. apply settings_export_tidy.
  - intros i idx r e ctx' idx' He.
    apply config_export_parser_tidy in He.
    by rewrite (steady_keys_eq _ _ He Hf).
  - intros info pu def dump. by apply export_leaf_no_keys.
  - intros info pu set cs def pairs ctx' Ht Hs He.
    eapply export_define_strlist in He; [|exact Ht|exact Hs].
    rewrite Hk, hash_table_lookup_empty in He. apply He.
Qed.

End pass_properties.

(** ** Concrete configurations *)

Section examples.
Local Existing Instance sample_externals.

(** C2 (the code departs from it): in a unique list exported with
    HIDE_LIST_DEFAULTS under the scope CHANGED, an unchanged field that
    is not the name field is compared with itself; a boolean is then
    suppressed, but a variable-expandable string is still emitted,
    because only the current value is stripped of its tag byte before the
    comparison. *)
Theorem unchanged_strvar_in_unique_list_emitted :
  hide_list_defaults (config_export_init CONFIG_DUMP_SCOPE_CHANGED 2)
    Sample.service_info true (mk_define SET_STR_VARS "path" 16 None 0)
    (VStr (Some "0/var/mail")) (Some (VStr (Some ""))) (Change 0 None) false
  = (Some (VStr (Some "0/var/mail")), false)
  ∧ config_export_type "" (VStr (Some "0/var/mail"))
      (Some (VStr (Some "0/var/mail"))) SET_STR_VARS false false
    = Ok (true, "/var/mail", true)
  ∧ config_export_type "" (VBool true) (Some (VBool true)) SET_BOOL
      false false
    = Ok (true, "", false)
  ∧ entries_of
      (settings_export Sample.root_info false Sample.lone_set
         Sample.lone_changes
         (config_export_init CONFIG_DUMP_SCOPE_CHANGED 2))
    = [ ("service", "a", CONFIG_KEY_LIST);
        ("service/a/name", "a", CONFIG_KEY_UNIQUE_KEY);
        ("service/a/path", "/var/mail", CONFIG_KEY_NORMAL) ].
Proof. repeat split; vm_compute; reflexivity. Qed.


(** C5 as stated fails for a string list whose array was never
    created: its key is not recorded, yet nothing is announced. *)
Lemma strlist_not_created_emits_nothing :
  hash_table_lookup
    (keys (config_export_init CONFIG_DUMP_SCOPE_ALL_WITH_HIDDEN 8)) "env"
  = false
  ∧ ∃ ctx',
      settings_export Sample.env_info false Sample.env_unset
        Sample.env_changes
        (config_export_init CONFIG_DUMP_SCOPE_ALL_WITH_HIDDEN 8)
      = Ok ctx'
      ∧ context ctx' = [].
Proof.
  split; [vm_compute; reflexivity|].
  eexists. split; [vm_compute; reflexivity|reflexivity].
Qed.

Lemma strlist_field_entries_witness :
  type (mk_define SET_STRLIST "env" 0 None 0) = SET_STRLIST
  ∧ Sample.env_set !! offset (mk_define SET_STRLIST "env" 0 None 0)
    = Some (VStrlist (Some (flatten_pairs [("K", "V"); ("L", "W")])))
  ∧ ∃ ctx',
      export_define settings_export Sample.env_info false Sample.env_set
        Sample.env_changes (mk_define SET_STRLIST "env" 0 None 0)
        (config_export_init CONFIG_DUMP_SCOPE_ALL_WITH_HIDDEN 8)
      = Ok ctx'
      ∧ context ctx'
        = [ ("env", "", CONFIG_KEY_LIST);
            ("env/K", "V", CONFIG_KEY_NORMAL);
            ("env/L", "W", CONFIG_KEY_NORMAL) ]
      ∧ (∀ ctx3,
           export_define settings_export Sample.env_info false
             Sample.env_set Sample.env_changes
             (mk_define SET_STRLIST "env" 0 None 0) ctx' = Ok ctx3 →
           context ctx3 = context ctx').
Proof.
  split; [reflexivity|]. split; [vm_compute; reflexivity|].
  eexists. split; [vm_compute; reflexivity|].
  split; [reflexivity|]. intros ctx3 He3.
  refine (proj2 (strlist_field_entries settings_export Sample.env_info false
                   Sample.env_set Sample.env_changes
                   (mk_define SET_STRLIST "env" 0 None 0)
                   (config_export_init CONFIG_DUMP_SCOPE_ALL_WITH_HIDDEN 8)
                   _ [("K", "V"); ("L", "W")] eq_refl _ _)
            _ Sample.env_info false Sample.env_set Sample.env_changes
            (mk_define SET_STRLIST "env" 0 None 0) [("K", "V"); ("L", "W")]
            _ ctx3 _ eq_refl _ _ He3);
    try (vm_compute; reflexivity); try reflexivity.
Defined.

Lemma deferred_error_stops_export_witness :
  ∃ out,
    config_export_all_parsers
      (Some (config_export_set_module_parsers
               (config_export_init CONFIG_DUMP_SCOPE_ALL_WITH_HIDDEN 0)
               [Sample.env_parser; Sample.broken_parser;
                Sample.env_parser])) 0
    = Ok out
    ∧ ret out = -1
    ∧ entries out
      = [ ("env", "", CONFIG_KEY_LIST);
          ("env/K", "V", CONFIG_KEY_NORMAL);
          ("env/L", "W", CONFIG_KEY_NORMAL) ]
    ∧ effects out
      = [ i_error "unknown setting"; hash_table_destroy; pool_unref ]
    ∧ handle out = None
    ∧ length (filter is_pool_unref (effects out)) = 1%nat.
Proof.
  eexists. split; [vm_compute; reflexivity|].
  split; [reflexivity|]. split; [reflexivity|]. split; [reflexivity|].
  refine (let H := proj2 (proj2 (deferred_error_stops_export
              (config_export_set_module_parsers
                 (config_export_init CONFIG_DUMP_SCOPE_ALL_WITH_HIDDEN 0)
                 [Sample.env_parser; Sample.broken_parser;
                  Sample.env_parser]) 0)) _ _
          in conj (proj1 H) (proj1 (proj2 H))).
  vm_compute; reflexivity.
Defined.

(** C9 as stated fails with DEDUPLICATE_KEYS set: of two services of the
    same name, the second's changed [enabled] is emitted under CHANGED,
    but under ALL_WITH_HIDDEN the first's default has taken the key. *)
Lemma dedup_breaks_scope_monotonicity :
  scope_le CONFIG_DUMP_SCOPE_CHANGED CONFIG_DUMP_SCOPE_ALL_WITH_HIDDEN
  ∧ ("service/a/enabled", "no", CONFIG_KEY_NORMAL)
    ∈ entries_of
        (settings_export Sample.root_info false Sample.twins_set
           Sample.twins_changes
           (config_export_init CONFIG_DUMP_SCOPE_CHANGED 8))
  ∧ ("service/a/enabled", "no", CONFIG_KEY_NORMAL)
    ∉ entries_of
        (settings_export Sample.root_info false Sample.twins_set
           Sample.twins_changes
           (config_export_init CONFIG_DUMP_SCOPE_ALL_WITH_HIDDEN 8)).
Proof.
  split; [unfold scope_le; cbn; lia|].
  split; (apply (bool_decide_unpack _); vm_compute; exact I).
Qed.

Lemma scope_monotone_without_dedup_witness :
  flag_set (ctx_flags (config_export_init CONFIG_DUMP_SCOPE_CHANGED 0))
           CONFIG_DUMP_FLAG_DEDUPLICATE_KEYS = false
  ∧ scope_le CONFIG_DUMP_SCOPE_CHANGED CONFIG_DUMP_SCOPE_ALL_WITH_HIDDEN
  ∧ ∃ c1,
      settings_export Sample.root_info false Sample.twins_set
        Sample.twins_changes
        (with_scope (config_export_init CONFIG_DUMP_SCOPE_CHANGED 0)
                    CONFIG_DUMP_SCOPE_CHANGED)
      = Ok c1
      ∧ ∃ c2,
          settings_export Sample.root_info false Sample.twins_set
            Sample.twins_changes
            (with_scope (config_export_init CONFIG_DUMP_SCOPE_CHANGED 0)
                        CONFIG_DUMP_SCOPE_ALL_WITH_HIDDEN)
          = Ok c2
          ∧ context c1 ⊆ context c2.
Proof.
  split; [reflexivity|]. split; [unfold scope_le; cbn; lia|].
  eexists. split; [vm_compute; reflexivity|].
  refine (proj1 (scope_monotone_without_dedup
                   (config_export_init CONFIG_DUMP_SCOPE_CHANGED 0)
                   CONFIG_DUMP_SCOPE_CHANGED
                   CONFIG_DUMP_SCOPE_ALL_WITH_HIDDEN eq_refl _)
            Sample.root_info false Sample.twins_set Sample.twins_changes
            _ _);
    [unfold scope_le; cbn; lia|vm_compute; reflexivity].
Defined.

Lemma keys_stay_empty_without_dedup_witness :
  keys (config_export_init CONFIG_DUMP_SCOPE_CHANGED 0) = ∅
  ∧ flag_set (ctx_flags (config_export_init CONFIG_DUMP_SCOPE_CHANGED 0))
             CONFIG_DUMP_FLAG_DEDUPLICATE_KEYS = false
  ∧ ∃ ctx',
      settings_export Sample.root_info false Sample.twins_set
        Sample.twins_changes
        (config_export_init CONFIG_DUMP_SCOPE_CHANGED 0)
      = Ok ctx'
      ∧ keys ctx' = ∅
      ∧ context ctx'
        = [ ("service", "a a", CONFIG_KEY_LIST);
            ("service/a/name", "a", CONFIG_KEY_UNIQUE_KEY);
            ("service/a/env", "", CONFIG_KEY_LIST);
            ("service/a/env/K", "V", CONFIG_KEY_NORMAL);
            ("service/a/name", "a", CONFIG_KEY_UNIQUE_KEY);
            ("service/a/enabled", "no", CONFIG_KEY_NORMAL);
            ("service/a/env", "", CONFIG_KEY_LIST);
            ("service/a/env/K", "W", CONFIG_KEY_NORMAL) ].
Proof.
  split; [reflexivity|]. split; [reflexivity|].
  eexists. split; [vm_compute; reflexivity|]. split; [|reflexivity].
  apply (proj1 (keys_stay_empty_without_dedup
                  (config_export_init CONFIG_DUMP_SCOPE_CHANGED 0)
                  eq_refl eq_refl)
           Sample.root_info false Sample.twins_set Sample.twins_changes).
  vm_compute; reflexivity.
Defined.

End examples.

(** * Further properties *)

Lemma string_app_inv_head (p a b : string) : p +:+ a = p +:+ b → a = b.
Proof.
  induction p as [|c p IH]; [done|].
  rewrite !string_app_cons. intros [= H]. auto.
Qed.

Lemma string_of_uint_all_digits d :
  all_digits (NilEmpty.string_of_uint d) = true.
Proof. induction d; cbn; auto. Qed.

Lemma dec_all_digits n : all_digits (dec n) = true.
Proof.
  unfold dec, NilZero.string_of_uint.
  destruct (N.to_uint _) eqn:E; try reflexivity;
    rewrite <- E; apply string_of_uint_all_digits.
Qed.

Lemma to_uint_nonnil n : N.to_uint n ≠ Decimal.Nil.
Proof.
  destruct n as [|p]; [discriminate|]. cbn.
  apply DecimalPos.Unsigned.to_uint_nonnil.
Qed.

Lemma dec_nonempty n : dec n ≠ "".
Proof.
  unfold dec, NilZero.string_of_uint.
  pose proof (to_uint_nonnil (Z.to_N n)) as Hn.
  destruct (N.to_uint _); try done; discriminate.
Qed.

Lemma dec_inj a b : 0 ≤ a → 0 ≤ b → dec a = dec b → a = b.
Proof.
  intros Ha Hb He. unfold dec in He.
  assert (Hu : N.to_uint (Z.to_N a) = N.to_uint (Z.to_N b)).
  { pose proof (NilZero.usu _ (to_uint_nonnil (Z.to_N a))) as H1.
    pose proof (NilZero.usu _ (to_uint_nonnil (Z.to_N b))) as H2.
    rewrite He in H1. congruence. }
  apply DecimalN.Unsigned.to_uint_inj in Hu. lia.
Qed.

(** Two texts that start with digits followed by a space agree on the
    digits and on the rest. *)
Lemma digits_space_inj (a b s t : string) :
  all_digits a = true → all_digits b = true →
  a +:+ String " " s = b +:+ String " " t → a = b ∧ s = t.
Proof.
  revert b. induction a as [|x a IH]; intros [|y b] Ha Hb He.
  - by injection He.
  - rewrite string_app_cons in He. injection He as <- _.
    cbn in Hb. discriminate.
  - rewrite string_app_cons in He. injection He as -> _.
    cbn in Ha. discriminate.
  - rewrite !string_app_cons in He. injection He as -> He.
    cbn in Ha, Hb. apply andb_true_iff in Ha as [_ Ha].
    apply andb_true_iff in Hb as [_ Hb].
    destruct (IH b Ha Hb He) as [-> ->]. done.
Qed.

(** The number and the unit [config_export_size] prints for a non-zero
    size. *)
Lemma config_export_size_parts (str : string) (size : Z) :
  size ≠ 0 →
  ∃ n j, (j < 5)%nat ∧ size = n * 1024 ^ Z.of_nat j
         ∧ config_export_size str size
           = str +:+ dec n +:+ String " " (String (nth j suffixes "B"%char) "").
Proof.
  intros Hnz. unfold config_export_size.
  rewrite (proj2 (Z.eqb_neq _ _) Hnz), size_loop_spec.
  pose proof (largest_exact_unit_divides size) as Hd.
  set (j := largest_exact_unit size) in *.
  exists (size / 1024 ^ Z.of_nat j), j.
  assert (Hj : (j < 5)%nat).
  { subst j. unfold largest_exact_unit. cbn [fold_left].
    repeat (match goal with |- context [if ?b then _ else _] =>
              destruct b end); lia. }
  split; [exact Hj|]. split; [|reflexivity].
  unfold divides_exactly in Hd. apply Z.eqb_eq in Hd.
  assert (0 < 1024 ^ Z.of_nat j) by (apply Z.pow_pos_nonneg; lia).
  rewrite Z.mul_comm. apply Z.div_exact; [lia|exact Hd].
Qed.

Lemma zero_not_digits_space (a s : string) :
  all_digits a = true → "0" = a +:+ String " " s → False.
Proof.
  intros Ha He. destruct a as [|x [|y a]]; try discriminate.
Qed.

Lemma config_export_size_inj (str : string) (a b : Z) :
  0 ≤ a → 0 ≤ b →
  config_export_size str a = config_export_size str b → a = b.
Proof.
  intros Ha Hb He.
  destruct (Z.eq_dec a 0) as [->|Hna], (Z.eq_dec b 0) as [->|Hnb]; [done|..].
  - destruct (config_export_size_parts str b Hnb) as (n & j & _ & _ & E).
    rewrite E in He. unfold config_export_size, str_append_c in He. cbn in He.
    apply string_app_inv_head in He.
    exfalso. eapply zero_not_digits_space; [|exact He]. apply dec_all_digits.
  - destruct (config_export_size_parts str a Hna) as (n & j & _ & _ & E).
    rewrite E in He. unfold config_export_size, str_append_c in He. cbn in He.
    apply string_app_inv_head in He. symmetry in He.
    exfalso. eapply zero_not_digits_space; [|exact He]. apply dec_all_digits.
  - destruct (config_export_size_parts str a Hna) as (n & j & Hj & -> & E1).
    destruct (config_export_size_parts str b Hnb) as (m & k & Hk & -> & E2).
    rewrite E1, E2 in He. apply string_app_inv_head in He.
    apply digits_space_inj in He as [Hd Hs]; try apply dec_all_digits.
    assert (j = k).
    { do 5 (destruct j as [|j]; [do 5 (destruct k as [|k]; [done|]); lia|]).
      lia. }
    subst k.
    assert (0 < 1024 ^ Z.of_nat j) by (apply Z.pow_pos_nonneg; lia).
    apply dec_inj in Hd; [by rewrite Hd|nia|nia].
Qed.

(** X1: two different sizes are never printed alike: the text
    [config_export_size] appends determines the size. *)
Theorem distinct_sizes_print_differently (str : string) (a b : Z) :
  0 ≤ a → 0 ≤ b → a ≠ b →
  config_export_size str a ≠ config_export_size str b.
Proof.
  intros Ha Hb Hne He. apply Hne.
  by apply (config_export_size_inj str).
Qed.

Lemma config_export_time_parts (str : string) (stamp : Z) :
  stamp ≠ 0 →
  ∃ n u m, (u, m) ∈ time_units ∧ stamp = n * m
           ∧ config_export_time str stamp
             = str +:+ dec n +:+ String " " u.
Proof.
  intros Hnz. unfold config_export_time.
  rewrite (proj2 (Z.eqb_neq _ _) Hnz). unfold time_units.
  destruct (Z.eqb_spec (stamp mod 60) 0) as [H1|H1].
  2:{ exists stamp, "secs", 1. split; [set_solver|]. split; [lia|done]. }
  destruct (Z.eqb_spec (stamp / 60 mod 60) 0) as [H2|H2].
  2:{ exists (stamp / 60), "mins", 60.
      split; [set_solver|]. split; [lia|done]. }
  destruct (Z.eqb_spec (stamp / 60 / 60 mod 24) 0) as [H3|H3].
  2:{ exists (stamp / 60 / 60), "hours", 3600.
      split; [set_solver|]. split; [lia|done]. }
  destruct (Z.eqb_spec (stamp / 60 / 60 / 24 mod 7) 0) as [H4|H4].
  2:{ exists (stamp / 60 / 60 / 24), "days", 86400.
      split; [set_solver|]. split; [lia|done]. }
  exists (stamp / 60 / 60 / 24 / 7), "weeks", 604800.
  split; [set_solver|]. split; [lia|done].
Qed.

Lemma config_export_time_msecs_parts (str : string) (stamp : Z) :
  stamp ≠ 0 →
  ∃ n u m, (u, m) ∈ msecs_units ∧ stamp = n * m
           ∧ config_export_time_msecs str stamp
             = str +:+ dec n +:+ String " " u.
Proof.
  intros Hnz. unfold config_export_time_msecs.
  destruct (Z.eqb_spec (stamp mod 1000) 0) as [H1|H1].
  2:{ exists stamp, "ms", 1. split; [left|]. split; [lia|done]. }
  destruct (config_export_time_parts str (stamp / 1000))
    as (n & u & m & Hin & Hs & E); [lia|].
  exists n, u, (m * 1000). split; [|split; [lia|exact E]].
  right. apply (list_elem_of_fmap_2 (λ um, (um.1, um.2 * 1000)) _ _ Hin).
Qed.

(** A table of units in which no name occurs twice. *)
Lemma units_functional (units : list (string * Z)) u m1 m2 :
  NoDup units.*1 → (u, m1) ∈ units → (u, m2) ∈ units → m1 = m2.
Proof.
  induction units as [|[v m] units IH]; cbn; intros Hnd H1 H2.
  - by apply elem_of_nil in H1.
  - apply NoDup_cons in Hnd as [Hv Hnd].
    apply elem_of_cons in H1 as [H1|H1]; apply elem_of_cons in H2 as [H2|H2].
    + congruence.
    + injection H1 as -> ->. exfalso. apply Hv.
      apply (list_elem_of_fmap_2 fst _ _ H2).
    + injection H2 as -> ->. exfalso. apply Hv.
      apply (list_elem_of_fmap_2 fst _ _ H1).
    + by apply IH.
Qed.

Lemma printed_with_unit_injective (units : list (string * Z))
    (str : string) (a b n1 n2 : Z) (u1 u2 : string) (m1 m2 : Z) :
  NoDup units.*1 → Forall (λ um, 0 < um.2) units →
  0 ≤ a → 0 ≤ b →
  (u1, m1) ∈ units → a = n1 * m1 →
  (u2, m2) ∈ units → b = n2 * m2 →
  str +:+ dec n1 +:+ String " " u1 = str +:+ dec n2 +:+ String " " u2 →
  a = b.
Proof.
  intros Hnd Hpos Ha Hb Hi1 -> Hi2 -> He.
  apply string_app_inv_head in He.
  apply digits_space_inj in He as [Hd <-]; try apply dec_all_digits.
  rewrite (units_functional units u1 m1 m2 Hnd Hi1 Hi2) in *.
  rewrite Forall_forall in Hpos. specialize (Hpos _ Hi2). cbn in Hpos.
  apply dec_inj in Hd; [by rewrite Hd|nia|nia].
Qed.

Lemma time_units_ok :
  NoDup time_units.*1 ∧ Forall (λ um, 0 < um.2) time_units.
Proof.
  split.
  - apply (bool_decide_unpack _). vm_compute. exact I.
  - repeat constructor.
Qed.

Lemma msecs_units_ok :
  NoDup msecs_units.*1 ∧ Forall (λ um, 0 < um.2) msecs_units.
Proof.
  split.
  - apply (bool_decide_unpack _). vm_compute. exact I.
  - repeat constructor.
Qed.

Lemma config_export_time_inj (str : string) (a b : Z) :
  0 ≤ a → 0 ≤ b →
  (config_export_time str a = config_export_time str b → a = b)
  ∧ (config_export_time_msecs str a = config_export_time_msecs str b
     → a = b).
Proof.
  intros Ha Hb. split; intros He.
  - destruct (Z.eq_dec a 0) as [->|Hna], (Z.eq_dec b 0) as [->|Hnb];
      [done|..].
    + destruct (config_export_time_parts str b Hnb) as (n & u & m & _ & _ & E).
      rewrite E in He. unfold config_export_time, str_append_c in He.
      cbn in He. apply string_app_inv_head in He.
      exfalso. eapply zero_not_digits_space; [|exact He].
      apply dec_all_digits.
    + destruct (config_export_time_parts str a Hna) as (n & u & m & _ & _ & E).
      rewrite E in He. unfold config_export_time, str_append_c in He.
      cbn in He. apply string_app_inv_head in He. symmetry in He.
      exfalso. eapply zero_not_digits_space; [|exact He].
      apply dec_all_digits.
    + destruct (config_export_time_parts str a Hna)
        as (n1 & u1 & m1 & Hi1 & Hs1 & E1).
      destruct (config_export_time_parts str b Hnb)
        as (n2 & u2 & m2 & Hi2 & Hs2 & E2).
      rewrite E1, E2 in He. destruct time_units_ok as [Hnd Hpos].
      exact (printed_with_unit_injective time_units str a b n1 n2 u1 u2
               m1 m2 Hnd Hpos Ha Hb Hi1 Hs1 Hi2 Hs2 He).
  - destruct (Z.eq_dec a 0) as [->|Hna], (Z.eq_dec b 0) as [->|Hnb];
      [done|..].
    + destruct (config_export_time_msecs_parts str b Hnb)
        as (n & u & m & _ & _ & E).
      rewrite E in He.
      unfold config_export_time_msecs, config_export_time, str_append_c
        in He.
      cbn in He. apply string_app_inv_head in He.
      exfalso. eapply zero_not_digits_space; [|exact He].
      apply dec_all_digits.
    + destruct (config_export_time_msecs_parts str a Hna)
        as (n & u & m & _ & _ & E).
      rewrite E in He.
      unfold config_export_time_msecs, config_export_time, str_append_c
        in He.
      cbn in He. apply string_app_inv_head in He. symmetry in He.
      exfalso. eapply zero_not_digits_space; [|exact He].
      apply dec_all_digits.
    + destruct (config_export_time_msecs_parts str a Hna)
        as (n1 & u1 & m1 & Hi1 & Hs1 & E1).
      destruct (config_export_time_msecs_parts str b Hnb)
        as (n2 & u2 & m2 & Hi2 & Hs2 & E2).
      rewrite E1, E2 in He. destruct msecs_units_ok as [Hnd Hpos].
      exact (printed_with_unit_injective msecs_units str a b n1 n2 u1 u2
               m1 m2 Hnd Hpos Ha Hb Hi1 Hs1 Hi2 Hs2 He).
Qed.

(** X2: two different durations are never printed alike, in seconds by
    [config_export_time] and in milliseconds by
    [config_export_time_msecs]. *)
Theorem distinct_durations_print_differently (str : string) (a b : Z) :
  0 ≤ a → 0 ≤ b → a ≠ b →
  config_export_time str a ≠ config_export_time str b
  ∧ config_export_time_msecs str a ≠ config_export_time_msecs str b.
Proof.
  intros Ha Hb Hne.
  destruct (config_export_time_inj str a b Ha Hb) as [H1 H2].
  split; intros He; apply Hne; auto.
Qed.

Section leaf.
Context `{ext : Externals}.

(** What the walker does for a field of a scalar type. *)
Lemma export_define_scalar_eq
    (recurse : setting_parser_info → bool → settings → changes
               → config_export_context → result config_export_context)
    info pu set cs def ctx :
  is_scalar (type def) = true →
  export_define recurse info pu set cs def ctx
  = (value ← field set (offset def);
     default_value ← read_default info def;
     change_value ← field cs (offset def);
     let '(dv, dd) :=
       hide_list_defaults ctx info pu def value default_value change_value
         (scope_dump_default (scope ctx) def change_value) in
     '(ret, str, dump) ← config_export_type "" value dv (type def) dd false;
     if ret : bool then
       Ok (set_section_idx
             (export_leaf (set_value ctx str) info pu def dump)
             (uint (section_idx ctx + 0)))
     else Fatal Unreached).
Proof.
  intros Hs. unfold export_define, read_default.
  destruct (field set (offset def)) as [v|]; [cbn|reflexivity].
  destruct (match defaults info with
            | Some d => _ | None => _ end) as [dv|]; [cbn|reflexivity].
  destruct (field cs (offset def)) as [c|]; [cbn|reflexivity].
  destruct (hide_list_defaults _ _ _ _ _ _ _ _) as [dv' dd].
  unfold export_value, str_truncate. rewrite substring_0_0.
  cbn [ctx_value set_value].
  destruct (type def); try discriminate;
    (destruct (config_export_type _ _ _ _ _ _) as [[[ret str] dump]|];
     [cbn|reflexivity]; destruct ret; [|reflexivity]; cbn;
     destruct (export_leaf_steady (set_value (set_value ctx "") str)
                 info pu def dump) as (_ & _ & Hi & _);
     rewrite Hi; reflexivity).
Qed.

Lemma export_leaf_context ctx info pu def dump :
  hash_table_lookup (keys ctx) (prefix ctx +:+ key def) = false →
  context (export_leaf ctx info pu def dump)
  = (context ctx
     ++ if (0 <? String.length (ctx_value ctx))%nat || dump
        then [(prefix ctx +:+ key def, ctx_value ctx,
               leaf_key_type info pu def)]
        else [])%list.
Proof.
  intros Hl. unfold export_leaf, leaf_key_type. rewrite Hl. cbn.
  destruct (_ || dump); [|by rewrite app_nil_r].
  by destruct (flag_set _ _).
Qed.

Lemma export_leaf_quiet ctx info pu def :
  ctx_value ctx = "" → export_leaf ctx info pu def false = ctx.
Proof. intros Hv. unfold export_leaf. by rewrite Hv. Qed.


Lemma dump_or_differs_true {A} (rd : setting_value → result A)
    (eqb : A → A → bool) (mk : A → setting_value) dd dv val r :
  (∀ x y, eqb x y = true → x = y) → (∀ v x, rd v = Ok x → v = mk x) →
  dump_or_differs rd eqb dd dv val = Ok r →
  dd = true ∨ dv ≠ Some (mk val) → r = true.
Proof.
  intros Heq Hrd Hd Hor. unfold dump_or_differs in Hd.
  destruct dd; [by injection Hd|].
  destruct dv as [d|]; [|by injection Hd].
  inv_bind Hd. injection Hd as <-. apply Hrd in Ha. subst d.
  destruct Hor as [|Hne]; [done|].
  destruct (eqb val a) eqn:E; [|done].
  apply Heq in E. congruence.
Qed.

Lemma string_app_nonempty_l (a b : string) : a ≠ "" → a +:+ b ≠ "".
Proof. destruct a; [done|]. by rewrite string_app_cons. Qed.

Lemma config_export_size_nonempty n : config_export_size "" n ≠ "".
Proof.
  unfold config_export_size. destruct (n =? 0); [done|].
  destruct (size_loop _ _ _) as [m c]. rewrite string_app_nil_l.
  apply string_app_nonempty_l, dec_nonempty.
Qed.

Lemma config_export_time_nonempty n : config_export_time "" n ≠ "".
Proof.
  destruct (Z.eq_dec n 0) as [->|Hn]; [done|].
  destruct (config_export_time_parts "" n Hn) as (m & u & k & _ & _ & ->).
  rewrite string_app_nil_l. apply string_app_nonempty_l, dec_nonempty.
Qed.

Lemma config_export_time_msecs_nonempty n :
  config_export_time_msecs "" n ≠ "".
Proof.
  destruct (Z.eq_dec n 0) as [->|Hn]; [done|].
  destruct (config_export_time_msecs_parts "" n Hn)
    as (m & u & k & _ & _ & ->).
  rewrite string_app_nil_l. apply string_app_nonempty_l, dec_nonempty.
Qed.

(** A number is formatted as under the forced default, to a non-empty
    text, whenever the default is forced or differs. *)
Lemma number_emitted v dv t dd r str dump :
  is_number t = true →
  config_export_type "" v dv t dd false = Ok (r, str, dump) →
  dd = true ∨ dv ≠ Some v →
  str ≠ ""
  ∧ config_export_type "" v None t true false = Ok (true, str, false)
  ∧ r = true ∧ dump = false.
Proof.
  intros Ht He Hor.
  destruct t; try discriminate; destruct v as [b|n|n|n|s|a|a];
    cbn in He; try discriminate; inv_bind He; injection He as <- <- <-.
  - eapply (dump_or_differs_true _ _ VBool) in Ha as ->; [| |
      by intros [] ?; cbn; try discriminate; intros [= <-]|exact Hor].
    + split; [by destruct b|done].
    + intros [] []; cbn; congruence.
  - eapply (dump_or_differs_true _ _ VUint) in Ha as ->; [|apply Z.eqb_eq|
      by intros [] ?; cbn; try discriminate; intros [= <-]|exact Hor].
    split; [|done]. rewrite string_app_nil_l. apply dec_nonempty.
  - eapply (dump_or_differs_true _ _ VUint) in Ha as ->; [|apply Z.eqb_eq|
      by intros [] ?; cbn; try discriminate; intros [= <-]|exact Hor].
    split; [|done]. done.
  - eapply (dump_or_differs_true _ _ VUint) in Ha as ->; [|apply Z.eqb_eq|
      by intros [] ?; cbn; try discriminate; intros [= <-]|exact Hor].
    split; [|done]. apply config_export_time_nonempty.
  - eapply (dump_or_differs_true _ _ VUint) in Ha as ->; [|apply Z.eqb_eq|
      by intros [] ?; cbn; try discriminate; intros [= <-]|exact Hor].
    split; [|done]. apply config_export_time_msecs_nonempty.
  - eapply (dump_or_differs_true _ _ VSize) in Ha as ->; [|apply Z.eqb_eq|
      by intros [] ?; cbn; try discriminate; intros [= <-]|exact Hor].
    split; [|done]. apply config_export_size_nonempty.
  - eapply (dump_or_differs_true _ _ VPort) in Ha as ->; [|apply Z.eqb_eq|
      by intros [] ?; cbn; try discriminate; intros [= <-]|exact Hor].
    split; [|done]. rewrite string_app_nil_l. apply dec_nonempty.
Qed.

End leaf.

Section scalars.
Context `{ext : Externals}.

Lemma hide_list_defaults_off ctx info pu def v dv c dd :
  negb pu
  || negb (flag_set (ctx_flags ctx) CONFIG_DUMP_FLAG_HIDE_LIST_DEFAULTS)
  = true →
  hide_list_defaults ctx info pu def v dv c dd = (dv, dd).
Proof. intros H. by rewrite hide_list_defaults_cases, H. Qed.

Lemma export_define_scalar_inv
    (recurse : setting_parser_info → bool → settings → changes
               → config_export_context → result config_export_context)
    info pu set cs def ctx ctx' :
  is_scalar (type def) = true →
  export_define recurse info pu set cs def ctx = Ok ctx' →
  ∃ v dv c dv' dd str dump,
    set !! offset def = Some v ∧ read_default info def = Ok dv
    ∧ cs !! offset def = Some c
    ∧ hide_list_defaults ctx info pu def v dv c
        (scope_dump_default (scope ctx) def c) = (dv', dd)
    ∧ config_export_type "" v dv' (type def) dd false = Ok (true, str, dump)
    ∧ ctx' = set_section_idx
               (export_leaf (set_value ctx str) info pu def dump)
               (uint (section_idx ctx + 0)).
Proof.
  intros Hs He. rewrite export_define_scalar_eq in He by exact Hs.
  inv_bind He. inv_bind He. inv_bind He.
  destruct (hide_list_defaults _ _ _ _ _ _ _ _) as [dv' dd] eqn:Hh.
  inv_bind He. destruct a2 as [[ret str] dump].
  destruct ret; [|discriminate]. injection He as <-.
  unfold field in Ha, Ha1.
  destruct (set !! offset def) as [v|] eqn:Hv; [|discriminate].
  destruct (cs !! offset def) as [c|] eqn:Hc; [|discriminate].
  injection Ha as <-. injection Ha1 as <-.
  exists v, a0, c, dv', dd, str, dump. done.
Qed.

(** The entries and the keys after the field's own entry. *)
Lemma export_define_scalar_context
    (recurse : setting_parser_info → bool → settings → changes
               → config_export_context → result config_export_context)
    info pu set cs def ctx ctx' :
  is_scalar (type def) = true →
  hash_table_lookup (keys ctx) (prefix ctx +:+ key def) = false →
  export_define recurse info pu set cs def ctx = Ok ctx' →
  ∃ v dv c dv' dd str dump,
    set !! offset def = Some v ∧ read_default info def = Ok dv
    ∧ cs !! offset def = Some c
    ∧ hide_list_defaults ctx info pu def v dv c
        (scope_dump_default (scope ctx) def c) = (dv', dd)
    ∧ config_export_type "" v dv' (type def) dd false = Ok (true, str, dump)
    ∧ context ctx'
      = (context ctx
         ++ if (0 <? String.length str)%nat || dump
            then [(prefix ctx +:+ key def, str, leaf_key_type info pu def)]
            else [])%list.
Proof.
  intros Hs Hl He.
  apply export_define_scalar_inv in He
    as (v & dv & c & dv' & dd & str & dump & Hv & Hd & Hc & Hh & Hf & ->);
    [|exact Hs].
  exists v, dv, c, dv', dd, str, dump. repeat (split; [done|]).
  cbn [context set_section_idx].
  by rewrite export_leaf_context.
Qed.

Lemma nonempty_length (s : string) : s ≠ "" → (0 <? String.length s)%nat = true.
Proof. by destruct s. Qed.

(** X3: a number that differs from its default is emitted under every
    scope. *)
Theorem changed_number_always_emitted
    (recurse : setting_parser_info → bool → settings → changes
               → config_export_context → result config_export_context)
    info pu set cs def ctx ctx' v :
  is_number (type def) = true →
  negb pu
  || negb (flag_set (ctx_flags ctx) CONFIG_DUMP_FLAG_HIDE_LIST_DEFAULTS)
  = true →
  set !! offset def = Some v →
  read_default info def ≠ Ok (Some v) →
  hash_table_lookup (keys ctx) (prefix ctx +:+ key def) = false →
  export_define recurse info pu set cs def ctx = Ok ctx' →
  ∃ text,
    text ≠ ""
    ∧ config_export_type "" v None (type def) true false
      = Ok (true, text, false)
    ∧ context ctx'
      = (context ctx
         ++ [(prefix ctx +:+ key def, text, leaf_key_type info pu def)])%list.
Proof.
  intros Ht Hoff Hv Hne Hl He.
  apply export_define_scalar_context in He
    as (v' & dv & c & dv' & dd & str & dump & Hv' & Hd & Hc & Hh & Hf & Hctx);
    [|by destruct (type def)|exact Hl].
  rewrite Hv in Hv'. injection Hv' as <-.
  rewrite hide_list_defaults_off in Hh by exact Hoff.
  injection Hh as <- <-.
  apply number_emitted in Hf as (Hn & Hf & _ & ->); [|exact Ht|].
  - exists str. split; [exact Hn|]. split; [exact Hf|].
    by rewrite Hctx, nonempty_length.
  - right. intros ->. by apply Hne.
Qed.

(** Under the forced default a number or a non-NULL string is formatted
    whatever the default, and emitted. *)
Lemma forced_emitted v dv t r str dump :
  emits_when_forced t v = true →
  config_export_type "" v dv t true false = Ok (r, str, dump) →
  config_export_type "" v None t true false = Ok (true, str, dump)
  ∧ r = true
  ∧ (0 <? String.length str)%nat || dump = true.
Proof.
  intros Hf He. destruct (is_number t) eqn:Hn.
  - apply number_emitted in He as (Hne & He & -> & ->);
      [|exact Hn|by left].
    split; [exact He|]. split; [done|]. by rewrite nonempty_length.
  - destruct t; try discriminate;
      destruct v as [b|n|n|n|[s|]|a|a]; try discriminate; cbn in He |- *.
    + inv_bind He. injection He as <- <- <-.
      split; [done|]. split; [done|]. apply orb_true_r.
    + inv_bind He. inv_bind He. rewrite Ha0. cbn.
      injection He as <- <- <-.
      split; [done|]. split; [done|]. apply orb_true_r.
Qed.

(** X4: in a unique list exported with HIDE_LIST_DEFAULTS, the name field
    and every field marked changed is formatted under the forced default,
    whatever the scope and the default of the schema. *)
Theorem changed_field_in_unique_list_forced
    (recurse : setting_parser_info → bool → settings → changes
               → config_export_context → result config_export_context)
    info set cs def ctx ctx' v c :
  flag_set (ctx_flags ctx) CONFIG_DUMP_FLAG_HIDE_LIST_DEFAULTS = true →
  set !! offset def = Some v →
  cs !! offset def = Some c →
  change_byte c ≠ 0 ∨ (offset def + 1)%nat = type_offset1 info →
  emits_when_forced (type def) v = true →
  hash_table_lookup (keys ctx) (prefix ctx +:+ key def) = false →
  export_define recurse info true set cs def ctx = Ok ctx' →
  ∃ text dump,
    config_export_type "" v None (type def) true false
    = Ok (true, text, dump)
    ∧ context ctx'
      = (context ctx
         ++ [(prefix ctx +:+ key def, text,
              leaf_key_type info true def)])%list.
Proof.
  intros Hh Hv Hc Hor Hf Hl He.
  apply export_define_scalar_context in He
    as (v' & dv & c' & dv' & dd & str & dump & Hv' & Hd & Hc' & Hhd & Hfm
        & Hctx); [| |exact Hl].
  2:{ destruct (type def), v as [| | | |[|]| |]; done. }
  rewrite Hv in Hv'. injection Hv' as <-.
  rewrite Hc in Hc'. injection Hc' as <-.
  rewrite hide_list_defaults_cases, Hh in Hhd. cbn in Hhd.
  assert (Hb : (change_byte c =? 0)
               && negb (offset def + 1 =? type_offset1 info)%nat = false).
  { destruct Hor as [Hn|Hn].
    - by rewrite (proj2 (Z.eqb_neq _ _) Hn).
    - rewrite (proj2 (Nat.eqb_eq _ _) Hn). apply andb_false_r. }
  rewrite Hb in Hhd. injection Hhd as <- <-.
  apply forced_emitted in Hfm as (Hfm & _ & Hem); [|exact Hf].
  exists str, dump. split; [exact Hfm|]. by rewrite Hctx, Hem.
Qed.


(** X6: a string field that is NULL is never emitted, whatever the scope,
    the flags and the default. *)
Theorem null_string_never_emitted
    (recurse : setting_parser_info → bool → settings → changes
               → config_export_context → result config_export_context)
    info pu set cs def ctx ctx' :
  type def = SET_STR ∨ type def = SET_STR_VARS →
  set !! offset def = Some (VStr None) →
  export_define recurse info pu set cs def ctx = Ok ctx' →
  context ctx' = context ctx ∧ keys ctx' = keys ctx.
Proof.
  intros Ht Hv He.
  apply export_define_scalar_inv in He
    as (v & dv & c & dv' & dd & str & dump & Hv' & Hd & Hc & Hhd & Hf & ->);
    [|by destruct Ht as [-> | ->]].
  rewrite Hv in Hv'. injection Hv' as <-.
  assert (str = "" ∧ dump = false) as [-> ->].
  { destruct Ht as [Ht|Ht]; rewrite Ht in Hf; cbn in Hf.
    - inv_bind Hf. by injection Hf as <- <-.
    - inv_bind Hf. by injection Hf as <- <-. }
  cbn [context keys set_section_idx].
  by rewrite export_leaf_quiet.
Qed.

Lemma strncmp_eq_app (s rest : string) :
  strncmp_eq s (s +:+ rest) (String.length s) = true.
Proof.
  induction s as [|c s IH]; [reflexivity|].
  rewrite string_app_cons. cbn. by rewrite Ascii.eqb_refl.
Qed.

(** A field at its default is not emitted when the default is not
    forced. *)
Lemma at_default_quiet t v dv r str dump :
  is_scalar t = true → at_default t v dv →
  config_export_type "" v (Some dv) t false false = Ok (r, str, dump) →
  str = "" ∧ dump = false.
Proof.
  intros Hs Hd He.
  destruct (decide (t = SET_STR_VARS)) as [->|Hn].
  - cbn in Hd. destruct Hd as [->|(d & -> & ->)]; cbn in He.
    + inv_bind He. by injection He as <- <- <-.
    + inv_bind He. cbn in He. unfold null_strcmp_ne in He.
      rewrite bool_decide_eq_true_2 in He by done.
      by injection He as <- <- <-.
  - destruct (decide (t = SET_ENUM)) as [->|Hn'].
    + destruct Hd as (s & rest & -> & ->).
      rewrite enum_emitted_iff_not_prefix in He.
      rewrite strncmp_eq_app in He.
      by injection He as <- <- <-.
    + assert (v = dv) as -> by (destruct t; done).
      apply self_default_not_emitted in He as [[= -> -> ->]|[= -> -> ->]];
        done.
Qed.

Lemma export_define_at_default
    (recurse : setting_parser_info → bool → settings → changes
               → config_export_context → result config_export_context)
    info set cs def ctx ctx' v dv :
  scope ctx = CONFIG_DUMP_SCOPE_CHANGED →
  set !! offset def = Some v →
  read_default info def = Ok (Some dv) →
  at_default (type def) v dv →
  export_define recurse info false set cs def ctx = Ok ctx' →
  context ctx' = context ctx ∧ keys ctx' = keys ctx
  ∧ scope ctx' = scope ctx.
Proof.
  intros Hsc Hv Hd Hat He.
  destruct (is_scalar (type def)) eqn:Hs.
  - apply export_define_scalar_inv in He
      as (v' & dv0 & c & dv' & dd & str & dump & Hv' & Hd' & Hc & Hhd & Hf
          & ->); [|exact Hs].
    rewrite Hv in Hv'. injection Hv' as <-.
    rewrite Hd in Hd'. injection Hd' as <-.
    rewrite hide_list_defaults_off, Hsc in Hhd by done. cbn in Hhd.
    injection Hhd as <- <-.
    apply at_default_quiet in Hf as [-> ->]; [|exact Hs|exact Hat].
    cbn [context keys scope set_section_idx].
    by rewrite export_leaf_quiet.
  - unfold export_define in He. inv_bind He.
    unfold field in Ha. rewrite Hv in Ha. injection Ha as <-.
    inv_bind He. inv_bind He.
    destruct (hide_list_defaults _ _ _ _ _ _ _ _) as [dv' dd].
    inv_bind He. destruct a1 as [[[c1 dump] children] cc].
    assert (c1 = set_value ctx "" ∧ dump = false ∧ children = [])
      as (-> & -> & ->).
    { unfold export_value, str_truncate in Ha1. rewrite substring_0_0 in Ha1.
      destruct (type def); try discriminate; cbn in Hat; try subst v;
        cbn in Ha1; by injection Ha1 as <- <- <- <-. }
    rewrite export_leaf_quiet in He by done.
    by injection He as <-.
Qed.

(** X7: a configuration whose fields all hold their defaults exports
    nothing under the scope CHANGED. *)
Theorem defaults_emit_nothing_under_changed info set cs ctx ctx' :
  scope ctx = CONFIG_DUMP_SCOPE_CHANGED →
  Forall (λ def, ∃ v dv, set !! offset def = Some v
                         ∧ read_default info def = Ok (Some dv)
                         ∧ at_default (type def) v dv) (defines info) →
  settings_export info false set cs ctx = Ok ctx' →
  context ctx' = context ctx ∧ keys ctx' = keys ctx.
Proof.
  rewrite settings_export_unfold.
  generalize (defines info) as defs. intros defs Hsc Hall. revert ctx Hsc.
  induction Hall as [|def defs (v & dv & Hv & Hd & Hat) _ IH];
    intros ctx Hsc He; cbn in He.
  - by injection He as <-.
  - inv_bind He.
    eapply export_define_at_default in Ha as (Hc1 & Hk1 & Hs1); eauto.
    apply IH in He as [Hc2 Hk2]; [|congruence]. split; congruence.
Qed.

(** X8: an enumeration without a default aborts the export unless the
    default is forced. *)
Theorem enum_without_default_aborts
    (recurse : setting_parser_info → bool → settings → changes
               → config_export_context → result config_export_context)
    info pu set cs def ctx s c :
  type def = SET_ENUM → defaults info = None →
  negb pu
  || negb (flag_set (ctx_flags ctx) CONFIG_DUMP_FLAG_HIDE_LIST_DEFAULTS)
  = true →
  set !! offset def = Some (VStr (Some s)) →
  cs !! offset def = Some c →
  export_define recurse info pu set cs def ctx
  = if scope_dump_default (scope ctx) def c
    then Ok (set_section_idx
               (export_leaf (set_value ctx s) info pu def false)
               (uint (section_idx ctx + 0)))
    else Fatal (AssertFailed "dval != NULL").
Proof.
  intros Ht Hd Hoff Hv Hc.
  rewrite export_define_scalar_eq by (by rewrite Ht).
  unfold field, read_default. rewrite Hv, Hd, Hc. cbn.
  rewrite hide_list_defaults_off by exact Hoff. rewrite Ht. cbn.
  by destruct (scope_dump_default _ _ _).
Qed.

End scalars.

Section prefixes.
Context `{ext : Externals}.

(** X9: a run of the walker restores the key prefix, leaves the scope, the
    flags and the module parsers of the context alone, forgets no
    recorded key and only appends to the entries already emitted. *)
Theorem settings_export_frame info pu set cs ctx ctx' :
  settings_export info pu set cs ctx = Ok ctx' →
  prefix ctx' = prefix ctx
  ∧ scope ctx' = scope ctx
  ∧ ctx_flags ctx' = ctx_flags ctx
  ∧ module_parsers ctx' = module_parsers ctx
  ∧ dup_module_parsers ctx' = dup_module_parsers ctx
  ∧ keys ctx ⊆ keys ctx'
  ∧ ∃ new, context ctx' = (context ctx ++ new)%list.
Proof.
  intros He. apply settings_export_tidy in He as [[] Hp]. done.
Qed.

Lemma under_app p q e : under (p +:+ q) e → under p e.
Proof.
  intros [rest Hr]. exists (q +:+ rest). by rewrite Hr, string_app_assoc.
Qed.

Lemma emits_under_refl c : emits_under c c.
Proof. split; [done|]. exists []. by rewrite app_nil_r. Qed.

Lemma emits_under_trans c1 c2 c3 :
  emits_under c1 c2 → emits_under c2 c3 → emits_under c1 c3.
Proof.
  intros [Hp1 (n1 & Hc1 & Hu1)] [Hp2 (n2 & Hc2 & Hu2)].
  split; [congruence|]. exists (n1 ++ n2)%list.
  split; [by rewrite Hc2, Hc1, app_assoc|].
  apply Forall_app. split; [done|]. by rewrite <- Hp1.
Qed.

(** A step that changes neither the prefix nor the entries. *)
Lemma emits_under_same c c' :
  prefix c' = prefix c → context c' = context c → emits_under c c'.
Proof.
  intros Hp Hc. split; [done|]. exists []. by rewrite app_nil_r.
Qed.

Lemma emits_under_callback c rest v t :
  emits_under c (callback c (prefix c +:+ rest) v t).
Proof.
  split; [done|]. eexists. split; [reflexivity|].
  constructor; [|constructor]. by exists rest.
Qed.

Lemma strlist_pairs_under def strings :
  ∀ c, emits_under c (strlist_pairs c def strings).
Proof.
  induction strings as [|x|k v rest IH] using pairs_ind; intros c; cbn;
    try apply emits_under_refl.
  eapply emits_under_trans; [|apply IH].
  apply emits_under_callback.
Qed.

Lemma export_value_under ctx def v dv cv dd ctx' dump children cc :
  export_value ctx def v dv cv dd = Ok (ctx', dump, children, cc) →
  emits_under ctx ctx'.
Proof.
  unfold export_value. intros Hv.
  destruct (type def);
    try (inv_bind Hv; destruct a as [[ret str] dump'];
         destruct ret; [|discriminate]; injection Hv as <- <- <- <-;
         by apply emits_under_same).
  - inv_bind Hv. destruct a as [children'|].
    2:{ injection Hv as <- <- <- <-. by apply emits_under_same. }
    inv_bind Hv. destruct (change_array cv) as [cc'|]; [|discriminate].
    inv_bind Hv. injection Hv as <- <- <- <-. by apply emits_under_same.
  - inv_bind Hv. destruct a as [children'|].
    2:{ injection Hv as <- <- <- <-. by apply emits_under_same. }
    inv_bind Hv. destruct (change_array cv) as [cc'|]; [|discriminate].
    inv_bind Hv. injection Hv as <- <- <- <-. by apply emits_under_same.
  - inv_bind Hv. destruct a as [strings|].
    2:{ injection Hv as <- <- <- <-. by apply emits_under_same. }
    destruct (hash_table_lookup _ _).
    { injection Hv as <- <- <- <-. by apply emits_under_same. }
    inv_bind Hv. injection Hv as <- <- <- <-.
    eapply emits_under_trans; [|apply strlist_pairs_under].
    destruct (flag_set _ _);
      (eapply emits_under_trans;
       [|refine (emits_under_callback _ (key def) _ _)]);
      by apply emits_under_same.
  - injection Hv as <- <- <- <-. by apply emits_under_same.
Qed.

Lemma export_leaf_under ctx info pu def dump :
  emits_under ctx (export_leaf ctx info pu def dump).
Proof.
  unfold export_leaf.
  destruct (_ || dump); [|apply emits_under_refl].
  destruct (negb _); [|apply emits_under_refl].
  eapply emits_under_trans; [apply emits_under_callback|].
  cbn. destruct (flag_set _ _); by apply emits_under_same.
Qed.

Lemma export_children_under
    (recurse : settings → changes → config_export_context
               → result config_export_context)
    def prefix_len start children :
  (∀ s ch c c', recurse s ch c = Ok c' → emits_under c c') →
  ∀ cc i ctx ctx',
    prefix_len = String.length (prefix ctx) →
    export_children recurse def prefix_len start i children cc ctx
    = Ok ctx' →
    emits_under ctx ctx'.
Proof.
  intros Hrec. induction children as [|child children IH];
    intros cc i ctx ctx' Hlen Hc; cbn in Hc.
  - injection Hc as <-. apply emits_under_refl.
  - destruct cc as [|change cc]; [discriminate|].
    inv_bind Hc. inv_bind Hc.
    apply setting_export_section_name_app in Ha as [name ->].
    apply Hrec in Ha0 as [Hp (new & Hn & Hu)]. cbn in Hp, Hn, Hu.
    unfold str_append_c in Hp, Hu. rewrite !string_app_assoc in Hp, Hu.
    assert (Hback : prefix (set_prefix a0 (str_truncate (prefix a0)
                              prefix_len)) = prefix ctx).
    { cbn. by rewrite Hlen, Hp, str_truncate_app. }
    apply IH in Hc; [|by rewrite Hback].
    eapply emits_under_trans; [|exact Hc].
    split; [exact Hback|]. exists new. split; [exact Hn|].
    eapply Forall_impl; [exact Hu|]. intros e. apply under_app.
Qed.

Lemma export_define_under
    (recurse : setting_parser_info → bool → settings → changes
               → config_export_context → result config_export_context)
    info pu set cs def ctx ctx' :
  (∀ li, list_info def = Some li →
         ∀ u s ch c c', recurse li u s ch c = Ok c' → emits_under c c') →
  export_define recurse info pu set cs def ctx = Ok ctx' →
  emits_under ctx ctx'.
Proof.
  intros Hrec Hd. unfold export_define in Hd.
  inv_bind Hd. inv_bind Hd. inv_bind Hd.
  destruct (hide_list_defaults _ _ _ _ _ _ _ _) as [dv dd].
  inv_bind Hd. destruct a2 as [[[c1 dump] children] cc].
  apply export_value_under in Ha2.
  pose proof (export_leaf_under c1 info pu def dump) as Hl.
  set (c2 := export_leaf c1 info pu def dump) in *.
  assert (H3 : emits_under ctx (set_section_idx c2
                  (uint (section_idx c2 + Z.of_nat (length children))))).
  { eapply emits_under_trans; [exact Ha2|].
    eapply emits_under_trans; [exact Hl|]. by apply emits_under_same. }
  destruct children as [|child children]; [by injection Hd as <-|].
  destruct (list_info def) as [li|] eqn:Hli; [|discriminate].
  apply export_children_under in Hd; [|by eapply Hrec|reflexivity].
  by eapply emits_under_trans.
Qed.

Lemma export_defines_under
    (recurse : setting_parser_info → bool → settings → changes
               → config_export_context → result config_export_context)
    info pu set cs defs :
  (∀ def li, def ∈ defs → list_info def = Some li →
         ∀ u s ch c c', recurse li u s ch c = Ok c' → emits_under c c') →
  ∀ ctx ctx',
    export_defines recurse info pu set cs defs ctx = Ok ctx' →
    emits_under ctx ctx'.
Proof.
  induction defs as [|def defs IH]; intros Hrec ctx ctx' Hd; cbn in Hd.
  - injection Hd as <-. apply emits_under_refl.
  - inv_bind Hd.
    apply export_define_under in Ha;
      [|intros li Hli; apply (Hrec def li); [left|exact Hli]].
    apply IH in Hd; [|intros d li Hin; apply (Hrec d li); by right].
    by eapply emits_under_trans.
Qed.

Lemma settings_export_under info :
  ∀ pu set cs ctx ctx',
    settings_export info pu set cs ctx = Ok ctx' → emits_under ctx ctx'.
Proof.
  induction info as [info IH] using setting_parser_info_ind'.
  intros pu set cs ctx ctx' He. rewrite settings_export_unfold in He.
  eapply export_defines_under; [|exact He].
  intros def li Hin Hli u s ch c c'. by apply (IH def li).
Qed.

(** X10: every entry a run of the walker emits has a key that extends the
    key prefix the run was started with. *)
Theorem emitted_keys_extend_prefix info pu set cs ctx ctx' :
  settings_export info pu set cs ctx = Ok ctx' →
  ∃ new, context ctx' = (context ctx ++ new)%list
         ∧ Forall (λ e, ∃ rest, entry_key e = prefix ctx +:+ rest) new.
Proof. intros He. by apply settings_export_under in He as [_ Hn]. Qed.

End prefixes.

Section reach.
Context `{ext : Externals}.

Lemma bind_not_unreached {A B} (r : result A) (k : A → result B) :
  is_unreached r = false →
  (∀ a, r = Ok a → is_unreached (k a) = false) →
  is_unreached (r ≫= k) = false.
Proof. destruct r as [a|f]; cbn; [auto|done]. Qed.

Lemma field_not_unreached {V} (s : gmap nat V) o :
  is_unreached (field s o) = false.
Proof. unfold field. by destruct (s !! o). Qed.

Lemma as_not_unreached v :
  is_unreached (as_bool v) = false ∧ is_unreached (as_size v) = false
  ∧ is_unreached (as_uint v) = false ∧ is_unreached (as_port v) = false
  ∧ is_unreached (as_str v) = false ∧ is_unreached (as_array v) = false
  ∧ is_unreached (as_strlist v) = false.
Proof. by destruct v. Qed.

Lemma i_assert_not_unreached what b : is_unreached (i_assert what b) = false.
Proof. by destruct b. Qed.

Lemma dump_or_differs_not_unreached {A} (rd : setting_value → result A)
    eqb dd dv val :
  (∀ v, is_unreached (rd v) = false) →
  is_unreached (dump_or_differs rd eqb dd dv val) = false.
Proof.
  intros Hrd. unfold dump_or_differs. destruct dd; [done|].
  destruct dv; [|done]. apply bind_not_unreached; [apply Hrd|done].
Qed.

Lemma deref_str_default_not_unreached dv :
  is_unreached (deref_str_default dv) = false.
Proof. destruct dv as [[]|]; done. Qed.

(** The formatter never ends in [i_unreached], and it returns TRUE for
    every scalar type. *)
Lemma returns_true_bind {A} (r : result A)
    (k : A → result (bool * string * bool)) :
  is_unreached r = false →
  (∀ a, match k a with
        | Ok (r, _, _) => r = true
        | Fatal f => f ≠ Unreached
        end) →
  match r ≫= k with
  | Ok (r, _, _) => r = true
  | Fatal f => f ≠ Unreached
  end.
Proof. destruct r as [a|[]]; cbn; try done. intros _ H. apply H. Qed.

Ltac returns_true := repeat first
  [ done
  | apply returns_true_bind;
    [first [ apply as_not_unreached
           | apply i_assert_not_unreached
           | apply deref_str_default_not_unreached
           | apply dump_or_differs_not_unreached; intros ?;
             apply as_not_unreached ]
    | intros ? ]
  | match goal with
    | |- match (match ?x with _ => _ end) with _ => _ end => destruct x
    | |- match (if ?x then _ else _) with _ => _ end => destruct x
    end ].

Lemma config_export_type_scalar str v dv t dd dump :
  is_scalar t = true →
  match config_export_type str v dv t dd dump with
  | Ok (r, _, _) => r = true
  | Fatal f => f ≠ Unreached
  end.
Proof.
  intros Ht. destruct t; try discriminate; unfold config_export_type;
    returns_true.
Qed.

Lemma setting_export_section_name_not_unreached str def set idx :
  is_unreached (setting_export_section_name str def set idx) = false.
Proof.
  unfold setting_export_section_name.
  destruct (negb _); [done|]. destruct (list_info def); [|done].
  apply bind_not_unreached; [apply i_assert_not_unreached|intros _ _].
  apply bind_not_unreached; [apply field_not_unreached|intros v _].
  apply bind_not_unreached; [apply as_not_unreached|intros [[|]|] _]; done.
Qed.

Lemma section_names_not_unreached def children :
  ∀ str s i, is_unreached (section_names str def children s i) = false.
Proof.
  induction children as [|child children IH]; intros str s i; cbn; [done|].
  apply bind_not_unreached;
    [apply setting_export_section_name_not_unreached|intros ? _; apply IH].
Qed.

Lemma export_value_not_unreached ctx def v dv cv dd :
  is_unreached (export_value ctx def v dv cv dd) = false.
Proof.
  unfold export_value.
  destruct (is_scalar (type def)) eqn:Hs.
  - pose proof (config_export_type_scalar
                  (ctx_value (set_value ctx (str_truncate (ctx_value ctx) 0)))
                  v dv (type def) dd false Hs) as Hr.
    destruct (type def); try discriminate;
      (destruct (config_export_type _ _ _ _ _ _) as [[[r s] d]|f];
       [subst r; reflexivity|by destruct f]).
  - destruct (type def); try discriminate.
    + apply bind_not_unreached; [apply as_not_unreached|intros [a|] _];
        [|done].
      apply bind_not_unreached; [apply section_names_not_unreached|].
      intros str _. destruct (change_array cv); [|done].
      apply bind_not_unreached; [apply i_assert_not_unreached|done].
    + apply bind_not_unreached; [apply as_not_unreached|intros [a|] _];
        [|done].
      apply bind_not_unreached; [apply section_names_not_unreached|].
      intros str _. destruct (change_array cv); [|done].
      apply bind_not_unreached; [apply i_assert_not_unreached|done].
    + apply bind_not_unreached; [apply as_not_unreached|intros [a|] _];
        [|done].
      destruct (hash_table_lookup _ _); [done|].
      apply bind_not_unreached; [apply i_assert_not_unreached|done].
    + done.
Qed.

Lemma export_children_not_unreached
    (recurse : settings → changes → config_export_context
               → result config_export_context)
    def prefix_len start children :
  (∀ s ch c, is_unreached (recurse s ch c) = false) →
  ∀ cc i ctx,
    is_unreached (export_children recurse def prefix_len start i
                    children cc ctx) = false.
Proof.
  intros Hrec. induction children as [|child children IH];
    intros cc i ctx; cbn; [done|].
  destruct cc as [|change cc]; [done|].
  apply bind_not_unreached;
    [apply setting_export_section_name_not_unreached|intros p _].
  apply bind_not_unreached; [apply Hrec|intros c _]. apply IH.
Qed.

Lemma export_define_not_unreached
    (recurse : setting_parser_info → bool → settings → changes
               → config_export_context → result config_export_context)
    info pu set cs def ctx :
  (∀ li, list_info def = Some li →
         ∀ u s ch c, is_unreached (recurse li u s ch c) = false) →
  is_unreached (export_define recurse info pu set cs def ctx) = false.
Proof.
  intros Hrec. unfold export_define.
  apply bind_not_unreached; [apply field_not_unreached|intros v _].
  apply bind_not_unreached.
  { destruct (defaults info); [|done].
    apply bind_not_unreached; [apply field_not_unreached|done]. }
  intros dv _.
  apply bind_not_unreached; [apply field_not_unreached|intros c _].
  destruct (hide_list_defaults _ _ _ _ _ _ _ _) as [dv' dd].
  apply bind_not_unreached; [apply export_value_not_unreached|].
  intros [[[c1 dump] children] cc] _.
  destruct children as [|child children]; [done|].
  destruct (list_info def) as [li|] eqn:Hli; [|done].
  apply export_children_not_unreached. intros s ch c0. by apply (Hrec li).
Qed.

Lemma export_defines_not_unreached
    (recurse : setting_parser_info → bool → settings → changes
               → config_export_context → result config_export_context)
    info pu set cs defs :
  (∀ def li, def ∈ defs → list_info def = Some li →
         ∀ u s ch c, is_unreached (recurse li u s ch c) = false) →
  ∀ ctx, is_unreached (export_defines recurse info pu set cs defs ctx)
         = false.
Proof.
  induction defs as [|def defs IH]; intros Hrec ctx; cbn; [done|].
  apply bind_not_unreached.
  - apply export_define_not_unreached.
    intros li Hli. apply (Hrec def li); [left|exact Hli].
  - intros c _. apply IH. intros d li Hin. apply (Hrec d li). by right.
Qed.

Lemma settings_export_not_unreached info :
  ∀ pu set cs ctx,
    is_unreached (settings_export info pu set cs ctx) = false.
Proof.
  induction info as [info IH] using setting_parser_info_ind'.
  intros pu set cs ctx. rewrite settings_export_unfold.
  apply export_defines_not_unreached.
  intros def li Hin Hli u s ch c. by apply (IH def li).
Qed.

Lemma config_export_parser_not_unreached ctx i idx :
  is_unreached (config_export_parser ctx i idx) = false.
Proof.
  unfold config_export_parser.
  destruct (module_parsers ctx ≫= _) as [mp|]; [|done].
  destruct (delayed_error mp); [done|].
  apply bind_not_unreached; [apply settings_export_not_unreached|done].
Qed.

Lemma export_parsers_from_not_unreached rest :
  ∀ i ctx idx, is_unreached (export_parsers_from rest i ctx idx) = false.
Proof.
  induction rest as [|mp rest IH]; intros i ctx idx; cbn; [done|].
  apply bind_not_unreached; [apply config_export_parser_not_unreached|].
  intros [[[r e] c] j] _. destruct (r <? 0); [done|apply IH].
Qed.

(** X11: the walker never ends in the [i_unreached] of line 283: the
    formatter is only called for the types it handles. *)
Theorem settings_export_never_unreached info pu set cs ctx _ctx idx :
  is_unreached (settings_export info pu set cs ctx) = false
  ∧ is_unreached (config_export_all_parsers _ctx idx) = false.
Proof.
  split; [apply settings_export_not_unreached|].
  unfold config_export_all_parsers. destruct _ctx as [c|]; [|done].
  destruct (module_parsers c) as [parsers|]; [|done].
  apply bind_not_unreached; [apply export_parsers_from_not_unreached|].
  intros [[[r c'] j] eff] _. done.
Qed.

End reach.

Section dedup.
Context `{ext : Externals}.

Lemma string_lists_free_defines info def :
  string_lists_free info = true → def ∈ defines info →
  type def ≠ SET_STRLIST
  ∧ ∀ li, list_info def = Some li → string_lists_free li = true.
Proof.
  intros Hf Hin. destruct info as [defs dflt to1]. cbn in Hf, Hin.
  rewrite forallb_forall in Hf. apply list_elem_of_In in Hin.
  specialize (Hf _ Hin). apply andb_true_iff in Hf as [Ht Hl].
  split.
  - intros E. rewrite E in Ht. done.
  - intros li Hli. by rewrite Hli in Hl.
Qed.

Lemma keeps_recorded_refl c : keeps_recorded c c.
Proof. done. Qed.

Lemma keeps_recorded_trans c1 c2 c3 :
  keeps_recorded c1 c2 → keeps_recorded c2 c3 → keeps_recorded c1 c3.
Proof. intros [Hf1 Hr1] [Hf2 Hr2]. split; [congruence|auto]. Qed.

Lemma keeps_recorded_same c c' :
  ctx_flags c' = ctx_flags c → context c' = context c → keys c' = keys c →
  keeps_recorded c c'.
Proof.
  intros Hf Hc Hk. split; [done|]. unfold recorded. by rewrite Hc, Hk.
Qed.

Lemma export_value_keeps_recorded ctx def v dv cv dd ctx' dump children cc :
  type def ≠ SET_STRLIST →
  export_value ctx def v dv cv dd = Ok (ctx', dump, children, cc) →
  keeps_recorded ctx ctx'.
Proof.
  unfold export_value. intros Ht Hv.
  destruct (type def); try done;
    try (inv_bind Hv; destruct a as [[ret str] dump'];
         destruct ret; [|discriminate]; injection Hv as <- <- <- <-;
         by apply keeps_recorded_same).
  - inv_bind Hv. destruct a as [children'|].
    2:{ injection Hv as <- <- <- <-. by apply keeps_recorded_same. }
    inv_bind Hv. destruct (change_array cv) as [cc'|]; [|discriminate].
    inv_bind Hv. injection Hv as <- <- <- <-. by apply keeps_recorded_same.
  - inv_bind Hv. destruct a as [children'|].
    2:{ injection Hv as <- <- <- <-. by apply keeps_recorded_same. }
    inv_bind Hv. destruct (change_array cv) as [cc'|]; [|discriminate].
    inv_bind Hv. injection Hv as <- <- <- <-. by apply keeps_recorded_same.
  - injection Hv as <- <- <- <-. by apply keeps_recorded_same.
Qed.

Lemma export_leaf_keeps_recorded ctx info pu def dump :
  flag_set (ctx_flags ctx) CONFIG_DUMP_FLAG_DEDUPLICATE_KEYS = true →
  keeps_recorded ctx (export_leaf ctx info pu def dump).
Proof.
  intros Hf. unfold export_leaf.
  destruct (_ || dump); [|apply keeps_recorded_refl].
  destruct (hash_table_lookup _ _) eqn:Hl; [apply keeps_recorded_refl|].
  cbn [negb ctx_flags callback]. rewrite Hf.
  split; [done|]. intros [Hnd Hin]. unfold recorded. cbn.
  unfold hash_table_lookup in Hl. apply bool_decide_eq_false in Hl.
  split.
  - rewrite fmap_app. apply NoDup_app. split; [exact Hnd|].
    split; [|apply NoDup_singleton].
    intros k Hk Hk'. cbn in Hk'. apply list_elem_of_singleton in Hk'.
    subst k. apply list_elem_of_fmap in Hk as (e & He & Hein).
    apply Hl. rewrite He. by apply Hin.
  - intros e [He|He]%elem_of_app; unfold hash_table_insert.
    + apply Hin in He. set_solver.
    + apply list_elem_of_singleton in He. subst e. cbn. set_solver.
Qed.

Lemma export_children_keeps_recorded
    (recurse : settings → changes → config_export_context
               → result config_export_context)
    def prefix_len start children :
  (∀ s ch c c',
     flag_set (ctx_flags c) CONFIG_DUMP_FLAG_DEDUPLICATE_KEYS = true →
     recurse s ch c = Ok c' → keeps_recorded c c') →
  ∀ cc i ctx ctx',
    flag_set (ctx_flags ctx) CONFIG_DUMP_FLAG_DEDUPLICATE_KEYS = true →
    export_children recurse def prefix_len start i children cc ctx
    = Ok ctx' →
    keeps_recorded ctx ctx'.
Proof.
  intros Hrec. induction children as [|child children IH];
    intros cc i ctx ctx' Hf Hc; cbn in Hc.
  - injection Hc as <-. apply keeps_recorded_refl.
  - destruct cc as [|change cc]; [discriminate|].
    inv_bind Hc. inv_bind Hc. apply Hrec in Ha0 as Hk; [|exact Hf].
    apply IH in Hc; [|cbn; by rewrite (proj1 Hk)].
    eapply keeps_recorded_trans; [|eapply keeps_recorded_trans;
                                    [exact Hk|]].
    + by apply keeps_recorded_same.
    + eapply keeps_recorded_trans; [|exact Hc].
      by apply keeps_recorded_same.
Qed.

Lemma export_define_keeps_recorded
    (recurse : setting_parser_info → bool → settings → changes
               → config_export_context → result config_export_context)
    info pu set cs def ctx ctx' :
  flag_set (ctx_flags ctx) CONFIG_DUMP_FLAG_DEDUPLICATE_KEYS = true →
  type def ≠ SET_STRLIST →
  (∀ li, list_info def = Some li →
         ∀ u s ch c c',
           flag_set (ctx_flags c) CONFIG_DUMP_FLAG_DEDUPLICATE_KEYS = true →
           recurse li u s ch c = Ok c' → keeps_recorded c c') →
  export_define recurse info pu set cs def ctx = Ok ctx' →
  keeps_recorded ctx ctx'.
Proof.
  intros Hf Ht Hrec Hd. unfold export_define in Hd.
  inv_bind Hd. inv_bind Hd. inv_bind Hd.
  destruct (hide_list_defaults _ _ _ _ _ _ _ _) as [dv dd].
  inv_bind Hd. destruct a2 as [[[c1 dump] children] cc].
  apply export_value_keeps_recorded in Ha2 as H1; [|exact Ht].
  assert (Hf1 : flag_set (ctx_flags c1) CONFIG_DUMP_FLAG_DEDUPLICATE_KEYS
                = true) by (by rewrite (proj1 H1)).
  pose proof (export_leaf_keeps_recorded c1 info pu def dump Hf1) as H2.
  set (c2 := export_leaf c1 info pu def dump) in *.
  assert (H3 : keeps_recorded ctx (set_section_idx c2
                  (uint (section_idx c2 + Z.of_nat (length children))))).
  { eapply keeps_recorded_trans; [exact H1|].
    eapply keeps_recorded_trans; [exact H2|].
    by apply keeps_recorded_same. }
  destruct children as [|child children]; [by injection Hd as <-|].
  destruct (list_info def) as [li|] eqn:Hli; [|discriminate].
  eapply keeps_recorded_trans; [exact H3|].
  eapply export_children_keeps_recorded; [|by rewrite (proj1 H3)|exact Hd].
  intros s ch c c'. by apply (Hrec li).
Qed.

Lemma export_defines_keeps_recorded
    (recurse : setting_parser_info → bool → settings → changes
               → config_export_context → result config_export_context)
    info pu set cs defs :
  Forall (λ def, type def ≠ SET_STRLIST) defs →
  (∀ def li, def ∈ defs → list_info def = Some li →
         ∀ u s ch c c',
           flag_set (ctx_flags c) CONFIG_DUMP_FLAG_DEDUPLICATE_KEYS = true →
           recurse li u s ch c = Ok c' → keeps_recorded c c') →
  ∀ ctx ctx',
    flag_set (ctx_flags ctx) CONFIG_DUMP_FLAG_DEDUPLICATE_KEYS = true →
    export_defines recurse info pu set cs defs ctx = Ok ctx' →
    keeps_recorded ctx ctx'.
Proof.
  induction defs as [|def defs IH]; intros Hall Hrec ctx ctx' Hf Hd;
    cbn in Hd.
  - injection Hd as <-. apply keeps_recorded_refl.
  - apply Forall_cons in Hall as [Ht Hall]. inv_bind Hd.
    apply export_define_keeps_recorded in Ha as H1;
      [|exact Hf|exact Ht
       |intros li Hli; apply (Hrec def li); [left|exact Hli]].
    apply IH in Hd as H2;
      [|exact Hall|intros d li Hin; apply (Hrec d li); by right
       |by rewrite (proj1 H1)].
    by eapply keeps_recorded_trans.
Qed.

Lemma settings_export_keeps_recorded info :
  string_lists_free info = true →
  ∀ pu set cs ctx ctx',
    flag_set (ctx_flags ctx) CONFIG_DUMP_FLAG_DEDUPLICATE_KEYS = true →
    settings_export info pu set cs ctx = Ok ctx' →
    keeps_recorded ctx ctx'.
Proof.
  induction info as [info IH] using setting_parser_info_ind'.
  intros Hfree pu set cs ctx ctx' Hf He. rewrite settings_export_unfold in He.
  eapply export_defines_keeps_recorded; [| |exact Hf|exact He].
  - apply Forall_forall. intros def Hin.
    by apply (string_lists_free_defines info def Hfree).
  - intros def li Hin Hli u s ch c c' Hfc. apply (IH def li Hin Hli).
    + by apply (string_lists_free_defines info def Hfree Hin).
    + exact Hfc.
Qed.

(** X12: with DEDUPLICATE_KEYS set, a run of the walker over a schema
    without string lists emits no key twice, and records every key it
    emits. *)
Theorem dedup_emits_each_key_once info pu set cs ctx ctx' :
  flag_set (ctx_flags ctx) CONFIG_DUMP_FLAG_DEDUPLICATE_KEYS = true →
  string_lists_free info = true →
  NoDup (entry_key <$> context ctx) →
  (∀ e, e ∈ context ctx → entry_key e ∈ keys ctx) →
  settings_export info pu set cs ctx = Ok ctx' →
  NoDup (entry_key <$> context ctx')
  ∧ ∀ e, e ∈ context ctx' → entry_key e ∈ keys ctx'.
Proof.
  intros Hf Hfree Hnd Hin He.
  apply settings_export_keeps_recorded in He as [_ Hr]; [|done..].
  by apply Hr.
Qed.

End dedup.

Section lists.
Context `{ext : Externals}.

(** X13: a list that has no array, or an empty one, leaves no trace: no
    entry, no key, no section index. *)
Theorem empty_list_emits_nothing
    (recurse : setting_parser_info → bool → settings → changes
               → config_export_context → result config_export_context)
    info pu set cs def ctx ctx' a :
  SETTING_TYPE_IS_DEFLIST (type def) = true →
  set !! offset def = Some (VArray a) →
  a = None ∨ a = Some [] →
  export_define recurse info pu set cs def ctx = Ok ctx' →
  context ctx' = context ctx ∧ keys ctx' = keys ctx
  ∧ assigned ctx' = assigned ctx
  ∧ section_idx ctx' = uint (section_idx ctx).
Proof.
  intros Ht Hv Ha He. unfold export_define in He.
  inv_bind He. unfold field in Ha0. rewrite Hv in Ha0. injection Ha0 as <-.
  inv_bind He. inv_bind He.
  destruct (hide_list_defaults _ _ _ _ _ _ _ _) as [dv dd].
  inv_bind He. destruct a2 as [[[c1 dump] children] cc].
  assert (c1 = set_value ctx "" ∧ dump = false ∧ children = [])
    as (-> & -> & ->).
  { unfold export_value, str_truncate in Ha2. rewrite substring_0_0 in Ha2.
    destruct (type def); try discriminate; destruct Ha as [-> | ->];
      cbn in Ha2; try (by injection Ha2 as <- <- <- <-).
    all: destruct (change_array a1) as [cc'|]; [|discriminate];
      inv_bind Ha2; by injection Ha2 as <- <- <- <-. }
  rewrite export_leaf_quiet in He by done.
  injection He as <-. cbn. by rewrite Z.add_0_r.
Qed.

(** X14: a string list with an odd number of strings aborts the export,
    unless its key was recorded before: then the list is skipped before
    its length is looked at. *)
Theorem odd_string_list_aborts
    (recurse : setting_parser_info → bool → settings → changes
               → config_export_context → result config_export_context)
    info pu set cs def ctx l c dv :
  type def = SET_STRLIST →
  set !! offset def = Some (VStrlist (Some l)) →
  Z.of_nat (length l) mod 2 = 1 →
  cs !! offset def = Some c →
  read_default info def = Ok dv →
  export_define recurse info pu set cs def ctx
  = if hash_table_lookup (keys ctx) (prefix ctx +:+ key def)
    then Ok (set_section_idx (set_value ctx "") (uint (section_idx ctx + 0)))
    else Fatal (AssertFailed "count % 2 == 0").
Proof.
  intros Ht Hv Hodd Hc Hd. unfold export_define, read_default, field in *.
  rewrite Hv. cbn. rewrite Hd. cbn. rewrite Hc. cbn.
  destruct (hide_list_defaults _ _ _ _ _ _ _ _) as [dv' dd].
  unfold export_value, str_truncate. rewrite Ht, substring_0_0. cbn.
  destruct (hash_table_lookup _ _); cbn.
  - reflexivity.
  - by rewrite Hodd.
Qed.







End lists.

(** ** Section identifiers in the output (C3) *)

Section identifiers.
Context `{ext : Externals}.








End identifiers.

Section session.
Context `{ext : Externals} `{col : Collaborators}.

(** X16: the two getters read their setting from the first module parser
    whose root is the schema of the master service, whatever follows it;
    without such a parser they end in [i_unreached]. *)
Theorem master_service_values_from_first_parser ctx parsers :
  module_parsers ctx = Some parsers →
  (∀ pre mp post,
     parsers = (pre ++ mp :: post)%list →
     Forall (λ p, is_master_service_setting_parser_info (root p) = false)
            pre →
     is_master_service_setting_parser_info (root mp) = true →
     config_export_get_import_environment ctx
     = master_service_setting mp "import_environment"
     ∧ config_export_get_base_dir ctx
       = master_service_setting mp "base_dir")
  ∧ (Forall (λ p, is_master_service_setting_parser_info (root p) = false)
            parsers →
     config_export_get_import_environment ctx = Fatal Unreached
     ∧ config_export_get_base_dir ctx = Fatal Unreached).
Proof.
  intros Hp.
  unfold config_export_get_import_environment, config_export_get_base_dir.
  rewrite Hp. clear Hp. split.
  - intros pre mp post -> Hpre Hm.
    induction Hpre as [|p pre Hn _ IH]; cbn.
    + by rewrite Hm.
    + rewrite Hn. exact IH.
  - intros Hall. induction Hall as [|p l Hn _ IH]; cbn; [done|].
    by rewrite Hn.
Qed.

Lemma teardown_frees ctx :
  filter is_parsers_free (teardown ctx)
  = match dup_module_parsers ctx with
    | Some dup => [config_module_parsers_free dup]
    | None => []
    end.
Proof. unfold teardown. by destruct (dup_module_parsers ctx). Qed.

Lemma all_parsers_frees ctx idx out :
  config_export_all_parsers (Some ctx) idx = Ok out →
  filter is_parsers_free (effects out)
  = match dup_module_parsers ctx with
    | Some dup => [config_module_parsers_free dup]
    | None => []
    end
  ∧ handle out = None.
Proof.
  rewrite config_export_all_parsers_spec. unfold spec_export_all.
  destruct (module_parsers ctx) as [parsers|]; [|discriminate].
  intros Ho. inv_bind Ho. destruct a as [[c j] e]. injection Ho as <-.
  cbn [effects handle]. split; [|done].
  rewrite filter_app, teardown_frees. by destruct e.
Qed.

(** X17: module parsers duplicated into the context are released exactly
    once when the export of all parsers ends, with or without a deferred
    error; module parsers the caller attached are never released. *)
Theorem duplicated_parsers_released_once sc fl idx :
  (∀ config out,
     config_export_all_parsers
       (Some (config_export_dup_module_parsers (config_export_init sc fl)
                config)) idx = Ok out →
     filter is_parsers_free (effects out)
     = [config_module_parsers_free
          (config_filter_parsers_dup
             (config_parsed_get_global_filter_parser config))]
     ∧ handle out = None)
  ∧ (∀ parsers out,
       config_export_all_parsers
         (Some (config_export_set_module_parsers (config_export_init sc fl)
                  parsers)) idx = Ok out →
       filter is_parsers_free (effects out) = []
       ∧ handle out = None)
  ∧ (∀ config parsers out,
       config_export_all_parsers
         (Some (config_export_set_module_parsers
                  (config_export_dup_module_parsers
                     (config_export_init sc fl) config) parsers)) idx
       = Ok out →
       filter is_parsers_free (effects out)
       = [config_module_parsers_free
            (config_filter_parsers_dup
               (config_parsed_get_global_filter_parser config))]).
Proof.
  split; [|split].
  - intros config out Ho. by apply all_parsers_frees in Ho.
  - intros parsers out Ho. by apply all_parsers_frees in Ho.
  - intros config parsers out Ho. by apply all_parsers_frees in Ho as [? _].
Qed.

(** X18: duplicating the module parsers of the global filter keeps their
    number, their roots and their deferred errors, position by position:
    the export of a duplicated parser fails with the deferred error of
    the original. *)
Theorem duplicate_keeps_roots_and_errors ctx config :
  let parsers :=
    filter_module_parsers (config_parsed_get_global_filter_parser config) in
  let ctx' := config_export_dup_module_parsers ctx config in
  config_export_get_parser_count ctx' = Ok (length parsers)
  ∧ (∀ i, config_export_parser_get_info ctx' i
          = config_export_parser_get_info
              (config_export_set_module_parsers ctx parsers) i)
  ∧ (∀ i mp e idx,
       parsers !! i = Some mp → delayed_error mp = Some e →
       config_export_parser ctx' i idx = Ok (-1, Some e, ctx', idx)).
Proof.
  cbn zeta. split; [|split].
  - unfold config_export_get_parser_count. cbn.
    unfold config_filter_parsers_dup. by rewrite length_map.
  - intros i. unfold config_export_parser_get_info. cbn.
    unfold config_filter_parsers_dup.
    rewrite length_map, list_lookup_fmap.
    by destruct (_ !! i).
  - intros i mp e idx Hl He. unfold config_export_parser. cbn.
    unfold config_filter_parsers_dup.
    rewrite list_lookup_fmap, Hl. cbn. by rewrite He.
Qed.

End session.

Section totality.
Context `{ext : Externals}.

Lemma well_formed_unfold info set cs :
  well_formed info set cs
  = well_formed_defines well_formed info set cs (defines info).
Proof. destruct info; reflexivity. Qed.

(** The formatter completes on a value that fits, compared with a default
    that fits or with the value itself. *)
Lemma config_export_type_total t v dv dd :
  is_scalar t = true → value_fits t v →
  match dv with
  | None => dd = true ∨ t ≠ SET_ENUM
  | Some d => default_fits t d
  end →
  ∃ str dump, config_export_type "" v dv t dd false = Ok (true, str, dump).
Proof.
  intros Hs Hv Hd.
  destruct t; try discriminate; cbn in Hv.
  1-7: destruct Hv as [x ->];
    (destruct dv as [d|]; [destruct Hd as [x' ->]|]);
    cbn; destruct dd; cbn; eauto.
  - destruct Hv as [[s|] ->];
      (destruct dv as [d|]; [destruct Hd as [s' ->]|]);
      cbn; try destruct (_ || _); eauto.
  - destruct Hv as [->|[s ->]];
      (destruct dv as [d|]; [destruct Hd as [s' ->]|]); cbn;
      rewrite ?Ascii.eqb_refl; cbn; try destruct (_ || _); eauto.
  - destruct Hv as [s ->]. destruct dd; [cbn; eauto|].
    destruct dv as [d|]; [destruct Hd as [s' ->]|by destruct Hd].
    cbn. destruct (_ || _); eauto.
Qed.

Lemma default_fits_value t v :
  is_scalar t = true → value_fits t v → default_fits t v.
Proof.
  intros Hs Hv. destruct t; try discriminate; cbn in *; try done;
    try (destruct Hv as [->|[s ->]]); eauto.
Qed.

Lemma setting_export_section_name_total str def child idx :
  (type def = SET_DEFLIST_UNIQUE →
   ∃ li, list_info def = Some li ∧ type_offset1 li ≠ 0%nat
         ∧ ∃ name, child !! (type_offset1 li - 1)%nat = Some (VStr name)) →
  ∃ p, setting_export_section_name str def child idx = Ok p.
Proof.
  intros Hu. unfold setting_export_section_name.
  destruct (decide (type def = SET_DEFLIST_UNIQUE)) as [Ht|Ht].
  - rewrite bool_decide_eq_true_2 by exact Ht. cbn.
    destruct (Hu Ht) as (li & -> & Hn & name & Hc).
    rewrite (proj2 (Nat.eqb_neq _ _) Hn). cbn. unfold field. rewrite Hc. cbn.
    destruct name as [[|]|]; eauto.
  - rewrite bool_decide_eq_false_2 by exact Ht. cbn. eauto.
Qed.

Lemma section_names_total def children :
  (type def = SET_DEFLIST_UNIQUE → children ≠ [] →
   ∃ li, list_info def = Some li ∧ type_offset1 li ≠ 0%nat
         ∧ Forall (λ child, ∃ name,
                     child !! (type_offset1 li - 1)%nat = Some (VStr name))
                  children) →
  ∀ str s i, ∃ str', section_names str def children s i = Ok str'.
Proof.
  induction children as [|child children IH]; intros Hu str s i; cbn; eauto.
  destruct (setting_export_section_name_total
              (if 0 <? i then str_append_c str " " else str) def child
              (uint (s + i))) as [p ->].
  { intros Ht. destruct (Hu Ht) as (li & Hli & Hn & Hall); [done|].
    apply Forall_cons in Hall as [Hc _]. eauto. }
  cbn. apply IH. intros Ht Hne.
  destruct (Hu Ht) as (li & Hli & Hn & Hall); [done|].
  apply Forall_cons in Hall as [_ Hall]. eauto.
Qed.

Lemma export_children_total
    (recurse : settings → changes → config_export_context
               → result config_export_context)
    (wf : settings → changes → Prop)
    def prefix_len start children cc :
  (∀ s ch c, wf s ch → ∃ c', recurse s ch c = Ok c') →
  (type def = SET_DEFLIST_UNIQUE → children ≠ [] →
   ∃ li, list_info def = Some li ∧ type_offset1 li ≠ 0%nat
         ∧ Forall (λ child, ∃ name,
                     child !! (type_offset1 li - 1)%nat = Some (VStr name))
                  children) →
  Forall2 wf children cc →
  ∀ i ctx, ∃ ctx',
    export_children recurse def prefix_len start i children cc ctx = Ok ctx'.
Proof.
  intros Hrec Hu Hall. induction Hall as [|child change children cc Hw _ IH];
    intros i ctx; cbn; eauto.
  destruct (setting_export_section_name_total
              (str_append_c (prefix ctx +:+ key def) SETTINGS_SEPARATOR)
              def child (uint (start + i))) as [p ->].
  { intros Ht. destruct (Hu Ht) as (li & Hli & Hn & Hf); [done|].
    apply Forall_cons in Hf as [Hc _]. eauto. }
  cbn.
  destruct (Hrec child change
              (set_prefix (note_assigned ctx (uint (start + i)))
                 (str_append_c p SETTINGS_SEPARATOR)) Hw) as [c' ->].
  cbn. apply IH. intros Ht Hne.
  destruct (Hu Ht) as (li & Hli & Hn & Hf); [done|].
  apply Forall_cons in Hf as [_ Hf]. eauto.
Qed.

Lemma export_define_total
    (recurse : setting_parser_info → bool → settings → changes
               → config_export_context → result config_export_context)
    (wf : setting_parser_info → settings → changes → Prop)
    info pu set cs def ctx :
  (∀ li, list_info def = Some li →
         ∀ u s ch c, wf li s ch → ∃ c', recurse li u s ch c = Ok c') →
  well_formed_define wf info set cs def →
  ∃ ctx', export_define recurse info pu set cs def ctx = Ok ctx'.
Proof.
  intros Hrec (v & c & Hv & Hc & Hfit & Hdef & Hlist).
  destruct (is_scalar (type def)) eqn:Hs.
  - rewrite export_define_scalar_eq by exact Hs.
    unfold field, read_default. rewrite Hv, Hc. cbn.
    assert (∃ dv, match defaults info with
                  | Some d => v0 ← field d (offset def); Ok (Some v0)
                  | None => Ok None
                  end = Ok dv
                  ∧ match dv with
                    | None => type def ≠ SET_ENUM
                    | Some d => default_fits (type def) d
                    end) as (dv & -> & Hdv).
    { destruct (defaults info) as [d|]; [|eauto].
      destruct Hdef as (dv & Hd & Hdf). unfold field. rewrite Hd. cbn. eauto. }
    cbn. rewrite hide_list_defaults_cases.
    set (dd := scope_dump_default (scope ctx) def c).
    destruct (config_export_type_total (type def) v
                (if negb pu
                    || negb (flag_set (ctx_flags ctx)
                               CONFIG_DUMP_FLAG_HIDE_LIST_DEFAULTS)
                 then dv
                 else if (change_byte c =? 0)
                         && negb (offset def + 1 =? type_offset1 info)%nat
                      then Some v else dv)
                (if negb pu
                    || negb (flag_set (ctx_flags ctx)
                               CONFIG_DUMP_FLAG_HIDE_LIST_DEFAULTS)
                 then dd
                 else if (change_byte c =? 0)
                         && negb (offset def + 1 =? type_offset1 info)%nat
                      then dd else true) Hs Hfit) as (str & dump & He).
    { destruct (negb pu || _).
      - destruct dv; [done|by right].
      - destruct (_ && _).
        + by apply default_fits_value.
        + destruct dv; [done|by left]. }
    destruct (negb pu || _); [|destruct (_ && _)]; rewrite He; cbn; eauto.
  - unfold export_define, field. rewrite Hv, Hc. cbn.
    assert (∃ dv, match defaults info with
                  | Some d => v0 ← match d !! offset def with
                                   | Some v1 => Ok v1
                                   | None => Fatal InvalidRead
                                   end; Ok (Some v0)
                  | None => Ok None
                  end = Ok dv) as (dv & ->).
    { destruct (defaults info) as [d|]; [|eauto].
      destruct Hdef as (dv & Hd & Hdf). rewrite Hd. cbn. eauto. }
    cbn. destruct (hide_list_defaults _ _ _ _ _ _ _ _) as [dv' dd].
    unfold export_value, str_truncate. rewrite substring_0_0.
    destruct (type def) eqn:Ht; try discriminate; cbn in Hfit.
    + (* SET_DEFLIST *)
      destruct Hfit as [[children|] ->]; cbn; [|eauto].
      destruct (Hlist eq_refl children eq_refl) as (cc & Hcc & Hlen & Hli).
      destruct (section_names_total def children) with
        (str := "") (s := section_idx ctx) (i := 0) as [str ->].
      { intros Hu. rewrite Ht in Hu. discriminate. }
      cbn. rewrite Hcc, Hlen, Nat.eqb_refl. cbn.
      destruct children as [|child children]; [eauto|].
      destruct (list_info def) as [li|] eqn:Hl; [|discriminate].
      destruct Hli as [_ Hall].
      eapply (export_children_total _ (wf li)); [| |exact Hall].
      * intros s ch c0. by apply (Hrec li).
      * intros Hu. rewrite Ht in Hu. discriminate.
    + (* SET_DEFLIST_UNIQUE *)
      destruct Hfit as [[children|] ->]; cbn; [|eauto].
      destruct (Hlist eq_refl children eq_refl) as (cc & Hcc & Hlen & Hli).
      assert (Hu : type def = SET_DEFLIST_UNIQUE → children ≠ [] →
                   ∃ li, list_info def = Some li ∧ type_offset1 li ≠ 0%nat
                         ∧ Forall (λ child, ∃ name,
                                     child !! (type_offset1 li - 1)%nat
                                     = Some (VStr name)) children).
      { intros _ Hne. destruct (list_info def) as [li|]; [|done].
        destruct Hli as [Hu _]. destruct (Hu eq_refl) as [Hn Hf]. eauto. }
      destruct (section_names_total def children Hu)
        with (str := "") (s := section_idx ctx) (i := 0) as [str ->].
      cbn. rewrite Hcc, Hlen, Nat.eqb_refl. cbn.
      destruct children as [|child children]; [eauto|].
      destruct (list_info def) as [li|] eqn:Hl; [|discriminate].
      destruct Hli as [_ Hall].
      eapply (export_children_total _ (wf li)); [| |exact Hall].
      * intros s ch c0. by apply (Hrec li).
      * rewrite Hl. exact Hu.
    + (* SET_STRLIST *)
      destruct Hfit as [->|(l & -> & Heven)]; cbn; [eauto|].
      destruct (hash_table_lookup _ _); cbn; [eauto|].
      rewrite Heven. cbn. eauto.
    + (* SET_ALIAS *)
      cbn. eauto.
Qed.

Lemma export_defines_total
    (recurse : setting_parser_info → bool → settings → changes
               → config_export_context → result config_export_context)
    (wf : setting_parser_info → settings → changes → Prop)
    info pu set cs defs :
  (∀ def li, def ∈ defs → list_info def = Some li →
         ∀ u s ch c, wf li s ch → ∃ c', recurse li u s ch c = Ok c') →
  well_formed_defines wf info set cs defs →
  ∀ ctx, ∃ ctx', export_defines recurse info pu set cs defs ctx = Ok ctx'.
Proof.
  induction defs as [|def defs IH]; intros Hrec Hw ctx; cbn; [eauto|].
  destruct Hw as [Hd Hw].
  destruct (export_define_total recurse wf info pu set cs def ctx)
    as [c1 ->]; [|exact Hd|].
  { intros li Hli. apply (Hrec def li); [left|exact Hli]. }
  cbn. apply IH; [|exact Hw].
  intros d li Hin. apply (Hrec d li). by right.
Qed.

Lemma settings_export_total info :
  ∀ pu set cs ctx,
    well_formed info set cs →
    ∃ ctx', settings_export info pu set cs ctx = Ok ctx'.
Proof.
  induction info as [info IH] using setting_parser_info_ind'.
  intros pu set cs ctx Hw.
  rewrite settings_export_unfold. rewrite well_formed_unfold in Hw.
  apply (export_defines_total settings_export well_formed); [|exact Hw].
  intros def li Hin Hli u s ch c. by apply (IH def li).
Qed.

Lemma export_sequence_total parsers :
  Forall exportable parsers →
  ∀ ctx idx, ∃ r, export_sequence parsers ctx idx = Ok r.
Proof.
  induction 1 as [|mp parsers Hm _ IH]; intros ctx idx; cbn; [eauto|].
  destruct (delayed_error mp) eqn:He; [eauto|].
  destruct (settings_export_total (root mp) false (parser_set (parser mp))
              (parser_changes (parser mp)) (set_section_idx ctx idx))
    as [c ->]; [by apply Hm|].
  cbn. apply IH.
Qed.

(** X19: the walker completes on every well-formed input, under every
    scope and every flag, and so does the export of all module parsers
    that are ready for export. *)
Theorem export_completes_on_well_formed_input :
  (∀ info pu set cs ctx,
     well_formed info set cs →
     ∃ ctx', settings_export info pu set cs ctx = Ok ctx')
  ∧ (∀ ctx parsers idx,
       module_parsers ctx = Some parsers → Forall exportable parsers →
       ∃ out, config_export_all_parsers (Some ctx) idx = Ok out).
Proof.
  split; [intros; by apply settings_export_total|].
  intros ctx parsers idx Hp Hall.
  rewrite config_export_all_parsers_spec. unfold spec_export_all.
  rewrite Hp. destruct (export_sequence_total parsers Hall ctx idx)
    as [[[c j] e] ->].
  cbn. eauto.
Qed.

End totality.

Section appends.
Context `{ext : Externals}.

Lemma config_export_size_appends str n :
  config_export_size str n = str +:+ config_export_size "" n.
Proof.
  unfold config_export_size, str_append_c. destruct (n =? 0); [done|].
  by destruct (size_loop _ _ _).
Qed.

Lemma config_export_time_appends str n :
  config_export_time str n = str +:+ config_export_time "" n.
Proof. by rewrite (config_export_time_spec ""), config_export_time_spec. Qed.

Lemma config_export_time_msecs_appends str n :
  config_export_time_msecs str n = str +:+ config_export_time_msecs "" n.
Proof.
  unfold config_export_time_msecs. destruct (_ =? 0); [|done].
  apply config_export_time_appends.
Qed.

(** X20: the formatter only appends to the buffer, what it appends does not
    depend on what the buffer holds, and it never clears [*dump_r]. *)
Theorem config_export_type_appends str v dv t dd dump :
  config_export_type str v dv t dd dump
  = ('(r, out, d) ← config_export_type "" v dv t dd dump;
     Ok (r, str +:+ out, d))
  ∧ match config_export_type str v dv t dd true with
    | Ok (_, _, d) => d = true
    | Fatal _ => True
    end.
Proof.
  split.
  - destruct t; cbn; try (by rewrite string_app_nil_r);
      destruct v as [b|n|n|n|[s|]|a|a]; cbn; try reflexivity;
      try (destruct (dump_or_differs _ _ _ _ _) as [[]|]; cbn;
           rewrite ?string_app_nil_r; try reflexivity;
           first [ by rewrite config_export_size_appends
                 | by rewrite config_export_time_appends
                 | by rewrite config_export_time_msecs_appends ]);
      try (destruct (deref_str_default dv) as [dval|]; cbn; [|reflexivity]);
      try (destruct (i_assert _ _); cbn; [|reflexivity]);
      try (destruct dd; cbn; rewrite ?string_app_nil_r; try reflexivity);
      try (destruct (deref_str_default dv) as [[d|]|]; cbn;
           try reflexivity);
      try (destruct (_ || _); cbn; by rewrite ?string_app_nil_r);
      try (destruct (null_strcmp_ne _ _); cbn; by rewrite ?string_app_nil_r).
  - destruct t; cbn; try done;
      destruct v as [b|n|n|n|[s|]|a|a]; cbn; try done;
      try (destruct (dump_or_differs _ _ _ _ _) as [[]|]; done);
      try (destruct (deref_str_default dv) as [dval|]; cbn; [|done]);
      try (destruct (i_assert _ _); cbn; [|done]);
      try (destruct dd; cbn; try done);
      try (destruct (deref_str_default dv) as [[d|]|]; cbn; try done);
      try (destruct (_ || _); done);
      try (destruct (null_strcmp_ne _ _); done).
Qed.

End appends.

Section scopes.
Context `{ext : Externals}.

(** X21: under a scope that forces the default of a field, a number or a
    string that is not NULL is emitted whatever its default. *)
Theorem scope_forced_field_emitted
    (recurse : setting_parser_info → bool → settings → changes
               → config_export_context → result config_export_context)
    info pu set cs def ctx ctx' v c :
  set !! offset def = Some v →
  cs !! offset def = Some c →
  scope_dump_default (scope ctx) def c = true →
  emits_when_forced (type def) v = true →
  hash_table_lookup (keys ctx) (prefix ctx +:+ key def) = false →
  export_define recurse info pu set cs def ctx = Ok ctx' →
  ∃ text dump,
    config_export_type "" v None (type def) true false
    = Ok (true, text, dump)
    ∧ context ctx'
      = (context ctx
         ++ [(prefix ctx +:+ key def, text, leaf_key_type info pu def)])%list.
Proof.
  intros Hv Hc Hsc Hf Hl He.
  apply export_define_scalar_context in He
    as (v' & dv & c' & dv' & dd & str & dump & Hv' & Hd & Hc' & Hhd & Hfm
        & Hctx); [| |exact Hl].
  2:{ destruct (type def), v as [| | | |[|]| |]; done. }
  rewrite Hv in Hv'. injection Hv' as <-.
  rewrite Hc in Hc'. injection Hc' as <-.
  rewrite hide_list_defaults_cases, Hsc in Hhd.
  assert (dd = true) as ->.
  { destruct (negb pu || _); [by injection Hhd as _ <-|].
    destruct (_ && _); by injection Hhd as _ <-. }
  apply forced_emitted in Hfm as (Hfm & _ & Hem); [|exact Hf].
  exists str, dump. split; [exact Hfm|]. by rewrite Hctx, Hem.
Qed.

Lemma strlist_pairs_with_scope def strings sc :
  ∀ c, strlist_pairs (with_scope c sc) def strings
       = with_scope (strlist_pairs c def strings) sc.
Proof.
  induction strings as [|x|k v rest IH] using pairs_ind; intros c; cbn;
    try reflexivity.
  apply (IH (callback c _ v CONFIG_KEY_NORMAL)).
Qed.

(** The type switch does not look at the scope. *)
Lemma export_value_with_scope ctx def v dv cv dd sc :
  export_value (with_scope ctx sc) def v dv cv dd
  = ('(c, dump, children, cc) ← export_value ctx def v dv cv dd;
     Ok (with_scope c sc, dump, children, cc)).
Proof.
  unfold export_value. cbn [ctx_value with_scope].
  destruct (type def);
    try (destruct (config_export_type _ _ _ _ _ _) as [[[[] str] dump]|];
         reflexivity).
  - destruct (as_array v) as [[children|]|]; try reflexivity. cbn.
    destruct (section_names _ _ _ _ _); [cbn|reflexivity].
    destruct (change_array cv); [|reflexivity].
    destruct (i_assert _ _); reflexivity.
  - destruct (as_array v) as [[children|]|]; try reflexivity. cbn.
    destruct (section_names _ _ _ _ _); [cbn|reflexivity].
    destruct (change_array cv); [|reflexivity].
    destruct (i_assert _ _); reflexivity.
  - destruct (as_strlist v) as [[strings|]|]; try reflexivity. cbn.
    destruct (hash_table_lookup _ _); [reflexivity|].
    destruct (i_assert _ _); [cbn|reflexivity].
    destruct (flag_set _ _); cbn;
      match goal with |- context [strlist_pairs ?c def strings] =>
        match c with
        | callback ?c0 ?k ?v0 ?t =>
            change c with (with_scope (callback
              (mk_ctx (ctx_value c0) (prefix c0) (keys c0) (scope ctx)
                      (context c0) (ctx_flags c0) (module_parsers c0)
                      (dup_module_parsers c0) (section_idx c0)
                      (assigned c0)) k v0 t) sc)
        end
      end; rewrite strlist_pairs_with_scope; reflexivity.
  - reflexivity.
Qed.

Lemma export_leaf_with_scope ctx info pu def dump sc :
  export_leaf (with_scope ctx sc) info pu def dump
  = with_scope (export_leaf ctx info pu def dump) sc.
Proof.
  unfold export_leaf. cbn [ctx_value prefix keys with_scope].
  destruct (_ || dump); [|reflexivity].
  destruct (negb _); [|reflexivity]. cbn.
  by destruct (flag_set _ _).
Qed.

(** Two scopes that force the default of a definition alike lead the
    walker alike through it. *)
Lemma export_define_with_scope
    (recurse : setting_parser_info → bool → settings → changes
               → config_export_context → result config_export_context)
    info pu set cs def ctx sc :
  (∀ c, scope_dump_default sc def c
        = scope_dump_default (scope ctx) def c) →
  (∀ li, list_info def = Some li →
         ∀ u s ch c, scope c = scope ctx →
                     recurse li u s ch (with_scope c sc)
                     = under_scope sc (recurse li u s ch c)) →
  (∀ li, list_info def = Some li →
         ∀ u s ch c c', recurse li u s ch c = Ok c' → tidy c c') →
  export_define recurse info pu set cs def (with_scope ctx sc)
  = under_scope sc (export_define recurse info pu set cs def ctx).
Proof.
  intros Hsc Hrec Hkeep. unfold export_define, under_scope.
  destruct (field set (offset def)) as [v|]; [cbn|reflexivity].
  destruct (match defaults info with
            | Some d => _ | None => _ end) as [dv|]; [cbn|reflexivity].
  destruct (field cs (offset def)) as [c|]; [cbn|reflexivity].
  rewrite Hsc.
  change (hide_list_defaults (with_scope ctx sc)) with
    (hide_list_defaults ctx).
  destruct (hide_list_defaults _ _ _ _ _ _ _ _) as [dv' dd].
  rewrite export_value_with_scope.
  destruct (export_value ctx def v dv' c dd)
    as [[[[c1 dump] children] cc]|] eqn:Hv; [cbn|reflexivity].
  rewrite export_leaf_with_scope. cbn [prefix section_idx with_scope].
  destruct children as [|child children]; [reflexivity|].
  destruct (list_info def) as [li|] eqn:Hli; [|reflexivity].
  set (c2 := export_leaf c1 info pu def dump).
  assert (Hs2 : scope c2 = scope ctx).
  { apply export_value_steady in Hv as (Hs1 & _).
    destruct (export_leaf_steady c1 info pu def dump) as (Hs2 & _).
    subst c2. by rewrite (steady_scope _ _ Hs2), (steady_scope _ _ Hs1). }
  change (set_section_idx (with_scope c2 sc) ?a)
    with (with_scope (set_section_idx c2 a) sc).
  assert (Hgen : ∀ l cc0 i c0, scope c0 = scope ctx →
    export_children
      (recurse li (bool_decide (type def = SET_DEFLIST_UNIQUE))) def
      (String.length (prefix c2)) (section_idx c2) i l cc0
      (with_scope c0 sc)
    = under_scope sc
        (export_children
           (recurse li (bool_decide (type def = SET_DEFLIST_UNIQUE))) def
           (String.length (prefix c2)) (section_idx c2) i l cc0 c0)).
  { clear -Hrec Hkeep. induction l as [|x l IH]; intros cc0 i c0 Hs0;
      cbn; [reflexivity|].
    destruct cc0 as [|change cc0]; [reflexivity|].
    destruct (setting_export_section_name _ _ _ _) as [p|];
      [cbn|reflexivity].
    change (set_prefix (note_assigned (with_scope c0 sc) ?a) ?b)
      with (with_scope (set_prefix (note_assigned c0 a) b) sc).
    rewrite (Hrec li eq_refl) by exact Hs0. unfold under_scope at 1.
    destruct (recurse li _ _ _ _) as [c3|] eqn:Hr; [cbn|reflexivity].
    apply (IH cc0 (i + 1)
             (set_prefix c3 (str_truncate (prefix c3)
                               (String.length (prefix c2))))).
    cbn. apply (Hkeep li eq_refl) in Hr as [Hr _].
    by rewrite (steady_scope _ _ Hr). }
  apply Hgen. exact Hs2.
Qed.

Lemma nothing_hidden_defines info def :
  nothing_hidden info = true → def ∈ defines info →
  Z.land (flags def) SET_FLAG_HIDDEN = 0
  ∧ ∀ li, list_info def = Some li → nothing_hidden li = true.
Proof.
  intros Hf Hin. destruct info as [defs dflt to1]. cbn in Hf, Hin.
  rewrite forallb_forall in Hf. apply list_elem_of_In in Hin.
  specialize (Hf _ Hin). apply andb_true_iff in Hf as [Ht Hl].
  split; [by apply Z.eqb_eq|]. intros li Hli. by rewrite Hli in Hl.
Qed.

Lemma export_defines_all_scopes
    (recurse : setting_parser_info → bool → settings → changes
               → config_export_context → result config_export_context)
    info pu set cs defs :
  Forall (λ def, Z.land (flags def) SET_FLAG_HIDDEN = 0) defs →
  (∀ def li, def ∈ defs → list_info def = Some li →
     ∀ u s ch c, scope c = CONFIG_DUMP_SCOPE_ALL_WITHOUT_HIDDEN →
       recurse li u s ch (with_scope c CONFIG_DUMP_SCOPE_ALL_WITH_HIDDEN)
       = under_scope CONFIG_DUMP_SCOPE_ALL_WITH_HIDDEN
           (recurse li u s ch c)) →
  (∀ def li, def ∈ defs → list_info def = Some li →
     ∀ u s ch c c', recurse li u s ch c = Ok c' → tidy c c') →
  ∀ ctx, scope ctx = CONFIG_DUMP_SCOPE_ALL_WITHOUT_HIDDEN →
    export_defines recurse info pu set cs defs
      (with_scope ctx CONFIG_DUMP_SCOPE_ALL_WITH_HIDDEN)
    = under_scope CONFIG_DUMP_SCOPE_ALL_WITH_HIDDEN
        (export_defines recurse info pu set cs defs ctx).
Proof.
  induction defs as [|def defs IH]; intros Hall Hrec Hkeep ctx Hs; cbn;
    [reflexivity|].
  apply Forall_cons in Hall as [Hh Hall].
  rewrite export_define_with_scope.
  - unfold under_scope at 1.
    destruct (export_define _ _ _ _ _ _ _) as [c1|] eqn:Hd; [cbn|reflexivity].
    apply IH; [exact Hall| | |].
    + intros d li Hin. apply (Hrec d li). by right.
    + intros d li Hin. apply (Hkeep d li). by right.
    + apply export_define_tidy in Hd as [Hst _].
      * by rewrite (steady_scope _ _ Hst).
      * intros li Hli. apply (Hkeep def li); [left|exact Hli].
  - intros c. rewrite Hs. cbn. by rewrite Hh.
  - intros li Hli u s ch c Hc. apply (Hrec def li); [left|exact Hli|].
    by rewrite Hc.
  - intros li Hli. apply (Hkeep def li); [left|exact Hli].
Qed.


Lemma settings_export_all_scopes info :
  nothing_hidden info = true →
  ∀ pu set cs ctx,
    scope ctx = CONFIG_DUMP_SCOPE_ALL_WITHOUT_HIDDEN →
    settings_export info pu set cs
      (with_scope ctx CONFIG_DUMP_SCOPE_ALL_WITH_HIDDEN)
    = under_scope CONFIG_DUMP_SCOPE_ALL_WITH_HIDDEN
        (settings_export info pu set cs ctx).
Proof.
  induction info as [info IH] using setting_parser_info_ind'.
  intros Hn pu set cs ctx Hs. rewrite !settings_export_unfold.
  apply export_defines_all_scopes; [| | |exact Hs].
  - apply Forall_forall. intros def Hin.
    by apply (nothing_hidden_defines info def Hn).
  - intros def li Hin Hli u s ch c Hc. apply (IH def li Hin Hli); [|exact Hc].
    by apply (nothing_hidden_defines info def Hn Hin).
  - intros def li Hin Hli u s ch c c'. apply settings_export_tidy.
Qed.

(** X22: the hidden flag is all that tells ALL_WITHOUT_HIDDEN from
    ALL_WITH_HIDDEN: on a schema without hidden definitions the two
    scopes lead to the same outcome, entries and all. *)
Theorem all_scopes_agree_without_hidden info pu set cs ctx :
  nothing_hidden info = true →
  settings_export info pu set cs
    (with_scope ctx CONFIG_DUMP_SCOPE_ALL_WITH_HIDDEN)
  = under_scope CONFIG_DUMP_SCOPE_ALL_WITH_HIDDEN
      (settings_export info pu set cs
         (with_scope ctx CONFIG_DUMP_SCOPE_ALL_WITHOUT_HIDDEN))
  ∧ entries_of (settings_export info pu set cs
                  (with_scope ctx CONFIG_DUMP_SCOPE_ALL_WITH_HIDDEN))
    = entries_of (settings_export info pu set cs
                    (with_scope ctx CONFIG_DUMP_SCOPE_ALL_WITHOUT_HIDDEN)).
Proof.
  intros Hn.
  pose proof (settings_export_all_scopes info Hn pu set cs
                (with_scope ctx CONFIG_DUMP_SCOPE_ALL_WITHOUT_HIDDEN)
                eq_refl) as He.
  change (with_scope (with_scope ctx CONFIG_DUMP_SCOPE_ALL_WITHOUT_HIDDEN)
            CONFIG_DUMP_SCOPE_ALL_WITH_HIDDEN)
    with (with_scope ctx CONFIG_DUMP_SCOPE_ALL_WITH_HIDDEN) in He.
  split; [exact He|]. rewrite He. clear He. unfold under_scope.
  destruct (settings_export _ _ _ _ _); reflexivity.
Qed.

End scopes.

Section more_examples.
Local Existing Instance sample_externals.
Local Existing Instance sample_collaborators.

Lemma distinct_sizes_print_differently_witness :
  config_export_size "" 1024 = "1 k"
  ∧ config_export_size "" 1025 = "1025 B"
  ∧ config_export_size "" 1024 ≠ config_export_size "" 1025.
Proof.
  split; [reflexivity|]. split; [reflexivity|].
  apply distinct_sizes_print_differently; lia.
Defined.

Lemma distinct_durations_print_differently_witness :
  config_export_time "" 60 = "1 mins"
  ∧ config_export_time "" 61 = "61 secs"
  ∧ config_export_time "" 60 ≠ config_export_time "" 61
  ∧ config_export_time_msecs "" 60 ≠ config_export_time_msecs "" 61.
Proof.
  split; [reflexivity|]. split; [reflexivity|].
  apply distinct_durations_print_differently; lia.
Defined.

Lemma changed_number_always_emitted_witness :
  ∃ ctx',
    export_define settings_export Sample.root_info false
      (Cases.limit_set 20) (Cases.limit_changes 1) Cases.limit_def
      (config_export_init CONFIG_DUMP_SCOPE_CHANGED 0) = Ok ctx'
    ∧ ∃ text,
        text ≠ ""
        ∧ config_export_type "" (VUint 20) None SET_UINT true false
          = Ok (true, text, false)
        ∧ context ctx' = [("limit", text, CONFIG_KEY_NORMAL)].
Proof.
  eexists. split; [vm_compute; reflexivity|].
  apply (changed_number_always_emitted settings_export Sample.root_info
           false (Cases.limit_set 20) (Cases.limit_changes 1)
           Cases.limit_def (config_export_init CONFIG_DUMP_SCOPE_CHANGED 0)
           _ (VUint 20));
    try reflexivity; try (vm_compute; reflexivity).
  vm_compute. discriminate.
Defined.


Lemma changed_field_in_unique_list_forced_witness :
  ∃ ctx',
    export_define settings_export Sample.service_info true
      (Sample.service "a" true "0" None) (Sample.service_changes 1 1 0 0)
      Cases.enabled_def (config_export_init CONFIG_DUMP_SCOPE_CHANGED 2)
    = Ok ctx'
    ∧ ∃ text dump,
        config_export_type "" (VBool true) None SET_BOOL true false
        = Ok (true, text, dump)
        ∧ context ctx' = [("enabled", text, CONFIG_KEY_NORMAL)].
Proof.
  eexists. split; [vm_compute; reflexivity|].
  apply (changed_field_in_unique_list_forced settings_export
           Sample.service_info (Sample.service "a" true "0" None)
           (Sample.service_changes 1 1 0 0) Cases.enabled_def
           (config_export_init CONFIG_DUMP_SCOPE_CHANGED 2) _
           (VBool true) (Change 1 None));
    try reflexivity; try (vm_compute; reflexivity).
  left. cbn. lia.
Defined.


Lemma null_string_never_emitted_witness :
  ∃ ctx',
    export_define settings_export Cases.note_info false Cases.note_unset
      Cases.note_changes Cases.note_def
      (config_export_init CONFIG_DUMP_SCOPE_ALL_WITH_HIDDEN 0)
    = Ok ctx'
    ∧ context ctx' = [] ∧ keys ctx' = ∅.
Proof.
  eexists. split; [vm_compute; reflexivity|].
  apply (null_string_never_emitted settings_export Cases.note_info false
           Cases.note_unset Cases.note_changes Cases.note_def
           (config_export_init CONFIG_DUMP_SCOPE_ALL_WITH_HIDDEN 0));
    [by left|vm_compute; reflexivity|vm_compute; reflexivity].
Defined.

Lemma defaults_emit_nothing_under_changed_witness :
  ∃ ctx',
    settings_export Cases.flat_info false Cases.flat_set Cases.flat_changes
      (config_export_init CONFIG_DUMP_SCOPE_CHANGED 0)
    = Ok ctx'
    ∧ context ctx' = [] ∧ keys ctx' = ∅.
Proof.
  eexists. split; [vm_compute; reflexivity|].
  apply (defaults_emit_nothing_under_changed Cases.flat_info Cases.flat_set
           Cases.flat_changes
           (config_export_init CONFIG_DUMP_SCOPE_CHANGED 0));
    [reflexivity| |vm_compute; reflexivity].
  repeat (apply Forall_cons; split;
          [eexists _, _; split; [vm_compute; reflexivity|];
           split; [vm_compute; reflexivity|];
           first [ reflexivity
                 | exact I
                 | right; eexists; split; reflexivity
                 | exists "fast", ":slow"; split; reflexivity ]|]).
  apply Forall_nil. exact I.
Defined.

Lemma enum_without_default_aborts_witness :
  export_define settings_export Cases.mode_info false Cases.mode_set
    Cases.mode_changes Cases.mode_def
    (config_export_init CONFIG_DUMP_SCOPE_CHANGED 0)
  = Fatal (AssertFailed "dval != NULL")
  ∧ entries_of
      (export_define settings_export Cases.mode_info false Cases.mode_set
         Cases.mode_changes Cases.mode_def
         (config_export_init CONFIG_DUMP_SCOPE_ALL_WITH_HIDDEN 0))
    = [("mode", "fast", CONFIG_KEY_NORMAL)].
Proof.
  split.
  - exact (enum_without_default_aborts settings_export Cases.mode_info false
             Cases.mode_set Cases.mode_changes Cases.mode_def
             (config_export_init CONFIG_DUMP_SCOPE_CHANGED 0) "fast"
             (Change 0 None) eq_refl eq_refl eq_refl eq_refl eq_refl).
  - rewrite (enum_without_default_aborts settings_export Cases.mode_info
               false Cases.mode_set Cases.mode_changes Cases.mode_def
               (config_export_init CONFIG_DUMP_SCOPE_ALL_WITH_HIDDEN 0)
               "fast" (Change 0 None) eq_refl eq_refl eq_refl eq_refl
               eq_refl).
    reflexivity.
Defined.

Lemma settings_export_frame_witness :
  ∃ ctx',
    settings_export Sample.root_info false Sample.root_set
      Sample.root_changes
      (set_prefix (config_export_init CONFIG_DUMP_SCOPE_ALL_WITH_HIDDEN 8)
                  "local/")
    = Ok ctx'
    ∧ prefix ctx' = "local/"
    ∧ scope ctx' = CONFIG_DUMP_SCOPE_ALL_WITH_HIDDEN
    ∧ ctx_flags ctx' = 8
    ∧ module_parsers ctx' = None
    ∧ dup_module_parsers ctx' = None
    ∧ ∅ ⊆ keys ctx'
    ∧ ∃ new, context ctx' = ([] ++ new)%list.
Proof.
  eexists. split; [vm_compute; reflexivity|].
  apply (settings_export_frame Sample.root_info false Sample.root_set
           Sample.root_changes
           (set_prefix
              (config_export_init CONFIG_DUMP_SCOPE_ALL_WITH_HIDDEN 8)
              "local/")).
  vm_compute; reflexivity.
Defined.

Lemma emitted_keys_extend_prefix_witness :
  ∃ ctx',
    settings_export Sample.root_info false Sample.root_set
      Sample.root_changes
      (set_prefix (config_export_init CONFIG_DUMP_SCOPE_ALL_WITH_HIDDEN 8)
                  "local/")
    = Ok ctx'
    ∧ ∃ new, context ctx' = ([] ++ new)%list
             ∧ Forall (λ e, ∃ rest, entry_key e = "local/" +:+ rest) new.
Proof.
  eexists. split; [vm_compute; reflexivity|].
  apply (emitted_keys_extend_prefix Sample.root_info false Sample.root_set
           Sample.root_changes
           (set_prefix
              (config_export_init CONFIG_DUMP_SCOPE_ALL_WITH_HIDDEN 8)
              "local/")).
  vm_compute; reflexivity.
Defined.

Lemma dedup_emits_each_key_once_witness :
  ∃ ctx',
    settings_export Cases.peers_info false Cases.peers_set
      Cases.peers_changes
      (config_export_init CONFIG_DUMP_SCOPE_ALL_WITH_HIDDEN 8)
    = Ok ctx'
    ∧ context ctx'
      = [ ("peer", "a a", CONFIG_KEY_LIST);
          ("peer/a/name", "a", CONFIG_KEY_UNIQUE_KEY);
          ("peer/a/port", "1", CONFIG_KEY_NORMAL) ]
    ∧ NoDup (entry_key <$> context ctx')
    ∧ ∀ e, e ∈ context ctx' → entry_key e ∈ keys ctx'.
Proof.
  eexists. split; [vm_compute; reflexivity|]. split; [reflexivity|].
  apply (dedup_emits_each_key_once Cases.peers_info false Cases.peers_set
           Cases.peers_changes
           (config_export_init CONFIG_DUMP_SCOPE_ALL_WITH_HIDDEN 8));
    [reflexivity|reflexivity|apply NoDup_nil_2| |vm_compute; reflexivity].
  intros e He. by apply elem_of_nil in He.
Defined.

Lemma empty_list_emits_nothing_witness :
  ∃ ctx',
    export_define settings_export Cases.listeners_info false
      Cases.no_listeners_set Cases.no_listeners_changes Cases.listener_def
      (config_export_init CONFIG_DUMP_SCOPE_ALL_WITH_HIDDEN 0)
    = Ok ctx'
    ∧ context ctx' = [] ∧ keys ctx' = ∅ ∧ assigned ctx' = []
    ∧ section_idx ctx' = uint 0.
Proof.
  eexists. split; [vm_compute; reflexivity|].
  apply (empty_list_emits_nothing settings_export Cases.listeners_info false
           Cases.no_listeners_set Cases.no_listeners_changes
           Cases.listener_def
           (config_export_init CONFIG_DUMP_SCOPE_ALL_WITH_HIDDEN 0) _
           (Some []));
    [reflexivity|vm_compute; reflexivity|by right|vm_compute; reflexivity].
Defined.

Lemma odd_string_list_aborts_witness :
  export_define settings_export Sample.env_info false Cases.env_odd
    Sample.env_changes Cases.env_def
    (config_export_init CONFIG_DUMP_SCOPE_ALL_WITH_HIDDEN 0)
  = Fatal (AssertFailed "count % 2 == 0").
Proof.
  exact (odd_string_list_aborts settings_export Sample.env_info false
           Cases.env_odd Sample.env_changes Cases.env_def
           (config_export_init CONFIG_DUMP_SCOPE_ALL_WITH_HIDDEN 0)
           ["K"] (Change 0 None) None eq_refl eq_refl eq_refl eq_refl
           eq_refl).
Defined.


Lemma master_service_values_from_first_parser_witness :
  config_export_get_import_environment
    (config_export_set_module_parsers
       (config_export_init CONFIG_DUMP_SCOPE_ALL_WITH_HIDDEN 0)
       [Sample.env_parser; Cases.master_parser; Cases.other_master_parser])
  = Ok (Some "TZ")
  ∧ config_export_get_base_dir
      (config_export_set_module_parsers
         (config_export_init CONFIG_DUMP_SCOPE_ALL_WITH_HIDDEN 0)
         [Sample.env_parser; Cases.master_parser; Cases.other_master_parser])
    = Ok (Some "/run/dovecot").
Proof.
  refine (proj1 (master_service_values_from_first_parser
                   (config_export_set_module_parsers
                      (config_export_init
                         CONFIG_DUMP_SCOPE_ALL_WITH_HIDDEN 0)
                      [Sample.env_parser; Cases.master_parser;
                       Cases.other_master_parser])
                   _ eq_refl)
            [Sample.env_parser] Cases.master_parser
            [Cases.other_master_parser] eq_refl _ eq_refl).
  repeat constructor.
Defined.

Ltac fits_scalar :=
  eexists _, _; split; [vm_compute; reflexivity|];
  split; [vm_compute; reflexivity|];
  split; [cbn; first [ by eexists | by left | (right; by eexists)
                     | (right; eexists; by split) | exact I ]|];
  split; [cbn [defaults]; eexists; split; [vm_compute; reflexivity|];
          cbn; first [ by eexists | exact I ]|];
  intros Hl; discriminate Hl.

Lemma export_completes_on_well_formed_input_witness :
  well_formed Sample.root_info Sample.root_set Sample.root_changes
  ∧ ∃ ctx',
      settings_export Sample.root_info false Sample.root_set
        Sample.root_changes
        (config_export_init CONFIG_DUMP_SCOPE_SET 2)
      = Ok ctx'.
Proof.
  assert (Hw : well_formed Sample.root_info Sample.root_set
                 Sample.root_changes).
  { rewrite well_formed_unfold.
    cbn [defines well_formed_defines Sample.root_info].
    split; [fits_scalar|]. split; [|exact I].
    eexists _, _; split; [vm_compute; reflexivity|].
    split; [vm_compute; reflexivity|].
    split; [cbn; by eexists|].
    split; [eexists; split; [vm_compute; reflexivity|exact I]|].
    intros _ children Hc. injection Hc as <-.
    eexists. split; [vm_compute; reflexivity|]. split; [reflexivity|].
    cbn [list_info]. split.
    - intros _. split; [discriminate|].
      repeat constructor; eexists; vm_compute; reflexivity.
    - repeat (apply Forall2_cons; split); [| |by apply Forall2_nil];
        rewrite well_formed_unfold;
        cbn [defines well_formed_defines Sample.service_info];
        repeat (split; [fits_scalar|]); exact I. }
  split; [exact Hw|].
  by apply (proj1 export_completes_on_well_formed_input).
Defined.

Lemma scope_forced_field_emitted_witness :
  ∃ ctx',
    export_define settings_export Sample.root_info false
      (Cases.limit_set 10) (Cases.limit_changes 0) Cases.limit_def
      (config_export_init CONFIG_DUMP_SCOPE_ALL_WITH_HIDDEN 0) = Ok ctx'
    ∧ ∃ text dump,
        config_export_type "" (VUint 10) None SET_UINT true false
        = Ok (true, text, dump)
        ∧ context ctx' = [("limit", text, CONFIG_KEY_NORMAL)].
Proof.
  eexists. split; [vm_compute; reflexivity|].
  apply (scope_forced_field_emitted settings_export Sample.root_info
           false (Cases.limit_set 10) (Cases.limit_changes 0)
           Cases.limit_def
           (config_export_init CONFIG_DUMP_SCOPE_ALL_WITH_HIDDEN 0)
           _ (VUint 10) (Change 0 None));
    try reflexivity; vm_compute; reflexivity.
Defined.

Lemma all_scopes_agree_without_hidden_witness :
  nothing_hidden Sample.root_info = true
  ∧ entries_of
      (settings_export Sample.root_info false Sample.root_set
         Sample.root_changes
         (with_scope (config_export_init CONFIG_DUMP_SCOPE_CHANGED 0)
                     CONFIG_DUMP_SCOPE_ALL_WITH_HIDDEN))
    = entries_of
        (settings_export Sample.root_info false Sample.root_set
           Sample.root_changes
           (with_scope (config_export_init CONFIG_DUMP_SCOPE_CHANGED 0)
                       CONFIG_DUMP_SCOPE_ALL_WITHOUT_HIDDEN)).
Proof.
  split; [reflexivity|].
  apply (all_scopes_agree_without_hidden Sample.root_info false
           Sample.root_set Sample.root_changes
           (config_export_init CONFIG_DUMP_SCOPE_CHANGED 0)).
  reflexivity.
Defined.


End more_examples.
